(** * Hematocrit transport on a vessel network: topology, compliance and
      fixed-point coupling of [problemHT]

    Shallow embedding of [src/include/problemHT_prec.cpp].  Scalars
    ([scalar_type]) are modelled by the reals of the Standard Library;
    indices ([size_type]) by [nat]; signed branch labels by [Z]. *)

From Stdlib Require Import List Arith Bool ZArith String Lia.
From Stdlib Require Import Reals Lra.
From Stdlib Require Import Sorted.
Import ListNotations.

Set Implicit Arguments.

(* ================================================================== *)
(** * Outcomes of a routine that may fail *)

(** [GMM_ASSERT1(test, msg)] throws when [test] is false; inside
    [build_vessel_boundary] the exception is caught by
    [GMM_STANDARD_CATCH_ERROR], which prints the message and terminates the
    program: this is [Abort msg].  [Undef] is an [operator[]] outside the
    bounds of a [std::vector], for which C++ defines no behaviour. *)
Inductive outcome (A : Type) : Type :=
| Ok (a : A)
| Abort (msg : string)
| Undef.

Arguments Abort {A} msg.
Arguments Undef {A}.

Definition bind {A B : Type} (m : outcome A) (k : A -> outcome B) : outcome B :=
  match m with
  | Ok a => k a
  | Abort msg => Abort msg
  | Undef => Undef
  end.

Notation "x <- m ;; k" := (bind m (fun x => k))
  (at level 61, m at next level, right associativity).
Notation "m ;;; k" := (bind m (fun _ => k))
  (at level 61, right associativity).

Definition GMM_ASSERT1 (test : bool) (msg : string) : outcome unit :=
  if test then Ok tt else Abort msg.

(** [v[i]] on a [std::vector]. *)
Definition at_index {A : Type} (v : list A) (i : nat) : outcome A :=
  match nth_error v i with
  | Some a => Ok a
  | None => Undef
  end.

(** [v[i] = f(v[i])]. *)
Fixpoint update_at {A : Type} (f : A -> A) (i : nat) (v : list A) {struct v}
  : outcome (list A) :=
  match v, i with
  | [], _ => Undef
  | a :: v', O => Ok (f a :: v')
  | a :: v', S i' => v'' <- update_at f i' v' ;; Ok (a :: v'')
  end.

(** [v.back() = f(v.back())]. *)
Definition update_back {A : Type} (f : A -> A) (v : list A) : outcome (list A) :=
  update_at f (Nat.pred (List.length v)) v.

(** The search loops of the builder,
    [while (!found && k < n) { found = p(k); if (!found) k++; }],
    started at [k] with [n] indices left. *)
Fixpoint search (p : nat -> bool) (n k : nat) : nat * bool :=
  match n with
  | O => (k, false)
  | S n' => if p k then (k, true) else search p n' (S k)
  end.

(* ================================================================== *)
(** * NetworkTopologyBuilder: [problemHT::build_vessel_boundary] *)

Module Topology.

Local Open Scope nat_scope.

(** Modelled from the spec: the record of a boundary or junction vertex
    (type [node], declared outside [src/]); the data model gives it a label,
    a value (the weight of a junction), the vertex index, the region index
    and the list of (signed) branch indices.  The constructor used by the
    builder, [node(label, value, idx, rg)], leaves the branch list empty. *)
Record node : Type := mk_node {
  label : string;
  value : R;
  idx : nat;
  rg : nat;
  branches : list Z
}.

Definition new_node (l : string) (v : R) (i r : nat) : node :=
  mk_node l v i r [].

Definition set_rg (r : nat) (n : node) : node :=
  mk_node (label n) (value n) (idx n) r (branches n).

Definition set_value (v : R) (n : node) : node :=
  mk_node (label n) v (idx n) (rg n) (branches n).

(** [n.value += r]. *)
Definition add_value (r : R) (n : node) : node :=
  set_value (value n + r)%R n.

(** [n.branches.emplace_back(b)]. *)
Definition push_branch (b : Z) (n : node) : node :=
  mk_node (label n) (value n) (idx n) (rg n) (branches n ++ [b]).

(** ** The mesh service *)

(** [bgeot::convex_structure]: the number of points, of faces, and the
    local indices of the points of each face. *)
Record convex_structure : Type := {
  nb_points : nat;
  nb_faces : nat;
  ind_points_of_face : nat -> list nat
}.

(** The queries the builder makes on [meshh]; [convex_index] lists the
    convexes in the order the loop [cv << nn] visits them. *)
Record mesh : Type := {
  convex_index : list nat;
  structure_of_convex : nat -> convex_structure;
  ind_points_of_convex : nat -> list nat;
  convex_to_point : nat -> list nat
}.

(** A mesh region holds whole convexes ([None]) and faces of convexes
    ([Some f]); [region_map] gives the regions that exist. *)
Definition mesh_region : Type := list (nat * option nat).
Definition region_map : Type := nat -> option mesh_region.

Definition has_region (rm : region_map) (id : nat) : bool :=
  match rm id with Some _ => true | None => false end.

(** [meshh.region(id).is_in(cv)]: the whole convex [cv] is in the region;
    a region that does not exist holds nothing.  (The library registers an
    empty region [id] when a missing one is queried; the map of the model
    is left as it is by a query.) *)
Definition is_in (rm : region_map) (id cv : nat) : bool :=
  match rm id with
  | Some r =>
      existsb (fun e => (fst e =? cv) &&
                        match snd e with None => true | Some _ => false end) r
  | None => false
  end.

(** [meshh.region(id).add(cv, f)]. *)
Definition region_add (rm : region_map) (id cv f : nat) : region_map :=
  fun k =>
    if k =? id then
      Some (match rm id with Some r => r ++ [(cv, Some f)] | None => [(cv, Some f)] end)
    else rm k.

(** Diagnostics written to [cerr] without stopping the program (what is
    written to [cout] is left out). *)
Inductive diagnostic : Type :=
| MoreThanTwoVertices (cv : nat)
| MoreThanTwoFaces (cv : nat).

(** ** The state the builder updates *)

Record state : Type := mk_state {
  regions : region_map;
  BCv_HT : list node;
  Jv_HT : list node;
  junctions : list nat;
  extrema : list nat;
  nb_extrema : nat;
  nb_junctions : nat;
  fer : nat;
  cerr : list diagnostic
}.

Definition set_regions (x : region_map) (s : state) : state :=
  mk_state x (BCv_HT s) (Jv_HT s) (junctions s) (extrema s)
           (nb_extrema s) (nb_junctions s) (fer s) (cerr s).
Definition set_BCv_HT (x : list node) (s : state) : state :=
  mk_state (regions s) x (Jv_HT s) (junctions s) (extrema s)
           (nb_extrema s) (nb_junctions s) (fer s) (cerr s).
Definition set_Jv_HT (x : list node) (s : state) : state :=
  mk_state (regions s) (BCv_HT s) x (junctions s) (extrema s)
           (nb_extrema s) (nb_junctions s) (fer s) (cerr s).
Definition set_fer (x : nat) (s : state) : state :=
  mk_state (regions s) (BCv_HT s) (Jv_HT s) (junctions s) (extrema s)
           (nb_extrema s) (nb_junctions s) x (cerr s).
Definition log (d : diagnostic) (s : state) : state :=
  mk_state (regions s) (BCv_HT s) (Jv_HT s) (junctions s) (extrema s)
           (nb_extrema s) (nb_junctions s) (fer s) (cerr s ++ [d]).

(** [extrema.add(i); nb_extrema++]. *)
Definition add_extremum (i : nat) (s : state) : state :=
  mk_state (regions s) (BCv_HT s) (Jv_HT s) (junctions s) (extrema s ++ [i])
           (S (nb_extrema s)) (nb_junctions s) (fer s) (cerr s).
(** [junctions.add(i); nb_junctions++]. *)
Definition add_junction (i : nat) (s : state) : state :=
  mk_state (regions s) (BCv_HT s) (Jv_HT s) (junctions s ++ [i]) (extrema s)
           (nb_extrema s) (S (nb_junctions s)) (fer s) (cerr s).

Definition msg_overload := "Overload in meshv region assembling!"%string.
Definition msg_minus_zero := "Error in network labeling: -0 makes no sense"%string.
Definition msg_firstbranch := "There's something wrong in firstbranch convex index"%string.
Definition msg_secondbranch := "There's something wrong in secondbranch convex index"%string.

Section Builder.

(** [meshh], [nb_branches] and the branch radius [param.R(mimv, branch)]
    (computed by [compute_radius], outside [src/]). *)
Variable M : mesh.
Variable nb_branches : nat.
Variable R_branch : nat -> R.

(** [GMM_ASSERT1(meshh.has_region(fer)==0, ...)], then
    [meshh.region(fer).add(cv, f)]. *)
Definition new_face_region (cv f : nat) (s : state) : outcome state :=
  GMM_ASSERT1 (negb (has_region (regions s) (fer s))) msg_overload ;;;
  Ok (set_regions (region_add (regions s) (fer s) cv f) s).

(** The search for the branch region containing convex [cv]. *)
Definition find_branch (s : state) (cv : nat) : nat * bool :=
  search (fun branch => is_in (regions s) branch cv) nb_branches 0.

(** The search for a vertex among the indices of a list of nodes. *)
Definition find_node (i : nat) (l : list node) (n : nat) : nat * bool :=
  search (fun k => match nth_error l k with
                   | Some nd => i =? idx nd
                   | None => false
                   end) n 0.

(** [meshh.ind_points_of_convex(cv)[cvs->ind_points_of_face(f)[0]]]. *)
Definition face_vertex (cv f : nat) : outcome nat :=
  k <- at_index (ind_points_of_face (structure_of_convex M cv) f) 0 ;;
  at_index (ind_points_of_convex M cv) k.

(** Orientation of convex [c] at vertex [i]: [-1] when [i] is its first
    point, [+1] when it is its second, [0] otherwise. *)
Definition orientation (c i : nat) : outcome Z :=
  p0 <- at_index (ind_points_of_convex M c) 0 ;;
  if p0 =? i then Ok (-1)%Z
  else
    p1 <- at_index (ind_points_of_convex M c) 1 ;;
    if p1 =? i then Ok 1%Z else Ok 0%Z.

(** *** First endpoint [i0] of convex [cv] *)
Definition first_endpoint (cv i0 : nat) (s : state) : outcome state :=
  let deg := List.length (convex_to_point M i0) in
  if deg =? 1 then
    (* inflow extremum *)
    let s := add_extremum i0 s in
    s <- new_face_region cv 1 s ;;
    let '(bc, found) := find_node i0 (BCv_HT s) (List.length (BCv_HT s)) in
    (* GMM_ASSERT1(found=true, ...): the test is an assignment, always true *)
    GMM_ASSERT1 true "Miss a boundary node in BCv list!"%string ;;;
    bcs <- update_at (set_rg (fer s)) bc (BCv_HT s) ;;
    let s := set_fer (S (fer s)) (set_BCv_HT bcs s) in
    let '(branch, contained) := find_branch s cv in
    (* GMM_ASSERT1(contained=true, ...): an assignment again *)
    GMM_ASSERT1 true "No branch region contains node i0!"%string ;;;
    bcs <- update_at (push_branch (Z.of_nat branch)) bc (BCv_HT s) ;;
    Ok (set_BCv_HT bcs s)
  else if deg =? 2 then
    (* trivial inflow junction: nothing to do *)
    Ok s
  else if 2 <=? deg then
    (* non-trivial inflow junction *)
    s <- (if negb (existsb (Nat.eqb i0) (junctions s)) then
            let s := add_junction i0 s in
            s <- new_face_region cv 1 s ;;
            let s := set_Jv_HT (Jv_HT s ++ [new_node "JUN"%string 0 i0 (fer s)]) s in
            Ok (set_fer (S (fer s)) s)
          else Ok s) ;;
    let '(branch, contained) := find_branch s cv in
    GMM_ASSERT1 true "No branch region contains node i0!"%string ;;;
    let '(jj, found) := find_node i0 (Jv_HT s) (nb_junctions s) in
    js <- update_at (add_value (R_branch branch)) jj (Jv_HT s) ;;
    js <- update_at (push_branch (- Z.of_nat branch)%Z) jj js ;;
    let s := set_Jv_HT js s in
    GMM_ASSERT1 (0 <? branch) msg_minus_zero ;;;
    Ok s
  else Ok s.

(** *** Second endpoint [i1] of convex [cv] *)
Definition second_endpoint (cv i1 : nat) (s : state) : outcome state :=
  let deg := List.length (convex_to_point M i1) in
  if deg =? 1 then
    let '(bc, found) := find_node i1 (BCv_HT s) (List.length (BCv_HT s)) in
    if found then
      (* outflow extremum *)
      let s := add_extremum i1 s in
      s <- new_face_region cv 0 s ;;
      bcs <- update_at (fun n => set_value (value n * 1)%R n) bc (BCv_HT s) ;;
      bcs <- update_at (set_rg (fer s)) bc bcs ;;
      let s := set_fer (S (fer s)) (set_BCv_HT bcs s) in
      let '(branch, contained) := find_branch s cv in
      GMM_ASSERT1 true "No branch region contains node i1!"%string ;;;
      bcs <- update_at (push_branch (Z.of_nat branch)) bc (BCv_HT s) ;;
      Ok (set_BCv_HT bcs s)
    else
      (* interior -> mixed point *)
      s <- new_face_region cv 0 s ;;
      let s := set_BCv_HT (BCv_HT s ++ [new_node "MIX"%string 0 i1 (fer s)]) s in
      let s := set_fer (S (fer s)) s in
      let '(branch, contained) := find_branch s cv in
      GMM_ASSERT1 true "No branch region contains node i1!"%string ;;;
      bcs <- update_back (push_branch (Z.of_nat branch)) (BCv_HT s) ;;
      Ok (set_BCv_HT bcs s)
  else if deg =? 2 then
    (* trivial outflow junction *)
    let '(firstbranch, contained) := find_branch s cv in
    GMM_ASSERT1 true "No branch region contains node i1!"%string ;;;
    cv1 <- at_index (convex_to_point M i1) 0 ;;
    cv2 <- at_index (convex_to_point M i1) 1 ;;
    let is_junc := negb (is_in (regions s) firstbranch cv1)
                   || negb (is_in (regions s) firstbranch cv2) in
    if is_junc then
      if negb (existsb (Nat.eqb i1) (junctions s)) then
        let s := add_junction i1 s in
        s <- new_face_region cv 0 s ;;
        let s := set_Jv_HT (Jv_HT s ++ [new_node "JUN"%string 0 i1 (fer s)]) s in
        let s := set_fer (S (fer s)) s in
        let secondcv := if cv1 =? cv then cv2 else cv1 in
        let firstcv := if negb (cv1 =? cv) then cv2 else cv1 in
        let '(secondbranch, contained) :=
          search (fun k => negb (k =? firstbranch) && is_in (regions s) k secondcv)
                 nb_branches 0 in
        GMM_ASSERT1 true "No branch region contains node i1!"%string ;;;
        o1 <- orientation firstcv i1 ;;
        GMM_ASSERT1 (negb (o1 =? 0)%Z) msg_firstbranch ;;;
        js <- update_back (push_branch (o1 * Z.of_nat firstbranch)%Z) (Jv_HT s) ;;
        o2 <- orientation secondcv i1 ;;
        GMM_ASSERT1 (negb (o2 =? 0)%Z) msg_secondbranch ;;;
        js <- update_back (push_branch (o2 * Z.of_nat secondbranch)%Z) js ;;
        js <- update_back (add_value (R_branch firstbranch)) js ;;
        js <- update_back (add_value (R_branch secondbranch)) js ;;
        Ok (set_Jv_HT js s)
      else Ok s
    else Ok s
  else if 2 <=? deg then
    (* non-trivial outflow junction *)
    let '(branch, contained) := find_branch s cv in
    GMM_ASSERT1 true "No branch region contains node i0!"%string ;;;
    if negb (existsb (Nat.eqb i1) (junctions s)) then
      let s := add_junction i1 s in
      s <- new_face_region cv 0 s ;;
      let s := set_Jv_HT (Jv_HT s ++ [new_node "JUN"%string 0 i1 (fer s)]) s in
      js <- update_back (push_branch (Z.of_nat branch)) (Jv_HT s) ;;
      js <- update_back (add_value (R_branch branch)) js ;;
      Ok (set_fer (S (fer s)) (set_Jv_HT js s))
    else
      let '(jj, found) := find_node i1 (Jv_HT s) (nb_junctions s) in
      js <- update_at (push_branch (Z.of_nat branch)) jj (Jv_HT s) ;;
      js <- update_at (add_value (R_branch branch)) jj js ;;
      Ok (set_Jv_HT js s)
  else Ok s.

(** *** One turn of the loop over the convexes *)

(** The two checks on the structure of the convex write to [cerr]. *)
Definition check_structure (cv : nat) (s : state) : state :=
  let cvs := structure_of_convex M cv in
  let s := if 2 <? nb_points cvs then log (MoreThanTwoVertices cv) s else s in
  if 2 <? nb_faces cvs then log (MoreThanTwoFaces cv) s else s.

Definition step (s : state) (cv : nat) : outcome state :=
  let s := check_structure cv s in
  i0 <- face_vertex cv 1 ;;
  i1 <- face_vertex cv 0 ;;
  s <- first_endpoint cv i0 s ;;
  second_endpoint cv i1 s.

Fixpoint convexes_loop (cvs : list nat) (s : state) : outcome state :=
  match cvs with
  | [] => Ok s
  | cv :: rest => s' <- step s cv ;; convexes_loop rest s'
  end.

(** The state at the start: [Jv_HT.clear()], no extremum, no junction, and
    the first empty region [fer = nb_branches]. *)
Definition initial_state (rm : region_map) (bcs : list node) : state :=
  mk_state rm bcs [] [] [] 0 0 nb_branches [].

Definition build_vessel_boundary (rm : region_map) (bcs : list node)
  : outcome state :=
  GMM_ASSERT1 (negb (has_region rm nb_branches)) msg_overload ;;;
  convexes_loop (convex_index M) (initial_state rm bcs).

End Builder.

End Topology.

(* ================================================================== *)
(** * Comparisons of scalars *)

Definition Rgtb (x y : R) : bool := if Rgt_dec x y then true else false.
Definition Rltb (x y : R) : bool := if Rlt_dec x y then true else false.
Definition Rgeb (x y : R) : bool := if Rge_dec x y then true else false.
Definition Rleb (x y : R) : bool := if Rle_dec x y then true else false.
Definition Reqb (x y : R) : bool := if Req_dec_T x y then true else false.

(* ================================================================== *)
(** * HematocritTransportAssembler: the artificial diffusivity of
      [problemHT::assembly_mat] *)

Module Diffusivity.

Local Open Scope R_scope.

(** [*std::max_element(first, last)]: the first largest element; on an
    empty range the iterator returned is [last], whose dereference is
    undefined. *)
Fixpoint max_from (largest : R) (l : list R) : R :=
  match l with
  | [] => largest
  | x :: l' => max_from (if Rltb largest x then x else largest) l'
  end.

Definition max_element (l : list R) : outcome R :=
  match l with
  | [] => Undef
  | x :: l' => Ok (max_from x l')
  end.

Fixpoint min_from (smallest : R) (l : list R) : R :=
  match l with
  | [] => smallest
  | x :: l' => min_from (if Rltb x smallest then x else smallest) l'
  end.

Definition min_element (l : list R) : outcome R :=
  match l with
  | [] => Undef
  | x :: l' => Ok (min_from x l')
  end.

(** What the loop reads of branch [i]: the size estimates
    [meshv.convex_area_estimate(k,2)] of the convexes [k] of region [i], in
    the order of the visit, and the velocity vector [Uvi] of the branch. *)
Record branch : Type := {
  sizes : list R;
  Uvi : list R
}.

(** [for k in region(i): temp = size(k); if (temp > max_size) max_size = temp]. *)
Definition size_loop (max_size : R) (l : list R) : R :=
  fold_left (fun m temp => if Rgtb temp m then temp else m) l max_size.

(** One turn of the loop over the branches; the pair carried from one
    branch to the next is [(max_size, max_product)]. *)
Definition branch_step (st : R * R) (b : branch) : outcome (R * R) :=
  let '(max_size, max_product) := st in
  let max_size := size_loop max_size (sizes b) in
  max_U_positive <- max_element (Uvi b) ;;
  max_U_negative <- min_element (Uvi b) ;;
  let max_U := if Rgtb max_U_positive (Rabs max_U_negative)
               then max_U_positive else Rabs max_U_negative in
  let temp := max_U * max_size in
  Ok (max_size, if Rgtb temp max_product then temp else max_product).

Fixpoint branches_loop (bs : list branch) (st : R * R) : outcome (R * R) :=
  match bs with
  | [] => Ok st
  | b :: bs' => st' <- branch_step st b ;; branches_loop bs' st'
  end.

(** [max_size = 0; max_product = 0; ...; Diffusivity = max_product * Theta/2]. *)
Definition artificial_diffusivity (Theta : R) (bs : list branch) : outcome R :=
  st <- branches_loop bs (0, 0) ;;
  Ok (snd st * Theta / 2).

(** ** The diffusivity in the words of the specification *)

(** Largest element of a list of non-negative scalars ([0] when empty). *)
Definition list_max (l : list R) : R := fold_right Rmax 0 l.

(** Maximum absolute velocity on a branch times the maximum size of the
    elements of that same branch. *)
Definition branch_product_spec (b : branch) : R :=
  list_max (map Rabs (Uvi b)) * list_max (sizes b).

(** [Theta/2] times the maximum over all branches. *)
Definition diffusivity_spec (Theta : R) (bs : list branch) : R :=
  Theta / 2 * list_max (map branch_product_spec bs).

(** Two branches: the first has one element of size 2 and velocity 1, the
    second one element of size 1 and velocity 3. *)
Definition two_branches : list branch :=
  [ {| sizes := [2]; Uvi := [1] |}; {| sizes := [1]; Uvi := [3] |} ].

End Diffusivity.

(* ================================================================== *)
(** * VesselComplianceModel: [problemHT::vessel_conductivity_vec] *)

Module Compliance.

Local Open Scope R_scope.

(** The scalars read from the parameter file, and the constant [pi] of the
    library. *)
Record constants : Type := {
  pi : R;
  U_ : R;
  P_ : R;
  d : R;
  Gamma_ : R;
  nu : R
}.

(** [scalar_type e = 2.7182818284;] and [pow] of [<cmath>]. *)
Definition e : R := 2.7182818284.
Definition pow (x y : R) : R := Rpower x y.

(** What is computed for one degree of freedom [j]: the new [R], [area],
    [per] and the conductance [cond[j]]. *)
Record cross_section : Type := {
  radius : R;
  area : R;
  per : R;
  cond : R
}.

Section Regimes.

Variable c : constants.

(** Arteriole: the cross section remains circular. *)
Definition arteriole (Ru hu p_int p_ext Ei curv : R) : cross_section :=
  let deltap := p_ext - p_int in
  let den := (Ru + hu) * (Ru + hu) - Ru * Ru in
  let B1 := (p_int * Ru * Ru - p_ext * (Ru + hu) * (Ru + hu)) / den in
  let B2 := deltap * Ru * Ru * (Ru + hu) * (Ru + hu) / den in
  let R := Ru * (1 + (1 - nu c) / Ei * B1 - (1 + nu c) / Ei * B2 / Ru / Ru) in
  let area := pi c * R * R in
  let per := 2 * pi c * R in
  {| radius := R; area := area; per := per;
     cond := U_ c / P_ c / d c * area * area * 2 * (Gamma_ c + 2)
             / pi c / R / R / R / R * (1 + curv * curv * R * R) |}.

(** Venule that remains circular. *)
Definition venule_circular (Ru hu p_int p_ext Ei curv : R) : cross_section :=
  let deltap := p_ext - p_int in
  let ratio := hu / Ru in
  let Rtmp := Ru * (1 - (1 - nu c * nu c) / ratio / Ei * deltap) in
  let R := Rtmp in
  let area := pi c * R * R in
  let per := 2 * pi c * R in
  {| radius := R; area := area; per := per;
     cond := U_ c / P_ c / d c * area * area * 2 * (Gamma_ c + 2)
             / pi c / R / R / R / R * (1 + curv * curv * R * R) |}.

(** The equivalent pressure of a buckled venule. *)
Definition p_adim_of (Ru hu p_int p_ext Ei : R) : R :=
  let deltap := p_ext - p_int in
  let ratio := hu / Ru in
  deltap * P_ c * 12 * (1 - nu c * nu c) / (Ei * P_ c) / ratio / ratio / ratio.

(** Venule, buckling case, for the equivalent pressure [p_adim]. *)
Definition buckled (Rtmp p_adim : R) : cross_section :=
  let area := 15.95 * pow e (-0.545 * p_adim) * Rtmp * Rtmp in
  let per := 2 * pi c * Rtmp in
  let R := area / per in
  if Rltb p_adim 5 then
    let int_u_star := 69.56 * pow e (-1.74 * p_adim) in
    {| radius := R; area := area; per := per;
       cond := area * area / Rtmp / Rtmp / Rtmp / Rtmp / int_u_star |}
  else
    let p_adim := 5 in
    let int_u_starfake := 69.56 * pow e (-1.74 * p_adim) in
    let area := 15.95 * pow e (-0.545 * p_adim) * Rtmp * Rtmp in
    {| radius := R; area := area; per := per;
       cond := area * area / Rtmp / Rtmp / Rtmp / Rtmp / int_u_starfake |}.

Definition threshold_of (Ru hu Ei : R) : R :=
  let ratio := hu / Ru in
  3 * Ei * ratio * ratio * ratio / 12 / (1 - nu c * nu c).

(** The selection of the regime (the body of [if (1)]; its [else] branch is
    never taken). *)
Definition deformed_section (Ru hu p_int p_ext Ei curv : R) : cross_section :=
  let deltap := p_ext - p_int in
  let ratio := hu / Ru in
  if Rgeb ratio 0.1 then arteriole Ru hu p_int p_ext Ei curv
  else
    let threshold := threshold_of Ru hu Ei in
    if Rleb deltap threshold then venule_circular Ru hu p_int p_ext Ei curv
    else buckled Ru (p_adim_of Ru hu p_int p_ext Ei).

(** ** The update of the parameter store *)

(** The geometric vectors of [param] ([R_], [CSarea_], [CSper_]). *)
Record ParameterStore : Type := {
  R_ : list R;
  CSarea_ : list R;
  CSper_ : list R
}.

(** [param.replace_r(R, j); param.replace_area(area, j);
    param.replace_per(per, j)]. *)
Definition replace_section (s : cross_section) (j : nat) (p : ParameterStore)
  : outcome ParameterStore :=
  r <- update_at (fun _ => radius s) j (R_ p) ;;
  a <- update_at (fun _ => area s) j (CSarea_ p) ;;
  q <- update_at (fun _ => per s) j (CSper_ p) ;;
  Ok {| R_ := r; CSarea_ := a; CSper_ := q |}.

(** What the mesh service and the parameter file give to the loop: the
    Young modulus, whether it is imported per branch, the modulus
    [param.E(mimv, i)] of a branch, and the curvatures [Curv_] kept by
    [param], one vector per branch. *)
Variable E : R.
Variable IMPORT_E : bool.
Variable E_branch : nat -> R.
Variable Curv_ : list (list R).

(** [param.Curv(i, j)], that is [Curv_[i][j]]. *)
Definition Curv (i j : nat) : outcome R :=
  row <- at_index Curv_ i ;;
  at_index row j.

Definition Ei_of (i : nat) : R :=
  if IMPORT_E then E_branch i / P_ c else E / P_ c.

(** The section of a degree of freedom of branch [i], as the loop
    computes it: the two arms that keep the section circular read
    [param.Curv(i, indcv_loc)] for the conductance, the buckling arm does
    not read it. *)
Definition deformed_section_at (Ru hu p_int p_ext Ei : R) (i indcv_loc : nat)
  : outcome cross_section :=
  let deltap := p_ext - p_int in
  let ratio := hu / Ru in
  if Rgeb ratio 0.1 then
    curv <- Curv i indcv_loc ;;
    Ok (arteriole Ru hu p_int p_ext Ei curv)
  else
    let threshold := threshold_of Ru hu Ei in
    if Rleb deltap threshold then
      curv <- Curv i indcv_loc ;;
      Ok (venule_circular Ru hu p_int p_ext Ei curv)
    else Ok (buckled Ru (p_adim_of Ru hu p_int p_ext Ei)).

(** One degree of freedom: [(i, j, indcv_loc)] is the branch, the global
    index and the local index of the visit. *)
Definition visit_dof (Ru hu p_int p_ext : list R)
    (st : ParameterStore * list R) (v : nat * nat * nat)
  : outcome (ParameterStore * list R) :=
  let '(i, j, indcv_loc) := v in
  let '(param, cond_vec) := st in
  pe <- at_index p_ext j ;;
  pi_ <- at_index p_int j ;;
  h <- at_index hu j ;;
  ru <- at_index Ru j ;;
  s <- deformed_section_at ru h pi_ pe (Ei_of i) i indcv_loc ;;
  cond_vec <- update_at (fun _ => cond s) j cond_vec ;;
  param <- replace_section s j param ;;
  Ok (param, cond_vec).

Fixpoint visit_all (Ru hu p_int p_ext : list R) (visits : list (nat * nat * nat))
    (st : ParameterStore * list R) : outcome (ParameterStore * list R) :=
  match visits with
  | [] => Ok st
  | v :: rest =>
      st' <- visit_dof Ru hu p_int p_ext st v ;;
      visit_all Ru hu p_int p_ext rest st'
  end.

(** [vessel_conductivity_vec(mf_coefv, mf_coefvi, cond, Ru, hu, p_int, p_ext)];
    [visits] is the sequence of degrees of freedom the three nested loops
    go through. *)
Definition vessel_conductivity_vec (visits : list (nat * nat * nat))
    (param : ParameterStore) (cond_vec Ru hu p_int p_ext : list R)
  : outcome (ParameterStore * list R) :=
  visit_all Ru hu p_int p_ext visits (param, cond_vec).

End Regimes.

(** Constants for the examples: unit scales, a parabolic velocity profile
    and a wall with Poisson modulus 0. *)
Definition unit_constants : constants :=
  {| pi := PI; U_ := 1; P_ := 1; d := 1; Gamma_ := 2; nu := 0 |}.

End Compliance.

(* ================================================================== *)
(** * The blocks of the branches in a vector of unknowns *)

Module Layout.

Definition msg_sub_vector : string := "sub vector too large"%string.

(** [gmm::sub_vector(v, gmm::sub_interval(first, len))]. *)
Definition sub_vector (v : list R) (first len : nat) : outcome (list R) :=
  if first + len <=? List.length v then Ok (firstn len (skipn first v))
  else Abort msg_sub_vector.

(** The loops over the branches of [assembly_mat], [solve_fixpoint] and
    [export_vtk] keep the offset of the block of branch [i]:
    [if (i>0) shift += mf[i-1].nb_dof();].  [prev] is the size of the block
    of the branch before ([None] for the first branch) and [nb_dof] the
    sizes of the blocks still to visit; the result lists the offsets. *)
Fixpoint shifts_loop (shift : nat) (prev : option nat) (nb_dof : list nat)
  : list nat :=
  match nb_dof with
  | [] => []
  | n :: rest =>
      let shift := match prev with Some p => shift + p | None => shift end in
      shift :: shifts_loop shift (Some n) rest
  end.

Definition branch_shifts (nb_dof : list nat) : list nat :=
  shifts_loop 0 None nb_dof.

(** The same loops, copying the block of each branch out of [v]:
    [gmm::sub_vector(v, gmm::sub_interval(base + shift, mf[i].nb_dof()))]. *)
Fixpoint blocks_loop (v : list R) (base shift : nat) (prev : option nat)
    (nb_dof : list nat) : outcome (list (list R)) :=
  match nb_dof with
  | [] => Ok []
  | n :: rest =>
      let shift := match prev with Some p => shift + p | None => shift end in
      block <- sub_vector v (base + shift) n ;;
      blocks <- blocks_loop v base shift (Some n) rest ;;
      Ok (block :: blocks)
  end.

Definition branch_blocks (v : list R) (base : nat) (nb_dof : list nat)
  : outcome (list (list R)) :=
  blocks_loop v base 0 None nb_dof.

End Layout.

(* ================================================================== *)
(** * CoupledFixedPointSolver: [iteration_solve], [calcolo_Rk] and
      [solve_fixpoint] *)

Module FixedPoint.

Local Open Scope R_scope.

Definition vector : Type := list R.

(** ** Values of a floating-point division *)

(** A division by zero does not stop the program: it yields an infinity or
    a NaN, which then flows into the comparisons. *)
Inductive scalar_value : Type :=
| Finite (x : R)
| PlusInf
| MinusInf
| NaN.

Definition fdiv (x y : R) : scalar_value :=
  if Reqb y 0 then
    if Rgtb x 0 then PlusInf else if Rltb x 0 then MinusInf else NaN
  else Finite (x / y).

(** [v > eps]; every comparison with a NaN is false. *)
Definition fgt (v : scalar_value) (eps : R) : bool :=
  match v with
  | Finite x => Rgtb x eps
  | PlusInf => true
  | MinusInf => false
  | NaN => false
  end.

Definition is_finite (v : scalar_value) : bool :=
  match v with Finite _ => true | _ => false end.

(** ** Vector operations of the linear-algebra library *)

Definition msg_dimensions : string := "dimensions mismatch"%string.

(** [gmm::copy(v, w)] into a vector [w] of size [n]. *)
Definition copy (v : vector) (n : nat) : outcome vector :=
  if (List.length v =? n)%nat then Ok v else Abort msg_dimensions.

(** [gmm::scale(v, a)]. *)
Definition scale (v : vector) (a : R) : vector := map (fun x => x * a) v.

(** [gmm::add(v1, v2)]: [v2 += v1]. *)
Fixpoint add (v1 v2 : vector) : outcome vector :=
  match v1, v2 with
  | [], [] => Ok []
  | x :: v1', y :: v2' => r <- add v1' v2' ;; Ok (y + x :: r)
  | _, _ => Abort msg_dimensions
  end.

(** [gmm::vect_norm2(v)]. *)
Definition vect_norm2 (v : vector) : R :=
  sqrt (fold_left (fun acc x => acc + x * x) v 0).

(** ** The viscosity of a degree of freedom *)

Section Viscosity.

(** The two empirical correlations (defined outside [src/]). *)
Variable viscosity_vivo : R -> R -> R -> R.
Variable viscosity_vitro : R -> R -> R -> R.

(** The value stored in [mui[ind_loc]] and [MU[muu]] by the [switch] on
    [visco_v]; with another value of [visco_v] only a message is written and
    the entry keeps the [0] of [gmm::clear]. *)
Definition local_viscosity (visco_v : Z) (h R_muu dim mu_plasma : R) : R :=
  match visco_v with
  | 0%Z => if Reqb h 0 then mu_plasma
           else viscosity_vivo h (R_muu * dim) mu_plasma
  | 1%Z => if Reqb h 0 then mu_plasma
           else viscosity_vitro h (R_muu * dim) mu_plasma
  | _ => 0
  end.

End Viscosity.

(** ** The residual of the hematocrit: [problemHT::calcolo_Rk] *)

Definition calcolo_Rk (H : nat) (U_N U_O : vector) : outcome scalar_value :=
  Sol_old <- copy U_O H ;;
  Sol_new <- copy U_N H ;;
  let Sol_old := scale Sol_old (-1) in
  Sol_new <- add Sol_old Sol_new ;;
  let R_H := vect_norm2 Sol_new in
  let N_H := vect_norm2 Sol_old in
  Ok (fdiv R_H N_H).

(** ** The solver and one relaxed solve *)

Section Solver.

(** The sparse matrices, [gmm::clean(A, 1E-12)] and the direct solver
    [gmm::SuperLU_solve(A, X, B, cond)] (its result [X]). *)
Variable matrix : Type.
Variable clean : matrix -> matrix.
Variable SuperLU_solve : matrix -> vector -> vector.

(** [descrHT.underH] and [dofHT.H()]. *)
Variable underH : R.
Variable H : nat.

(** [problemHT::iteration_solve(U_O, F_N)]: the vector returned, and the
    matrix [AM_HT] after [gmm::clean].  [U_O] is a parameter passed by
    value: the two [gmm::scale] act on the copy of the callee. *)
Definition iteration_solve (AM_HT : matrix) (U_O F_N : vector)
  : outcome (vector * matrix) :=
  let alfa := underH in
  let AM_HT := clean AM_HT in
  let U_new := SuperLU_solve AM_HT F_N in
  if negb (Reqb alfa 1) then
    let U_new := scale U_new alfa in
    let U_O := scale U_O (1 - alfa) in
    U_new <- add U_O U_new ;;
    let U_O := scale U_O (1 / (1 - alfa)) in
    Ok (U_new, AM_HT)
  else Ok (U_new, AM_HT).

(** The relaxed update in the words of the specification:
    [U_new = alpha * U_solved + (1 - alpha) * U_old], entry by entry. *)
Definition relaxed (alpha : R) (U_solved U_old : vector) : vector :=
  map (fun so => alpha * fst so + (1 - alpha) * snd so) (combine U_solved U_old).

(** ** The outer iteration: [problemHT::solve_fixpoint] *)

(** The descriptors and flags read by the solver.  [descr.Max_it] is kept
    in a [scalar_type]; it holds a whole number. *)
Record settings : Type := {
  epsSol : R;                 (* descr.epsSol *)
  epsCM : R;                  (* descr.epsCM *)
  epsH : R;                   (* descrHT.epsH *)
  max_iteration : Z;          (* descr.Max_it *)
  iteration_save : Z;         (* descr.Save_it *)
  print_res : bool;           (* descr.print_residual *)
  H_start : R;                (* H_START *)
  COMPLIANT_VESSELS : bool;   (* COMPLIANT_VESSELS() *)
  VTK_EXPORT : bool;          (* VTK_EXPORT *)
  tot : nat;                  (* dof.tot() *)
  n_coefv : nat;              (* mf_coefv.nb_dof() *)
  nb_dof_Hi : list nat        (* mf_Hi[i].nb_dof(), one per branch *)
}.

(** What [vessel_conductivity_vec] reads besides its arguments: the scales
    and moduli of the parameter file, the curvatures and the thickness
    kept by [param] ([param.Curv], [param.thick()]), and the degrees of
    freedom [(i, j, indcv_loc)] in the order its three loops visit them. *)
Record wall : Type := {
  scales : Compliance.constants;
  Young : R;
  Young_imported : bool;
  Young_branch : nat -> R;
  curvatures : list (list R);
  thickness : list R;
  dofs : list (nat * nat * nat)
}.

(** What else the loop reads and writes, kept abstract: the matrices and
    the vectors of the fluid problem, the viscosity [MU], [Q_rvar], the
    flow rates and the output files. *)
Variable store : Type.

(** The steps of the loop that are not opened here, each with the lines it
    stands for.  They are calls to the libraries and to functions defined
    outside [src/], with the statements of [solve_fixpoint] that only
    prepare their arguments; [assembly] is [problemHT::assembly].  Every
    one of them may stop the program or run into undefined behaviour. *)
Record environment : Type := {
  (* l.800-811, 899-902: asm_exchange_aux_mat and the file of residuals *)
  exchange_aux : store -> Compliance.ParameterStore -> outcome store;
  (* l.941-963: the blocks of AM cleared, MU resized, p_int and p_ext *)
  pressures : store -> vector -> outcome (store * vector * vector);
  (* l.985-1189: viscosity, coefficients, matrices and right-hand side of
     the fluid problem from the store, [param], [resistance_rvar], [H_old]
     and [U_old]; then [problem3d1d::iteration_solve(U_old, F_new)] *)
  fluid_solve : store -> Compliance.ParameterStore -> vector -> vector ->
                vector -> outcome (store * vector);
  (* l.1202, 915: assembly(), from the store, [param], [UM], [UM_HT] *)
  assembly : store -> Compliance.ParameterStore -> vector -> vector ->
             outcome (matrix * vector);
  (* l.1213-1248: the flow rates; the result carries TFR *)
  flow_rates : store -> Compliance.ParameterStore -> vector ->
               outcome (store * R);
  (* l.1252: problem3d1d::export_vtk() *)
  export_vtk_3d1d : store -> vector -> outcome store;
  (* l.1408-1410: the vtk file of the hematocrit of branch i and its mesh *)
  open_Ht : nat -> store -> outcome store;
  (* l.1411-1412: the block of the branch written to that file *)
  write_Ht : nat -> vector -> store -> outcome store;
  (* l.1415-1418: the vtk file of the viscosity *)
  write_MU : store -> outcome store;
  (* l.1265: problem3d1d::calcolo_Rk *)
  calcolo_Rk_3d1d : vector -> vector -> outcome scalar_value;
  (* l.1269-1277: auxCM *)
  mass_balance : store -> vector -> outcome vector;
  (* l.1324-1332, 1347-1355: the vtk files of the radius and of Q_rvar *)
  export_fields : store -> Compliance.ParameterStore -> outcome store
}.

Variable d : settings.
Variable w : wall.
Variable env : environment.

(** The members and locals the loop reads and writes.  Of what is written
    to [cout] only the message of non-convergence is kept. *)
Record fp_state : Type := mk_fp {
  members : store;
  param : Compliance.ParameterStore;
  r_und : vector;
  resistance_rvar : vector;
  UM : vector;
  U_old : vector;
  UM_HT : vector;
  H_old : vector;
  AM_HT : matrix;
  FM_HT : vector;
  iteration : Z;
  RK : bool;
  resSol : scalar_value;
  resCM : R;
  resH : scalar_value;
  RES_SOL : list scalar_value;
  RES_CM : list scalar_value;
  RES_H : list scalar_value;
  cout : list string
}.

Definition msg_not_converged : string :=
  "The method has NOT reached convergence for minimum residual"%string.

(** [fabs] of a residual. *)
Definition fabs (v : scalar_value) : scalar_value :=
  match v with
  | Finite x => Finite (Rabs x)
  | PlusInf => PlusInf
  | MinusInf => PlusInf
  | NaN => NaN
  end.

(** [std::accumulate(v.begin(), v.end(), 0.0)]. *)
Definition accumulate (v : vector) : R := fold_left Rplus v 0.

(** [RK = resSol>epsSol || fabs(resCM) > epsCM || resH > epsH]. *)
Definition residual_test (rS : scalar_value) (rCM : R) (rH : scalar_value) : bool :=
  fgt rS (epsSol d) || Rgtb (Rabs rCM) (epsCM d) || fgt rH (epsH d).

(** The condition of the [while]. *)
Definition loop_guard (st : fp_state) : bool :=
  RK st && (iteration st <? max_iteration d)%Z.

(** [vessel_conductivity_vec(mf_coefv, mf_coefvi, resistance_rvar, r_und,
    param.thick(), p_int, p_ext)] when the vessels are compliant. *)
Definition deform (st : fp_state) (p_int p_ext : vector)
  : outcome (Compliance.ParameterStore * vector) :=
  if COMPLIANT_VESSELS d then
    Compliance.vessel_conductivity_vec (scales w) (Young w) (Young_imported w)
      (Young_branch w) (curvatures w) (dofs w)
      (param st) (resistance_rvar st) (r_und st) (thickness w) p_int p_ext
  else Ok (param st, resistance_rvar st).

(** The loop of [problemHT::export_vtk] over the branches:
    [if (i>0) start += mf_Hi[i-1].nb_dof(); length = mf_Hi[i].nb_dof();]
    and the file of the block [sub_interval(start, length)] of [UM_HT]. *)
Fixpoint export_Ht (UM_HT : vector) (i start : nat) (prev : option nat)
    (nb_dof : list nat) (m : store) : outcome store :=
  match nb_dof with
  | [] => Ok m
  | n :: rest =>
      let start := match prev with Some p => (start + p)%nat | None => start end in
      m <- open_Ht env i m ;;
      block <- Layout.sub_vector UM_HT start n ;;
      m <- write_Ht env i block m ;;
      export_Ht UM_HT (S i) start (Some n) rest m
  end.

(** [problemHT::export_vtk()]; [last_dof] reads
    [mf_Hi[nb_branches-1].nb_dof()] before the loop. *)
Definition export_vtk (UM_HT : vector) (m : store) : outcome store :=
  if VTK_EXPORT d then
    at_index (nb_dof_Hi d) (List.length (nb_dof_Hi d) - 1) ;;;
    m <- export_Ht UM_HT 0 0 None (nb_dof_Hi d) m ;;
    write_MU env m
  else Ok m.

(** [if (RK && iteration < max_iteration && print_res
        && (iteration % iteration_save) == 0) { ... }]:
    the remainder is taken only when the three tests before it hold, and a
    remainder by zero is undefined. *)
Definition save_solution (st : fp_state) (UM' : vector) (m : store)
  : outcome store :=
  if RK st && (iteration st <? max_iteration d)%Z && print_res d then
    if (iteration_save d =? 0)%Z then Undef
    else if (Z.rem (iteration st) (iteration_save d) =? 0)%Z then
      m <- export_vtk_3d1d env m UM' ;;
      export_vtk (UM_HT st) m
    else Ok m
  else Ok m.

(** The body of the [while]. *)
Definition loop_body (st : fp_state) : outcome fp_state :=
  (* a- deformed geometry *)
  pr <- pressures env (members st) (UM st) ;;
  let '(m, p_int, p_ext) := pr in
  geometry <- deform st p_int p_ext ;;
  let '(param', resistance') := geometry in
  (* b, c, d- viscosity, matrices and solution of the fluid problem *)
  fl <- fluid_solve env m param' resistance' (H_old st) (U_old st) ;;
  let '(m, U_new) := fl in
  UM' <- copy U_new (List.length (UM st)) ;;
  (* e- hematocrit *)
  am <- assembly env m param' UM' (UM_HT st) ;;
  let '(AM, FM) := am in
  sol <- iteration_solve AM (H_old st) FM ;;
  let '(H_new, AM) := sol in
  (* f, g, h- flow rates *)
  fr <- flow_rates env m param' U_new ;;
  let '(m, TFR) := fr in
  m <- save_solution st UM' m ;;
  (* i- residuals *)
  rS <- calcolo_Rk_3d1d env U_new (U_old st) ;;
  rH <- calcolo_Rk H H_new (H_old st) ;;
  auxCM <- mass_balance env m U_new ;;
  let rCM := if negb (Reqb TFR 0) then accumulate auxCM / TFR else 0 in
  let RK' := residual_test rS rCM rH in
  let iteration' := (iteration st + 1)%Z in
  (* l, m- the new iterates become the old ones *)
  U_old' <- copy U_new (List.length (U_old st)) ;;
  H_old' <- copy H_new (List.length (H_old st)) ;;
  UM_HT' <- copy H_old' (List.length (UM_HT st)) ;;
  let k := Z.to_nat (iteration' - 1) in
  RES_SOL' <- update_at (fun _ => fabs rS) k (RES_SOL st) ;;
  RES_CM' <- update_at (fun _ => Finite (Rabs rCM)) k (RES_CM st) ;;
  RES_H' <- update_at (fun _ => fabs rH) k (RES_H st) ;;
  m <- export_fields env m param' ;;
  Ok (mk_fp m param' (r_und st) resistance' UM' U_old' UM_HT' H_old' AM FM
        iteration' RK' rS rCM rH RES_SOL' RES_CM' RES_H' (cout st)).

Fixpoint while (fuel : nat) (st : fp_state) : outcome fp_state :=
  match fuel with
  | O => Ok st
  | S fuel' =>
      if loop_guard st then st' <- loop_body st ;; while fuel' st'
      else Ok st
  end.

(** The state at the entry of the loop (l.735-935): the vectors of
    residuals have [max_iteration] entries (a negative size is undefined),
    [r_und] is the radius of [param], [U_old] is a copy of [UM], the
    hematocrit is seeded with [H_start] and refined by one direct solve. *)
Definition entry_state (members0 : store)
    (param0 : Compliance.ParameterStore) (UM0 : vector) : outcome fp_state :=
  if (max_iteration d <? 0)%Z then Undef
  else
    let RES := repeat (Finite 0) (Z.to_nat (max_iteration d)) in
    let resistance := repeat 0 (n_coefv d) in
    m <- exchange_aux env members0 param0 ;;
    U_old0 <- copy UM0 (tot d) ;;
    let UM_HT0 := scale (repeat 1 H) (H_start d) in
    am <- assembly env m param0 UM0 UM_HT0 ;;
    let '(AM, FM) := am in
    let AM := clean AM in
    let UM_HT1 := SuperLU_solve AM FM in
    H_old0 <- copy UM_HT1 H ;;
    Ok (mk_fp m param0 (Compliance.R_ param0) resistance UM0 U_old0 UM_HT1
          H_old0 AM FM 0%Z true
          (Finite (epsSol d * 100)) (epsCM d * 100) (Finite (epsH d * 100))
          RES RES RES []).

(** After the loop (l.1339-1385): [gmm::copy(U_old, UM)], the message when
    [RK] still holds, the last vtk files, and [return true]. *)
Definition exit_state (st : fp_state) : outcome fp_state :=
  UM' <- copy (U_old st) (List.length (UM st)) ;;
  let cout' := if RK st then cout st ++ [msg_not_converged] else cout st in
  m <- export_fields env (members st) (param st) ;;
  Ok (mk_fp m (param st) (r_und st) (resistance_rvar st) UM' (U_old st)
        (UM_HT st) (H_old st) (AM_HT st) (FM_HT st)
        (iteration st) (RK st) (resSol st) (resCM st) (resH st)
        (RES_SOL st) (RES_CM st) (RES_H st) cout').

Definition solve_fixpoint (members0 : store)
    (param0 : Compliance.ParameterStore) (UM0 : vector)
  : outcome (bool * fp_state) :=
  st <- entry_state members0 param0 UM0 ;;
  st <- while (Z.to_nat (max_iteration d)) st ;;
  st <- exit_state st ;;
  Ok (true, st).

(** [n] turns of the body, one after the other. *)
Fixpoint turns (n : nat) (st : fp_state) : outcome fp_state :=
  match n with
  | O => Ok st
  | S n' => st' <- loop_body st ;; turns n' st'
  end.

End Solver.

End FixedPoint.

(* ================================================================== *)
(** * Small networks *)

Module Networks.

Import Topology.

(** A segment: two points, two faces; face 0 is the second point and face 1
    the first. *)
Definition segment : convex_structure :=
  {| nb_points := 2; nb_faces := 2;
     ind_points_of_face := fun f => match f with 0 => [1] | 1 => [0] | _ => [] end |}.

(** A convex with three points whose faces 0 and 1 are as in a segment. *)
Definition three_points : convex_structure :=
  {| nb_points := 3; nb_faces := 2;
     ind_points_of_face := fun f => match f with 0 => [1] | 1 => [0] | _ => [] end |}.

Definition points_of (l : list (list nat)) (cv : nat) : list nat := nth cv l [].

(** The convexes incident to a point, in increasing order. *)
Definition incident (l : list (list nat)) (i : nat) : list nat :=
  filter (fun cv => existsb (Nat.eqb i) (nth cv l [])) (seq 0 (List.length l)).

(** The mesh whose convexes [0 .. n-1] are segments with the given points. *)
Definition segments (l : list (list nat)) : mesh :=
  {| convex_index := seq 0 (List.length l);
     structure_of_convex := fun _ => segment;
     ind_points_of_convex := points_of l;
     convex_to_point := incident l |}.

(** One region per branch, holding the convexes listed for it. *)
Definition branch_regions (bs : list (list nat)) : region_map :=
  fun id => option_map (map (fun cv => (cv, @None nat))) (nth_error bs id).

Definition boundary (i : nat) : node := new_node "DIR"%string 0%R i 0.

(** The Y network: branch 0 (convex 0, from point 0 to point 1) splits at
    point 1 into branch 1 (convex 1, to point 2) and branch 2 (convex 2, to
    point 3). *)
Definition Y_convexes : list (list nat) := [[0; 1]; [1; 2]; [1; 3]].
Definition Y_mesh : mesh := segments Y_convexes.
Definition Y_regions : region_map := branch_regions [[0]; [1]; [2]].
Definition Y_boundary : list node := [boundary 0; boundary 2; boundary 3].

(** The same Y network with the branches numbered otherwise: the inflow
    branch is branch 2 and the branch of convex 1, which leaves the
    junction, is branch 0. *)
Definition Y_regions_renumbered : region_map := branch_regions [[1]; [2]; [0]].

(** Two branches in a row: convex 0 (branch 0) from point 0 to point 1 and
    convex 1 (branch 1) from point 1 to point 2. *)
Definition series_mesh : mesh := segments [[0; 1]; [1; 2]].
Definition series_regions : region_map := branch_regions [[0]; [1]].
Definition series_boundary : list node := [boundary 0; boundary 2].

(** A single element with three points, both ends on the boundary. *)
Definition malformed_mesh : mesh :=
  {| convex_index := [0];
     structure_of_convex := fun _ => three_points;
     ind_points_of_convex := points_of [[0; 1; 2]];
     convex_to_point := incident [[0; 1; 2]] |}.

(** A single segment that no branch region contains. *)
Definition orphan_mesh : mesh := segments [[0; 1]].
Definition orphan_regions : region_map := branch_regions [[]].

End Networks.

(* ================================================================== *)
(** * Predicates used by the statements *)

Module Properties.

Import Topology.

(** The sum of the radii of the branches listed, one term per entry, added
    in the order of the list starting from [0]. *)
Definition weight_of (R_branch : nat -> R) (bs : list Z) : R :=
  fold_left (fun acc b => (acc + R_branch (Z.abs_nat b))%R) bs 0%R.

Definition junction_weight_ok (R_branch : nat -> R) (n : node) : Prop :=
  value n = weight_of R_branch (branches n).

(** An outcome that is not a normal return. *)
Definition fails {A : Type} (o : outcome A) : Prop :=
  match o with Ok _ => False | _ => True end.

(** The state without its error log, and the mesh whose convexes all
    report two points and two faces. *)
Definition with_cerr (l : list diagnostic) (s : state) : state :=
  mk_state (regions s) (BCv_HT s) (Jv_HT s) (junctions s) (extrema s)
           (nb_extrema s) (nb_junctions s) (fer s) l.

Definition without_cerr (s : state) : state := with_cerr [] s.

Definition outcome_map {A B : Type} (f : A -> B) (o : outcome A) : outcome B :=
  match o with
  | Ok a => Ok (f a)
  | Abort msg => Abort msg
  | Undef => Undef
  end.

Definition two_ended (M : mesh) : mesh :=
  {| convex_index := convex_index M;
     structure_of_convex := fun cv =>
       {| nb_points := 2; nb_faces := 2;
          ind_points_of_face := ind_points_of_face (structure_of_convex M cv) |};
     ind_points_of_convex := ind_points_of_convex M;
     convex_to_point := convex_to_point M |}.

(** States whose branch regions hold the same convexes. *)
Definition same_branches (s s' : state) : Prop :=
  forall b c : nat, is_in (regions s') b c = is_in (regions s) b c.

End Properties.

(* ================================================================== *)
(** * Invariants of the topology builder *)

Module Invariants.

Import Topology.

(** The junction records follow the set of junction vertices: one record
    per vertex, in the order the vertices were met, and [nb_junctions]
    counts them. *)
Definition junction_bookkeeping (s : state) : Prop :=
  map idx (Jv_HT s) = junctions s /\
  nb_junctions s = List.length (Jv_HT s) /\
  NoDup (junctions s).

(** Every region index handed out so far went to one record: the first
    empty region is [nb_branches] plus the number of extrema, of junctions
    and of mixed points appended to the [n0] boundary nodes given. *)
Definition region_accounting (nb_branches n0 : nat) (s : state) : Prop :=
  (n0 <= List.length (BCv_HT s))%nat /\
  fer s = (nb_branches + nb_extrema s + nb_junctions s
           + (List.length (BCv_HT s) - n0))%nat /\
  Forall (fun r => (nb_branches <= r < fer s)%nat) (map rg (Jv_HT s)) /\
  StronglySorted lt (map rg (Jv_HT s)).

(** A junction record with at least one branch. *)
Definition has_branch (j : node) : Prop := branches j <> [].

(** What the builder must not change in a boundary node given to it. *)
Definition same_vertex (n m : node) : Prop :=
  label m = label n /\ idx m = idx n /\ value m = value n.

(** The boundary nodes [bcs] given to the builder are still there, at the
    same positions, with the same label, vertex and value. *)
Definition boundary_kept (bcs : list node) (s : state) : Prop :=
  forall (k : nat) (n : node),
    nth_error bcs k = Some n ->
    exists m : node, nth_error (BCv_HT s) k = Some m /\ same_vertex n m.

(** The messages of the assertions that can stop the builder. *)
Definition assertion_messages : list string :=
  [msg_overload; msg_minus_zero; msg_firstbranch; msg_secondbranch].

(** An outcome that, when it is an abort, carries one of the messages. *)
Definition aborts_within {A : Type} (l : list string) (o : outcome A) : Prop :=
  match o with
  | Abort msg => In msg l
  | _ => True
  end.

(** The diagnostics a mesh deserves. *)
Definition deserved (M : mesh) (d : diagnostic) : Prop :=
  match d with
  | MoreThanTwoVertices cv =>
      In cv (convex_index M) /\ (2 < nb_points (structure_of_convex M cv))%nat
  | MoreThanTwoFaces cv =>
      In cv (convex_index M) /\ (2 < nb_faces (structure_of_convex M cv))%nat
  end.

End Invariants.

(* ================================================================== *)
(** * The diffusivity the loop computes, as a maximum *)

Module RunningMaximum.

Import Diffusivity.
Local Open Scope R_scope.

(** The products of the loop over the branches: the maximum absolute
    velocity of a branch times the largest size met up to and including
    that branch, [m] being the largest size met before. *)
Fixpoint running_products (m : R) (bs : list branch) : list R :=
  match bs with
  | [] => []
  | b :: bs' =>
      let m' := Rmax m (list_max (sizes b)) in
      list_max (map Rabs (Uvi b)) * m' :: running_products m' bs'
  end.

(** Every branch has at least one velocity. *)
Definition has_velocities (bs : list branch) : Prop :=
  Forall (fun b => Uvi b <> []) bs.

(** The largest sizes of the branches do not decrease along the list,
    starting from [m]. *)
Fixpoint sizes_nondecreasing (m : R) (bs : list branch) : Prop :=
  match bs with
  | [] => True
  | b :: bs' =>
      m <= list_max (sizes b) /\ sizes_nondecreasing (list_max (sizes b)) bs'
  end.

End RunningMaximum.

(* ================================================================== *)
(** * What the loop of [vessel_conductivity_vec] leaves behind *)

Module ComplianceLoop.

Import Compliance.
Local Open Scope R_scope.

(** The global index [j] of a visit [(i, j, indcv_loc)]. *)
Definition dof_of (v : nat * nat * nat) : nat := snd (fst v).

(** The last visit of the degree of freedom [k] in a sequence of visits. *)
Fixpoint last_visit (visits : list (nat * nat * nat)) (k : nat)
  : option (nat * nat * nat) :=
  match visits with
  | [] => None
  | v :: rest =>
      match last_visit rest k with
      | Some w => Some w
      | None => if (dof_of v =? k)%nat then Some v else None
      end
  end.

(** [j] is an index of every vector of the list. *)
Definition within (vectors : list (list R)) (j : nat) : Prop :=
  Forall (fun v => (j < List.length v)%nat) vectors.

Section Sections.

Variable c : constants.
Variable E : R.
Variable IMPORT_E : bool.
Variable E_branch : nat -> R.
Variable Curv_ : list (list R).

(** The entry [Curv_[i][indcv_loc]] where it exists. *)
Definition curvature_of (i indcv_loc : nat) : R :=
  nth indcv_loc (nth i Curv_ []) 0.

(** The cross section that a visit computes from the entries [j] of the
    vectors it is given. *)
Definition section_of (Ru hu p_int p_ext : list R) (v : nat * nat * nat)
  : cross_section :=
  let '(i, j, indcv_loc) := v in
  deformed_section c (nth j Ru 0) (nth j hu 0) (nth j p_int 0) (nth j p_ext 0)
    (Ei_of c E IMPORT_E E_branch i) (curvature_of i indcv_loc).

(** The entry [k] of a vector after the loop: what the last visit of [k]
    wrote, or the entry it had. *)
Definition entry_after (Ru hu p_int p_ext : list R)
    (visits : list (nat * nat * nat)) (field : cross_section -> R)
    (before : list R) (k : nat) : option R :=
  match last_visit visits k with
  | Some v => Some (field (section_of Ru hu p_int p_ext v))
  | None => nth_error before k
  end.

(** A vector [after] the loop, against the vector [before] it: the same
    size, and each entry as [entry_after] says. *)
Definition left_by (Ru hu p_int p_ext : list R)
    (visits : list (nat * nat * nat)) (field : cross_section -> R)
    (before after : list R) : Prop :=
  List.length after = List.length before /\
  forall k : nat,
    nth_error after k = entry_after Ru hu p_int p_ext visits field before k.

(** The visit keeps the section circular (arteriole, or venule below the
    threshold of buckling): these are the visits that read the curvature. *)
Definition stays_circular (Ru hu p_int p_ext : list R) (v : nat * nat * nat)
  : bool :=
  let '(i, j, _) := v in
  Rgeb (nth j hu 0 / nth j Ru 0) 0.1
  || Rleb (nth j p_ext 0 - nth j p_int 0)
          (threshold_of c (nth j Ru 0) (nth j hu 0)
             (Ei_of c E IMPORT_E E_branch i)).

(** [Curv_] has an entry for the visit. *)
Definition has_curvature (v : nat * nat * nat) : Prop :=
  let '(i, _, indcv_loc) := v in
  exists row : list R,
    nth_error Curv_ i = Some row /\ (indcv_loc < List.length row)%nat.

(** A visit finds its index in the four vectors that are read and the four
    that are written, and, when it keeps the section circular, its entry
    in [Curv_]. *)
Definition visit_fits (param : ParameterStore)
    (cond_vec Ru hu p_int p_ext : list R) (v : nat * nat * nat) : Prop :=
  within [R_ param; CSarea_ param; CSper_ param; cond_vec;
          Ru; hu; p_int; p_ext] (dof_of v) /\
  (stays_circular Ru hu p_int p_ext v = true -> has_curvature v).

Definition visits_fit (visits : list (nat * nat * nat))
    (param : ParameterStore) (cond_vec Ru hu p_int p_ext : list R) : Prop :=
  Forall (visit_fits param cond_vec Ru hu p_int p_ext) visits.

End Sections.

End ComplianceLoop.

(* ================================================================== *)
(** * The vessel parameters: blocks of [param3d1d::build] and the
      coefficients that [solve_fixpoint] derives from them *)

Module Parameters.

Import Compliance.
Local Open Scope R_scope.

Definition msg_import_radius : string :=
  "try to import non constant (dimensionless) radius:please insert dimensional parameters"%string.

(** [gmm::resize(v, n)] on a [std::vector]. *)
Definition resize (v : list R) (n : nat) : list R :=
  firstn n v ++ repeat 0 (n - List.length v).

(** The geometry of the vessels kept by [param3d1d]: [R_], [CSarea_],
    [CSper_] and the wall thickness [thick_]. *)
Record vessel_geometry : Type := {
  store : ParameterStore;
  thick_ : list R
}.

(** A [param3d1d] on which [build] has not run. *)
Definition fresh_geometry : vessel_geometry :=
  {| store := {| R_ := []; CSarea_ := []; CSper_ := [] |}; thick_ := [] |}.

(** [for (i = 0; i < R_.size(); i++) thick_[i] = R_[i] * 0.2;] *)
Fixpoint thick_loop (radii : list R) (indices : list nat) (thick : list R)
  : outcome (list R) :=
  match indices with
  | [] => Ok thick
  | i :: rest =>
      r <- at_index radii i ;;
      thick <- update_at (fun _ => r * 0.2) i thick ;;
      thick_loop radii rest thick
  end.

(** [for (i = 0; i < dof_datav; i++)
       { CSarea_[i] = pi * R_[i] * R_[i]; CSper_[i] = 2 * pi * R_[i]; }] *)
Fixpoint section_loop (pi : R) (radii : list R) (indices : list nat)
    (CSarea CSper : list R) : outcome (list R * list R) :=
  match indices with
  | [] => Ok (CSarea, CSper)
  | i :: rest =>
      r <- at_index radii i ;;
      CSarea <- update_at (fun _ => pi * r * r) i CSarea ;;
      r <- at_index radii i ;;
      CSper <- update_at (fun _ => 2 * pi * r) i CSper ;;
      section_loop pi radii rest CSarea CSper
  end.

(** The radius block of [build].  [import_R] and [import_thick] are what
    [import_network_radius] (defined outside [src/]) leaves in [R_] and in
    [thick_]; [thickfile_readable] is the state of the stream of the
    thickness file.  The messages written are left out. *)
Definition radius_block (pi : R) (IMPORT_RADIUS NONDIM_PARAM : bool)
    (RADIUS d : R) (dof_datav : nat)
    (import_R : outcome (list R)) (thickfile_readable : bool)
    (import_thick : outcome (list R)) (g : vessel_geometry)
  : outcome vessel_geometry :=
  (if IMPORT_RADIUS then GMM_ASSERT1 (negb NONDIM_PARAM) msg_import_radius
   else Ok tt) ;;;
  if negb IMPORT_RADIUS then
    let Rav_ := if NONDIM_PARAM then RADIUS else RADIUS / d in
    Ok {| store := {| R_ := repeat Rav_ dof_datav;
                      CSarea_ := CSarea_ (store g);
                      CSper_ := CSper_ (store g) |};
          thick_ := thick_ g |}
  else
    radii <- import_R ;;
    thick <- (if negb thickfile_readable
              then thick_loop radii (seq 0 (List.length radii))
                     (resize (thick_ g) dof_datav)
              else import_thick) ;;
    let CSper := resize (CSper_ (store g)) dof_datav in
    let CSarea := resize (CSarea_ (store g)) dof_datav in
    ap <- section_loop pi radii (seq 0 dof_datav) CSarea CSper ;;
    Ok {| store := {| R_ := radii; CSarea_ := fst ap; CSper_ := snd ap |};
          thick_ := thick |}.

(** The entries that [build] appends to [kv_] and [Q_] for a radius [r]. *)
Definition kv_entry (c : constants) (mu_v r : R) : R :=
  pi c / 2 / (Gamma_ c + 2) / mu_v * P_ c * d c / U_ c * r * r * r * r.

Definition Q_entry (c : constants) (Lp r : R) : R :=
  2 * pi c * Lp * P_ c / U_ c * r.




(** The coefficients of a degree of freedom in the loop of
    [solve_fixpoint]: [ciM[indcv_loc]] and [Q_rvar[j]]. *)
Definition ciM_entry (COMPLIANT_VESSELS : bool)
    (resistance_j CSarea_j kvi curv R_j mu_start mui : R) : R :=
  if COMPLIANT_VESSELS then resistance_j * mui
  else CSarea_j * CSarea_j / kvi * (1 + curv * curv * R_j * R_j)
       / mu_start * mui.

Definition Q_rvar_entry (c : constants) (CSper_j Lpi : R) : R :=
  CSper_j * Lpi * P_ c / U_ c.

End Parameters.

(* ================================================================== *)
(** * When the steps of the fixed-point loop return *)

Module LoopConditions.

Import Compliance ComplianceLoop FixedPoint.

Section Conditions.

Variable matrix : Type.
Variable store : Type.
Variable SuperLU_solve : matrix -> vector -> vector.
Variable H : nat.
Variable d : settings.
Variable w : wall.
Variable env : environment matrix store.

(** The inputs of [vessel_conductivity_vec] have one entry per degree of
    freedom of [mf_coefv], and every visit has its entry in [Curv_]. *)
Definition wall_fits : Prop :=
  List.length (thickness w) = n_coefv d /\
  Forall (fun v => (dof_of v < n_coefv d)%nat /\ has_curvature (curvatures w) v)
         (dofs w).

(** The files of [problemHT::export_vtk] can be written: there is a
    branch, the blocks of the branches lie in the hematocrit vector, and
    the writers return. *)
Definition export_fits : Prop :=
  nb_dof_Hi d <> [] /\
  (list_sum (nb_dof_Hi d) <= H)%nat /\
  (forall (i : nat) (m : store), exists m', open_Ht env i m = Ok m') /\
  (forall (i : nat) (b : vector) (m : store),
     exists m', write_Ht env i b m = Ok m') /\
  (forall m : store, exists m', write_MU env m = Ok m').

(** The steps that the loop takes from outside return, with vectors of
    the sizes that the finite elements give them. *)
Record well_posed : Prop := {
  solve_size :
    forall (A : matrix) (F : vector), List.length (SuperLU_solve A F) = H;
  exchange_returns :
    forall (m : store) (p : ParameterStore),
      exists m', exchange_aux env m p = Ok m';
  pressures_return :
    forall (m : store) (u : vector),
      exists m' p_int p_ext,
        pressures env m u = Ok (m', p_int, p_ext) /\
        List.length p_int = n_coefv d /\ List.length p_ext = n_coefv d;
  wall_ready : COMPLIANT_VESSELS d = true -> wall_fits;
  fluid_returns :
    forall (m : store) (p : ParameterStore) (r h u : vector),
      List.length u = tot d ->
      exists m' U_new,
        fluid_solve env m p r h u = Ok (m', U_new) /\
        List.length U_new = tot d;
  assembly_returns :
    forall (m : store) (p : ParameterStore) (u h : vector),
      exists AM FM, assembly env m p u h = Ok (AM, FM);
  flow_rates_return :
    forall (m : store) (p : ParameterStore) (u : vector),
      exists m' TFR, flow_rates env m p u = Ok (m', TFR);
  saving_ready :
    print_res d = true ->
    iteration_save d <> 0%Z /\
    (forall (m : store) (u : vector), exists m', export_vtk_3d1d env m u = Ok m') /\
    (VTK_EXPORT d = true -> export_fits);
  residual_returns :
    forall u v : vector, exists r, calcolo_Rk_3d1d env u v = Ok r;
  balance_returns :
    forall (m : store) (u : vector), exists a, mass_balance env m u = Ok a;
  fields_return :
    forall (m : store) (p : ParameterStore),
      exists m', export_fields env m p = Ok m'
}.

(** The geometry kept by [param] and the vector of conductances have one
    entry per degree of freedom of [mf_coefv]. *)
Definition geometry_sized (p : ParameterStore) (r_und resistance : vector)
  : Prop :=
  List.length (R_ p) = n_coefv d /\
  List.length (CSarea_ p) = n_coefv d /\
  List.length (CSper_ p) = n_coefv d /\
  List.length r_und = n_coefv d /\
  List.length resistance = n_coefv d.

(** The sizes that a turn of the loop keeps. *)
Definition sized (st : fp_state matrix store) : Prop :=
  List.length (UM st) = tot d /\
  List.length (U_old st) = tot d /\
  List.length (UM_HT st) = H /\
  List.length (H_old st) = H /\
  (0 <= iteration st)%Z /\
  List.length (RES_SOL st) = Z.to_nat (max_iteration d) /\
  List.length (RES_CM st) = Z.to_nat (max_iteration d) /\
  List.length (RES_H st) = Z.to_nat (max_iteration d) /\
  (COMPLIANT_VESSELS d = true ->
   geometry_sized (param st) (r_und st) (resistance_rvar st)).

End Conditions.

End LoopConditions.

(* ================================================================== *)
(** * A small problem for the examples of the fixed-point loop *)

Module SmallProblem.

Import FixedPoint.
Local Open Scope R_scope.

(** One unknown of the fluid problem, which each turn moves half the way
    to [2]; a hematocrit of one entry, solution of the system [1 * h = 1];
    one compliant vessel with one degree of freedom; every turn is saved,
    and the store counts the files written. *)
Definition settings_of (Max_it : Z) : settings :=
  {| epsSol := 0.3; epsCM := 0.1; epsH := 0.1;
     max_iteration := Max_it; iteration_save := 1; print_res := true;
     H_start := 1; COMPLIANT_VESSELS := true; VTK_EXPORT := true;
     tot := 1; n_coefv := 1; nb_dof_Hi := [1%nat] |}.

Definition vessel_wall : wall :=
  {| scales := Compliance.unit_constants;
     Young := 1; Young_imported := false; Young_branch := fun _ => 1;
     curvatures := [[0]]; thickness := [10];
     dofs := [(0%nat, 0%nat, 0%nat)] |}.

(** A system of one equation [a * x = f]. *)
Definition solver (a : R) (F : vector) : vector := [nth 0 F 0 / a].

Definition steps : environment R nat :=
  {| exchange_aux := fun m _ => Ok m;
     pressures := fun m _ => Ok (m, [0], [0]);
     fluid_solve := fun m _ _ _ u => Ok (m, map (fun x => (x + 2) / 2) u);
     assembly := fun _ _ _ _ => Ok (1, [1]);
     flow_rates := fun m _ _ => Ok (m, 1);
     export_vtk_3d1d := fun m _ => Ok (S m);
     open_Ht := fun _ m => Ok m;
     write_Ht := fun _ _ m => Ok (S m);
     write_MU := fun m => Ok (S m);
     calcolo_Rk_3d1d :=
       fun U_N U_O => Ok (Finite (Rabs (nth 0 U_N 0 - nth 0 U_O 0)));
     mass_balance := fun _ _ => Ok [0];
     export_fields := fun m _ => Ok (S m) |}.

Definition geometry : Compliance.ParameterStore :=
  {| Compliance.R_ := [50]; Compliance.CSarea_ := [0];
     Compliance.CSper_ := [0] |}.

(** A state at the head of the loop, for a maximum of five turns. *)
Definition start : fp_state R nat :=
  mk_fp 0%nat geometry [50] [0] [1] [1] [1] [1] 1 [1] 0%Z true
    (Finite 30) 10 (Finite 10)
    (repeat (Finite 0) 5) (repeat (Finite 0) 5) (repeat (Finite 0) 5) [].

Definition turn (Max_it : Z) (st : fp_state R nat) : outcome (fp_state R nat) :=
  loop_body (fun a => a) solver (1 / 2) 1 (settings_of Max_it) vessel_wall
    steps st.

Definition solve (Max_it : Z) : outcome (bool * fp_state R nat) :=
  solve_fixpoint (fun a => a) solver (1 / 2) 1 (settings_of Max_it)
    vessel_wall steps 0%nat geometry [1].

End SmallProblem.

(* ================================================================== *)
(** * Facts about outcomes, vectors and searches *)

Lemma bind_Ok {A B : Type} (m : outcome A) (k : A -> outcome B) (b : B) :
  bind m k = Ok b -> exists a, m = Ok a /\ k a = Ok b.
Proof.
  destruct m as [a| |]; simpl; intros E; try discriminate.
  exists a; split; [reflexivity | exact E].
Qed.

Lemma assert_Ok (t : bool) (msg : string) (u : unit) :
  GMM_ASSERT1 t msg = Ok u -> t = true.
Proof. destruct t; simpl; [reflexivity | discriminate]. Qed.

(** Breaks the hypotheses [bind m k = Ok b] into their parts. *)
Ltac split_binds :=
  repeat match goal with
  | H : bind _ _ = Ok _ |- _ =>
      let a := fresh "a" in
      let Ha := fresh "Ha" in
      apply bind_Ok in H; destruct H as [a [Ha H]]
  | H : Ok _ = Ok _ |- _ => inversion H; subst; clear H
  | H : Abort _ = Ok _ |- _ => discriminate H
  | H : Undef = Ok _ |- _ => discriminate H
  end.

Lemma update_at_length {A : Type} (f : A -> A) :
  forall (v : list A) (i : nat) (v' : list A),
    update_at f i v = Ok v' -> List.length v' = List.length v.
Proof.
  induction v as [|a v IH]; intros i v' E; simpl in E; [discriminate|].
  destruct i as [|i].
  - inversion E; reflexivity.
  - apply bind_Ok in E. destruct E as [w [Ew E]]. inversion E; subst.
    simpl. f_equal. eapply IH; eassumption.
Qed.

(** Two updates of the same entry are one update by the composition. *)
Lemma update_at_twice {A : Type} (f g : A -> A) :
  forall (v : list A) (i : nat) (v1 v2 : list A),
    update_at g i v = Ok v1 -> update_at f i v1 = Ok v2 ->
    update_at (fun a => f (g a)) i v = Ok v2.
Proof.
  induction v as [|a v IH]; intros i v1 v2 E1 E2; simpl in E1; [discriminate|].
  destruct i as [|i].
  - inversion E1; subst. simpl in E2. exact E2.
  - apply bind_Ok in E1. destruct E1 as [w [Ew E1]]. inversion E1; subst.
    simpl in E2. apply bind_Ok in E2. destruct E2 as [w2 [Ew2 E2]].
    inversion E2; subst. simpl. rewrite (IH _ _ _ Ew Ew2). reflexivity.
Qed.

Lemma update_at_Forall {A : Type} (P : A -> Prop) (f : A -> A) :
  (forall a, P a -> P (f a)) ->
  forall (v : list A) (i : nat) (v' : list A),
    update_at f i v = Ok v' -> Forall P v -> Forall P v'.
Proof.
  intros Hf. induction v as [|a v IH]; intros i v' E HP; simpl in E; [discriminate|].
  inversion HP; subst. destruct i as [|i].
  - inversion E; subst. constructor; auto.
  - apply bind_Ok in E. destruct E as [w [Ew E]]. inversion E; subst.
    constructor; [assumption | eapply IH; eassumption].
Qed.

Lemma update_at_last {A : Type} (f : A -> A) (a : A) :
  forall v : list A, update_at f (List.length v) (v ++ [a]) = Ok (v ++ [f a]).
Proof.
  induction v as [|b v IH]; simpl; [reflexivity|]. rewrite IH. reflexivity.
Qed.

Lemma update_back_last {A : Type} (f : A -> A) (a : A) (v : list A) :
  update_back f (v ++ [a]) = Ok (v ++ [f a]).
Proof.
  unfold update_back. rewrite length_app. simpl.
  replace (Nat.pred (List.length v + 1)) with (List.length v) by lia.
  apply update_at_last.
Qed.

(** A search returns an index in the range it was given. *)
Lemma search_bound (p : nat -> bool) :
  forall n k, (k <= fst (search p n k) <= k + n)%nat.
Proof.
  induction n as [|n IH]; intros k; simpl; [lia|].
  destruct (p k); simpl; [lia|]. specialize (IH (S k)). lia.
Qed.

(** A search that starts on an index satisfying the test stops there. *)
Lemma search_first (p : nat -> bool) (n k : nat) :
  p k = true -> search p (S n) k = (k, true).
Proof. intros Hp. simpl. rewrite Hp. reflexivity. Qed.

Lemma search_ext (p q : nat -> bool) :
  (forall k, p k = q k) -> forall n k, search p n k = search q n k.
Proof.
  intros E. induction n as [|n IH]; intros k; simpl; [reflexivity|].
  rewrite E, IH. reflexivity.
Qed.

(* ================================================================== *)
(** * The topology builder: junction weights *)

Section JunctionWeights.

Import Topology Properties.

Variable M : mesh.
Variable nb_branches : nat.
Variable R_branch : nat -> R.

Let ok := junction_weight_ok R_branch.

Lemma weight_of_app (bs : list Z) (b : Z) :
  weight_of R_branch (bs ++ [b])
  = (weight_of R_branch bs + R_branch (Z.abs_nat b))%R.
Proof. unfold weight_of. rewrite fold_left_app. reflexivity. Qed.

Lemma ok_new_node (l : string) (i r : nat) : ok (new_node l 0 i r).
Proof. reflexivity. Qed.

(** Adding the radius and then the entry keeps the weight right. *)
Lemma ok_add_then_push (b : Z) (n : node) :
  ok n -> ok (push_branch b (add_value (R_branch (Z.abs_nat b)) n)).
Proof.
  unfold ok, junction_weight_ok. intros Hn. simpl.
  rewrite weight_of_app, Hn. reflexivity.
Qed.

(** And so does adding the entry and then the radius. *)
Lemma ok_push_then_add (b : Z) (n : node) :
  ok n -> ok (add_value (R_branch (Z.abs_nat b)) (push_branch b n)).
Proof.
  unfold ok, junction_weight_ok. intros Hn. simpl.
  rewrite weight_of_app, Hn. reflexivity.
Qed.

Lemma new_face_region_Ok (cv f : nat) (s s' : state) :
  new_face_region cv f s = Ok s' ->
  s' = set_regions (region_add (regions s) (fer s) cv f) s.
Proof.
  unfold new_face_region. intros E. split_binds. reflexivity.
Qed.

Lemma first_endpoint_weights (cv i0 : nat) (s s' : state) :
  Forall ok (Jv_HT s) ->
  first_endpoint M nb_branches R_branch cv i0 s = Ok s' ->
  Forall ok (Jv_HT s').
Proof.
  intros Hs E. unfold first_endpoint in E.
  destruct (List.length (convex_to_point M i0) =? 1).
  - (* extremum: the junctions are not touched *)
    split_binds. apply new_face_region_Ok in Ha. subst a.
    simpl in E.
    destruct (find_node _ _ _) as [bc found]. split_binds.
    simpl in E.
    destruct (find_branch _ _ _) as [branch contained]. split_binds.
    simpl. exact Hs.
  - destruct (List.length (convex_to_point M i0) =? 2).
    { inversion E; subst; exact Hs. }
    destruct (2 <=? List.length (convex_to_point M i0)).
    2:{ inversion E; subst; exact Hs. }
    split_binds.
    assert (Ha' : Forall ok (Jv_HT a)).
    { destruct (negb (existsb (Nat.eqb i0) (junctions s))).
      - split_binds. apply new_face_region_Ok in Ha0. subst a0. simpl.
        apply Forall_app; split; [exact Hs|].
        constructor; [apply ok_new_node | constructor].
      - inversion Ha; subst; exact Hs. }
    destruct (find_branch _ a cv) as [branch contained]. split_binds.
    destruct (find_node _ _ _) as [jj found]. split_binds.
    simpl.
    pose proof (update_at_twice _ _ _ _ Ha1 Ha2) as U.
    eapply update_at_Forall; [| exact U | exact Ha'].
    intros n Hn.
    replace (R_branch branch) with (R_branch (Z.abs_nat (- Z.of_nat branch)))
      by (f_equal; lia).
    apply ok_add_then_push; exact Hn.
Qed.

Lemma orientation_values (c i : nat) (o : Z) :
  orientation M c i = Ok o -> (o = -1 \/ o = 1 \/ o = 0)%Z.
Proof.
  unfold orientation. intros E. split_binds.
  destruct (a =? i); [inversion E; auto|].
  split_binds. destruct (a0 =? i); inversion E; auto.
Qed.

Lemma abs_oriented (o : Z) (b : nat) :
  (o = -1 \/ o = 1 \/ o = 0)%Z -> (o =? 0)%Z = false ->
  Z.abs_nat (o * Z.of_nat b) = b.
Proof.
  intros [-> | [-> | ->]] Hz; try discriminate; lia.
Qed.

Lemma second_endpoint_weights (cv i1 : nat) (s s' : state) :
  Forall ok (Jv_HT s) ->
  second_endpoint M nb_branches R_branch cv i1 s = Ok s' ->
  Forall ok (Jv_HT s').
Proof.
  intros Hs E. unfold second_endpoint in E.
  destruct (List.length (convex_to_point M i1) =? 1).
  - (* extremum or mixed point: the junctions are not touched *)
    destruct (find_node _ _ _) as [bc [|]].
    + split_binds. apply new_face_region_Ok in Ha. subst a. simpl in E.
      destruct (find_branch _ _ _) as [branch contained]. split_binds.
      simpl. exact Hs.
    + split_binds. apply new_face_region_Ok in Ha. subst a. simpl in E.
      destruct (find_branch _ _ _) as [branch contained]. split_binds.
      simpl. exact Hs.
  - destruct (List.length (convex_to_point M i1) =? 2).
    + (* trivial junction *)
      destruct (find_branch _ s cv) as [firstbranch contained]. split_binds.
      destruct (negb _ || negb _); [|inversion E; subst; exact Hs].
      destruct (negb (existsb (Nat.eqb i1) (junctions s)));
        [|inversion E; subst; exact Hs].
      split_binds.
      match goal with
      | H : new_face_region _ _ _ = Ok _ |- _ =>
          apply new_face_region_Ok in H; subst
      end.
      simpl in E.
      destruct (search _ _ _) as [secondbranch contained2]. split_binds.
      repeat match goal with
      | H : update_back _ (_ ++ [_]) = Ok _ |- _ =>
          rewrite update_back_last in H; inversion H; subst; clear H
      end.
      simpl.
      apply Forall_app; split; [exact Hs|].
      constructor; [|constructor].
      unfold ok, junction_weight_ok, weight_of. simpl.
      repeat match goal with
      | H : orientation _ _ _ = Ok ?o, A : GMM_ASSERT1 (negb (?o =? 0)%Z) _ = Ok _ |- _ =>
          apply orientation_values in H;
          apply assert_Ok in A; apply negb_true_iff in A;
          rewrite (abs_oriented _ H A); clear H A
      end.
      reflexivity.
    + destruct (2 <=? List.length (convex_to_point M i1));
        [|inversion E; subst; exact Hs].
      (* non-trivial junction *)
      destruct (find_branch _ s cv) as [branch contained]. split_binds.
      assert (Hb : R_branch branch = R_branch (Z.abs_nat (Z.of_nat branch)))
        by (f_equal; lia).
      destruct (negb (existsb (Nat.eqb i1) (junctions s))).
      * split_binds. apply new_face_region_Ok in Ha0. subst a0. simpl in *.
        rewrite update_back_last in Ha1. inversion Ha1; subst a1; clear Ha1.
        rewrite update_back_last in Ha2. inversion Ha2; subst; clear Ha2.
        apply Forall_app; split; [exact Hs|].
        constructor; [|constructor].
        rewrite Hb. apply ok_push_then_add. apply ok_new_node.
      * destruct (find_node _ _ _) as [jj found]. split_binds. simpl.
        pose proof (update_at_twice _ _ _ _ Ha0 Ha1) as U.
        eapply update_at_Forall; [| exact U | exact Hs].
        intros n Hn. rewrite Hb. apply ok_push_then_add; exact Hn.
Qed.

Lemma check_structure_Jv (cv : nat) (s : state) :
  Jv_HT (check_structure M cv s) = Jv_HT s.
Proof.
  unfold check_structure.
  destruct (2 <? nb_points _); destruct (2 <? nb_faces _); reflexivity.
Qed.

Lemma step_weights (cv : nat) (s s' : state) :
  Forall ok (Jv_HT s) ->
  step M nb_branches R_branch s cv = Ok s' ->
  Forall ok (Jv_HT s').
Proof.
  intros Hs E. unfold step in E. split_binds.
  eapply second_endpoint_weights; [|exact E].
  eapply first_endpoint_weights; [|exact Ha1].
  rewrite check_structure_Jv. exact Hs.
Qed.

Lemma convexes_loop_weights (cvs : list nat) :
  forall s s' : state,
    Forall ok (Jv_HT s) ->
    convexes_loop M nb_branches R_branch cvs s = Ok s' ->
    Forall ok (Jv_HT s').
Proof.
  induction cvs as [|cv cvs IH]; intros s s' Hs E; simpl in E.
  - inversion E; subst; exact Hs.
  - split_binds. eapply IH; [|exact E]. eapply step_weights; eassumption.
Qed.

End JunctionWeights.

Section JunctionWeightClaim.

Import Topology Properties Networks.

(** The outcome of the builder on the Y network, for any radii. *)
Lemma Y_network_built (r : nat -> R) :
  exists s : state,
    build_vessel_boundary Y_mesh 3 r Y_regions Y_boundary = Ok s /\
    Jv_HT s =
      [ {| label := "JUN"; value := (0 + r 0%nat + r 1%nat + r 2%nat)%R;
           idx := 1; rg := 4; branches := [0; -1; -2]%Z |} ].
Proof.
  eexists. split.
  - cbv -[Rplus Rmult IZR]. reflexivity.
  - reflexivity.
Qed.

(** Two branches in a row meet at a trivial junction, which gets both. *)
Lemma series_network_built (r : nat -> R) :
  exists s : state,
    build_vessel_boundary series_mesh 2 r series_regions series_boundary = Ok s /\
    Jv_HT s =
      [ {| label := "JUN"; value := (0 + r 0%nat + r 1%nat)%R;
           idx := 1; rg := 3; branches := [0; -1]%Z |} ].
Proof.
  eexists. split.
  - cbv -[Rplus Rmult IZR]. reflexivity.
  - reflexivity.
Qed.

(** C8.  Every junction record the builder returns has a weight equal to
    the sum of the radii of the branches of its branch list, one radius per
    entry of the list; on the Y network of three branches the single
    junction weighs the sum of the three radii. *)
Theorem junction_weight_sum_of_radii :
  (forall (M : mesh) (nb_branches : nat) (R_branch : nat -> R)
          (rm : region_map) (bcs : list node) (s : state),
     build_vessel_boundary M nb_branches R_branch rm bcs = Ok s ->
     forall j : node, In j (Jv_HT s) ->
       value j = weight_of R_branch (branches j)) /\
  (forall r : nat -> R,
     exists (s : state) (j : node),
       build_vessel_boundary Y_mesh 3 r Y_regions Y_boundary = Ok s /\
       Jv_HT s = [j] /\
       List.length (branches j) = 3%nat /\
       value j = (r 0%nat + r 1%nat + r 2%nat)%R).
Proof.
  split.
  - intros M nb_branches R_branch rm bcs s E j Hj.
    unfold build_vessel_boundary in E. split_binds.
    assert (H : Forall (junction_weight_ok R_branch) (Jv_HT s)).
    { eapply convexes_loop_weights; [|exact E]. simpl. constructor. }
    rewrite Forall_forall in H. exact (H j Hj).
  - intros r. destruct (Y_network_built r) as [s [E J]].
    eexists s, _. split; [exact E|]. split; [exact J|].
    split; [reflexivity | simpl; ring].
Qed.

Lemma junction_weight_sum_of_radii_witness :
  exists s : state,
    build_vessel_boundary Y_mesh 3 (fun _ => 1%R) Y_regions Y_boundary = Ok s /\
    forall j : node, In j (Jv_HT s) ->
      value j = weight_of (fun _ => 1%R) (branches j).
Proof.
  eexists. split.
  - cbv -[Rplus Rmult IZR]. reflexivity.
  - apply (proj1 junction_weight_sum_of_radii Y_mesh 3%nat (fun _ => 1%R)
             Y_regions Y_boundary).
    cbv -[Rplus Rmult IZR]. reflexivity.
Defined.

End JunctionWeightClaim.

(* ================================================================== *)
(** * The topology builder: branch 0 as inflow branch of a junction *)

Section InflowBranchZero.

Import Topology Properties Networks.

Variable M : mesh.
Variable nb_branches : nat.
Variable R_branch : nat -> R.

Lemma fails_bind {A B : Type} (m : outcome A) (k : A -> outcome B) :
  (forall a, m = Ok a -> fails (k a)) -> fails (bind m k).
Proof.
  destruct m as [a| |]; simpl; intros Hk; [apply Hk; reflexivity | exact I | exact I].
Qed.

(** The regions of faces added by the builder hold no whole convex: they
    do not change the answer of [is_in]. *)
Lemma is_in_region_add (rm : region_map) (id cv f b c : nat) :
  is_in (region_add rm id cv f) b c = is_in rm b c.
Proof.
  unfold is_in, region_add.
  destruct (Nat.eqb_spec b id) as [->|Hne]; [|reflexivity].
  destruct (rm id) as [r|]; simpl.
  - rewrite existsb_app. simpl. rewrite andb_false_r, !orb_false_r. reflexivity.
  - rewrite andb_false_r. reflexivity.
Qed.

Lemma same_branches_refl (s : state) : same_branches s s.
Proof. intros b c; reflexivity. Qed.

Lemma same_branches_trans (s1 s2 s3 : state) :
  same_branches s1 s2 -> same_branches s2 s3 -> same_branches s1 s3.
Proof. intros H12 H23 b c. rewrite H23, H12. reflexivity. Qed.

Lemma new_face_region_same (cv f : nat) (s s' : state) :
  new_face_region cv f s = Ok s' -> same_branches s s'.
Proof.
  intros E. apply new_face_region_Ok in E. subst s'. intros b c. simpl.
  apply is_in_region_add.
Qed.

Lemma find_branch_same (s s' : state) (cv : nat) :
  same_branches s s' ->
  find_branch nb_branches s' cv = find_branch nb_branches s cv.
Proof.
  intros H. unfold find_branch. apply search_ext. intros k. apply H.
Qed.

Lemma find_branch_zero (s : state) (cv : nat) :
  (0 < nb_branches)%nat -> is_in (regions s) 0 cv = true ->
  find_branch nb_branches s cv = (0%nat, true).
Proof.
  intros Hnb H0. unfold find_branch.
  destruct nb_branches as [|n]; [lia|]. apply search_first. exact H0.
Qed.

(** What the first endpoint does to the regions. *)
Lemma first_endpoint_same (cv i0 : nat) (s s' : state) :
  first_endpoint M nb_branches R_branch cv i0 s = Ok s' -> same_branches s s'.
Proof.
  intros E. unfold first_endpoint in E.
  destruct (List.length (convex_to_point M i0) =? 1).
  - split_binds. apply new_face_region_same in Ha. simpl in Ha, E.
    destruct (find_node _ _ _) as [bc found]. split_binds. simpl in E.
    destruct (find_branch _ _ _) as [branch contained]. split_binds.
    intros b c. simpl. apply Ha.
  - destruct (List.length (convex_to_point M i0) =? 2).
    { inversion E; subst. apply same_branches_refl. }
    destruct (2 <=? List.length (convex_to_point M i0)).
    2:{ inversion E; subst. apply same_branches_refl. }
    split_binds.
    assert (Ha' : same_branches s a).
    { destruct (negb (existsb (Nat.eqb i0) (junctions s))).
      - split_binds. apply new_face_region_same in Ha0.
        intros b c. simpl. apply Ha0.
      - inversion Ha; subst. apply same_branches_refl. }
    destruct (find_branch _ a cv) as [branch contained]. split_binds.
    destruct (find_node _ _ _) as [jj found]. split_binds.
    intros b c. simpl. apply Ha'.
Qed.

Lemma second_endpoint_same (cv i1 : nat) (s s' : state) :
  second_endpoint M nb_branches R_branch cv i1 s = Ok s' -> same_branches s s'.
Proof.
  intros E. unfold second_endpoint in E.
  destruct (List.length (convex_to_point M i1) =? 1).
  - destruct (find_node _ _ _) as [bc [|]].
    + split_binds. apply new_face_region_same in Ha. simpl in Ha, E.
      destruct (find_branch _ _ _) as [branch contained]. split_binds.
      intros b c. simpl. apply Ha.
    + split_binds. apply new_face_region_same in Ha. simpl in Ha, E.
      destruct (find_branch _ _ _) as [branch contained]. split_binds.
      intros b c. simpl. apply Ha.
  - destruct (List.length (convex_to_point M i1) =? 2).
    + destruct (find_branch _ s cv) as [firstbranch contained]. split_binds.
      destruct (negb _ || negb _);
        [|inversion E; subst; apply same_branches_refl].
      destruct (negb (existsb (Nat.eqb i1) (junctions s)));
        [|inversion E; subst; apply same_branches_refl].
      split_binds.
      match goal with
      | H : new_face_region _ _ _ = Ok _ |- _ =>
          apply new_face_region_same in H; rename H into Hsame
      end.
      simpl in E.
      destruct (search _ _ _) as [secondbranch contained2]. split_binds.
      intros b c. simpl. apply Hsame.
    + destruct (2 <=? List.length (convex_to_point M i1));
        [|inversion E; subst; apply same_branches_refl].
      destruct (find_branch _ s cv) as [branch contained]. split_binds.
      destruct (negb (existsb (Nat.eqb i1) (junctions s))).
      * split_binds.
        match goal with
        | H : new_face_region _ _ _ = Ok _ |- _ =>
            apply new_face_region_same in H; rename H into Hsame
        end.
        intros b c. simpl. apply Hsame.
      * destruct (find_node _ _ _) as [jj found]. split_binds.
        intros b c. reflexivity.
Qed.

Lemma check_structure_same (cv : nat) (s : state) :
  same_branches s (check_structure M cv s).
Proof.
  unfold check_structure, same_branches.
  destruct (2 <? nb_points _); destruct (2 <? nb_faces _); reflexivity.
Qed.

Lemma step_same (cv : nat) (s s' : state) :
  step M nb_branches R_branch s cv = Ok s' -> same_branches s s'.
Proof.
  intros E. unfold step in E. split_binds.
  eapply same_branches_trans; [apply check_structure_same|].
  eapply same_branches_trans;
    [eapply first_endpoint_same; eassumption
    |eapply second_endpoint_same; eassumption].
Qed.

Lemma update_at_cases {A : Type} (f : A -> A) :
  forall (v : list A) (i : nat),
    update_at f i v = Undef \/ exists v', update_at f i v = Ok v'.
Proof.
  induction v as [|a v IH]; intros i; simpl; [left; reflexivity|].
  destruct i as [|i]; [right; eexists; reflexivity|].
  destruct (IH i) as [E | [v' E]]; rewrite E; simpl;
    [left; reflexivity | right; eexists; reflexivity].
Qed.

(** The first endpoint of a convex of branch 0 at a vertex with three or
    more incident convexes: the assertion [branch > 0] stops the program,
    unless an earlier assertion or an access out of range did. *)
Lemma first_endpoint_branch_zero (cv i0 : nat) (s : state) :
  (3 <= List.length (convex_to_point M i0))%nat ->
  (0 < nb_branches)%nat ->
  is_in (regions s) 0 cv = true ->
  first_endpoint M nb_branches R_branch cv i0 s = Abort msg_minus_zero \/
  first_endpoint M nb_branches R_branch cv i0 s = Abort msg_overload \/
  first_endpoint M nb_branches R_branch cv i0 s = Undef.
Proof.
  intros Hdeg Hnb H0. unfold first_endpoint.
  destruct (Nat.eqb_spec (List.length (convex_to_point M i0)) 1) as [E1|_]; [lia|].
  destruct (Nat.eqb_spec (List.length (convex_to_point M i0)) 2) as [E2|_]; [lia|].
  destruct (Nat.leb_spec 2 (List.length (convex_to_point M i0))) as [_|E3]; [|lia].
  (* the state after the junction is stored, if it was not *)
  assert (Hpre :
    forall (pre : outcome state),
      (pre = Abort msg_overload \/
       exists a, pre = Ok a /\ is_in (regions a) 0 cv = true) ->
      let r := s1 <- pre ;;
               (let '(branch, contained) := find_branch nb_branches s1 cv in
                GMM_ASSERT1 true "No branch region contains node i0!"%string ;;;
                let '(jj, found) := find_node i0 (Jv_HT s1) (nb_junctions s1) in
                js <- update_at (add_value (R_branch branch)) jj (Jv_HT s1) ;;
                js <- update_at (push_branch (- Z.of_nat branch)%Z) jj js ;;
                let s2 := set_Jv_HT js s1 in
                GMM_ASSERT1 (0 <? branch) msg_minus_zero ;;;
                Ok s2) in
      r = Abort msg_minus_zero \/ r = Abort msg_overload \/ r = Undef).
  { intros pre [-> | [a [-> Ha]]]; simpl; [right; left; reflexivity|].
    rewrite (find_branch_zero a cv Hnb Ha).
    destruct (find_node i0 (Jv_HT a) (nb_junctions a)) as [jj found].
    destruct (update_at_cases (add_value (R_branch 0)) (Jv_HT a) jj)
      as [U | [js U]]; rewrite U; simpl; [right; right; reflexivity|].
    match goal with
    | |- context [update_at ?f jj js] =>
        destruct (update_at_cases f js jj) as [U' | [js' U']]; rewrite U'; simpl;
          [right; right; reflexivity|]
    end.
    left; reflexivity. }
  apply Hpre.
  destruct (negb (existsb (Nat.eqb i0) (junctions s))).
  - unfold new_face_region. simpl.
    destruct (has_region (regions s) (fer s)); simpl; [left; reflexivity|].
    right. eexists; split; [reflexivity|]. simpl.
    rewrite is_in_region_add. exact H0.
  - right. exists s. split; [reflexivity | exact H0].
Qed.

Lemma first_endpoint_branch_zero_fails (cv i0 : nat) (s : state) :
  (3 <= List.length (convex_to_point M i0))%nat ->
  (0 < nb_branches)%nat ->
  is_in (regions s) 0 cv = true ->
  fails (first_endpoint M nb_branches R_branch cv i0 s).
Proof.
  intros Hdeg Hnb H0.
  destruct (first_endpoint_branch_zero cv i0 s Hdeg Hnb H0) as [E | [E | E]];
    rewrite E; exact I.
Qed.

Lemma step_branch_zero_fails (cv i0 : nat) (s : state) :
  face_vertex M cv 1 = Ok i0 ->
  (3 <= List.length (convex_to_point M i0))%nat ->
  (0 < nb_branches)%nat ->
  is_in (regions s) 0 cv = true ->
  fails (step M nb_branches R_branch s cv).
Proof.
  intros Hi0 Hdeg Hnb H0. unfold step. rewrite Hi0. simpl.
  apply fails_bind. intros i1 _. apply fails_bind. intros s1 E1.
  exfalso.
  pose proof (first_endpoint_branch_zero_fails cv i0 (check_structure M cv s)
                Hdeg Hnb) as F.
  rewrite E1 in F. apply F.
  rewrite (check_structure_same cv s). exact H0.
Qed.

Lemma convexes_loop_branch_zero_fails (cv i0 : nat) :
  face_vertex M cv 1 = Ok i0 ->
  (3 <= List.length (convex_to_point M i0))%nat ->
  (0 < nb_branches)%nat ->
  forall (cvs : list nat) (s : state),
    In cv cvs -> is_in (regions s) 0 cv = true ->
    fails (convexes_loop M nb_branches R_branch cvs s).
Proof.
  intros Hi0 Hdeg Hnb. induction cvs as [|c cvs IH]; intros s Hin H0.
  - destruct Hin.
  - simpl. destruct Hin as [-> | Hin].
    + pose proof (step_branch_zero_fails cv s Hi0 Hdeg Hnb H0) as F.
      destruct (step M nb_branches R_branch s cv); simpl; [destruct F | exact I | exact I].
    + apply fails_bind. intros s' E. apply IH; [exact Hin|].
      rewrite (step_same _ _ E). exact H0.
Qed.

End InflowBranchZero.

Section InflowBranchZeroClaim.

Import Topology Properties Networks.

(** C10.  When the first endpoint of an element is a vertex with three or
    more incident elements and branch 0 is the branch containing the
    element, attaching the inflow branch ends on the assertion
    [branch > 0]: the treatment of the endpoint stops with the message of
    that assertion (unless the region assertion or an access out of range
    stopped it before), so the builder never returns normally on such a
    mesh; the Y network whose branch 0 leaves the junction is stopped by
    that very assertion. *)
Theorem inflow_branch_zero_is_fatal :
  (forall (M : mesh) (nb_branches : nat) (R_branch : nat -> R)
          (cv i0 : nat) (s : state),
     (3 <= List.length (convex_to_point M i0))%nat ->
     (0 < nb_branches)%nat ->
     is_in (regions s) 0 cv = true ->
     first_endpoint M nb_branches R_branch cv i0 s = Abort msg_minus_zero \/
     first_endpoint M nb_branches R_branch cv i0 s = Abort msg_overload \/
     first_endpoint M nb_branches R_branch cv i0 s = Undef) /\
  (forall (M : mesh) (nb_branches : nat) (R_branch : nat -> R)
          (rm : region_map) (bcs : list node) (cv i0 : nat),
     In cv (convex_index M) ->
     face_vertex M cv 1 = Ok i0 ->
     (3 <= List.length (convex_to_point M i0))%nat ->
     (0 < nb_branches)%nat ->
     is_in rm 0 cv = true ->
     fails (build_vessel_boundary M nb_branches R_branch rm bcs)) /\
  (forall R_branch : nat -> R,
     build_vessel_boundary Y_mesh 3 R_branch Y_regions_renumbered Y_boundary
     = Abort msg_minus_zero).
Proof.
  split; [|split].
  - intros M nb_branches R_branch cv i0 s.
    apply first_endpoint_branch_zero.
  - intros M nb_branches R_branch rm bcs cv i0 Hin Hi0 Hdeg Hnb H0.
    unfold build_vessel_boundary. apply fails_bind. intros _ _.
    eapply convexes_loop_branch_zero_fails; eauto.
  - intros R_branch. cbv -[Rplus Rmult IZR]. reflexivity.
Qed.

Lemma inflow_branch_zero_is_fatal_witness :
  In 1%nat (convex_index Y_mesh) /\
  face_vertex Y_mesh 1 1 = Ok 1%nat /\
  (3 <= List.length (convex_to_point Y_mesh 1))%nat /\
  is_in Y_regions_renumbered 0 1 = true /\
  fails (build_vessel_boundary Y_mesh 3 (fun _ => 1%R)
           Y_regions_renumbered Y_boundary).
Proof.
  assert (Hin : In 1%nat (convex_index Y_mesh)) by (simpl; auto).
  assert (Hv : face_vertex Y_mesh 1 1 = Ok 1%nat) by reflexivity.
  assert (Hd : (3 <= List.length (convex_to_point Y_mesh 1))%nat) by (simpl; lia).
  assert (Hr : is_in Y_regions_renumbered 0 1 = true) by reflexivity.
  split; [exact Hin|]. split; [exact Hv|]. split; [exact Hd|]. split; [exact Hr|].
  apply (proj1 (proj2 inflow_branch_zero_is_fatal) Y_mesh 3%nat (fun _ => 1%R)
           Y_regions_renumbered Y_boundary 1%nat 1%nat Hin Hv Hd); [lia | exact Hr].
Defined.

End InflowBranchZeroClaim.

(* ================================================================== *)
(** * The topology builder: elements with more than two endpoints *)

Section StructureDiagnostics.

Import Topology Properties Networks.

Variable M : mesh.
Variable nb_branches : nat.
Variable R_branch : nat -> R.

Lemma outcome_map_bind {A B C : Type} (f : B -> C) (g : A -> A)
    (m : outcome A) (k : A -> outcome B) (k' : A -> outcome C) :
  (forall a, outcome_map f (k a) = k' (g a)) ->
  outcome_map f (bind m k) = bind (outcome_map g m) k'.
Proof. intros H. destruct m; simpl; auto. Qed.

(** Case analysis on every test that stands in the goal. *)
Ltac case_tests :=
  repeat (cbn;
    match goal with
    | |- context [if ?b then _ else _] => destruct b
    | |- context [match ?x with (_, _) => _ end] => destruct x
    | |- context [match update_at ?f ?i ?v with _ => _ end] =>
        destruct (update_at f i v)
    | |- context [match at_index ?v ?i with _ => _ end] =>
        destruct (at_index v i)
    | |- context [match orientation ?m ?c ?i with _ => _ end] =>
        destruct (orientation m c i)
    end);
  cbn; try reflexivity.

(** The treatment of an endpoint neither reads nor writes the error log. *)
Lemma first_endpoint_with_cerr (cv i0 : nat) (l : list diagnostic) (s : state) :
  first_endpoint M nb_branches R_branch cv i0 (with_cerr l s)
  = outcome_map (with_cerr l) (first_endpoint M nb_branches R_branch cv i0 s).
Proof.
  destruct s as [rg bc jv ju ex ne nj fe ce].
  unfold first_endpoint, with_cerr, new_face_region, find_branch, find_node,
    GMM_ASSERT1, bind.
  case_tests.
Qed.

Lemma second_endpoint_with_cerr (cv i1 : nat) (l : list diagnostic) (s : state) :
  second_endpoint M nb_branches R_branch cv i1 (with_cerr l s)
  = outcome_map (with_cerr l) (second_endpoint M nb_branches R_branch cv i1 s).
Proof.
  destruct s as [rg bc jv ju ex ne nj fe ce].
  unfold second_endpoint, with_cerr, new_face_region, find_branch, find_node,
    update_back, GMM_ASSERT1, bind.
  case_tests.
Qed.

Lemma with_cerr_id (s : state) : with_cerr (cerr s) s = s.
Proof. destruct s; reflexivity. Qed.

Lemma first_endpoint_cerr (cv i0 : nat) (s s' : state) :
  first_endpoint M nb_branches R_branch cv i0 s = Ok s' -> cerr s' = cerr s.
Proof.
  intros E. pose proof (first_endpoint_with_cerr cv i0 (cerr s) s) as C.
  rewrite with_cerr_id, E in C. simpl in C. inversion C as [C'].
  rewrite C' at 1. reflexivity.
Qed.

Lemma second_endpoint_cerr (cv i1 : nat) (s s' : state) :
  second_endpoint M nb_branches R_branch cv i1 s = Ok s' -> cerr s' = cerr s.
Proof.
  intros E. pose proof (second_endpoint_with_cerr cv i1 (cerr s) s) as C.
  rewrite with_cerr_id, E in C. simpl in C. inversion C as [C'].
  rewrite C' at 1. reflexivity.
Qed.

(** The log after the checks on the structure of a convex. *)
Lemma check_structure_cerr (cv : nat) (s : state) :
  incl (cerr s) (cerr (check_structure M cv s)) /\
  ((2 < nb_points (structure_of_convex M cv))%nat ->
   In (MoreThanTwoVertices cv) (cerr (check_structure M cv s))).
Proof.
  unfold check_structure.
  destruct (2 <? nb_points (structure_of_convex M cv)) eqn:Ep;
    destruct (2 <? nb_faces (structure_of_convex M cv)); simpl; split;
    try (intros x Hx; repeat (apply in_or_app; left); exact Hx);
    try (intros _; repeat (apply in_or_app; simpl; auto; left); fail);
    intros Hlt; apply Nat.ltb_lt in Hlt; congruence.
Qed.

Lemma step_cerr (cv : nat) (s s' : state) :
  step M nb_branches R_branch s cv = Ok s' ->
  cerr s' = cerr (check_structure M cv s).
Proof.
  intros E. unfold step in E. split_binds.
  apply second_endpoint_cerr in E. rewrite E.
  eapply first_endpoint_cerr; eassumption.
Qed.

Lemma convexes_loop_cerr (cvs : list nat) :
  forall s s' : state,
    convexes_loop M nb_branches R_branch cvs s = Ok s' ->
    incl (cerr s) (cerr s') /\
    forall cv : nat, In cv cvs ->
      (2 < nb_points (structure_of_convex M cv))%nat ->
      In (MoreThanTwoVertices cv) (cerr s').
Proof.
  induction cvs as [|c cvs IH]; intros s s' E; simpl in E.
  - inversion E; subst. split; [apply incl_refl | intros cv []].
  - split_binds. destruct (IH _ _ E) as [Hincl Hall].
    pose proof (step_cerr _ _ Ha) as Hc.
    destruct (check_structure_cerr c s) as [Hi Hv].
    split.
    + intros x Hx. apply Hincl. rewrite Hc. apply Hi. exact Hx.
    + intros cv [-> | Hin] Hlt.
      * apply Hincl. rewrite Hc. apply Hv. exact Hlt.
      * apply Hall; assumption.
Qed.

(** The outcome, log apart, depends on the state only through what is left
    of it without the log, and not on the numbers of points and faces. *)
Lemma without_cerr_check_structure (cv : nat) (s : state) :
  without_cerr (check_structure M cv s) = without_cerr s.
Proof.
  unfold check_structure.
  destruct (2 <? nb_points _); destruct (2 <? nb_faces _); reflexivity.
Qed.

Lemma step_without_cerr (cv : nat) (s : state) :
  outcome_map without_cerr (step M nb_branches R_branch s cv)
  = step (two_ended M) nb_branches R_branch (without_cerr s) cv.
Proof.
  unfold step.
  change (face_vertex (two_ended M)) with (face_vertex M).
  destruct (face_vertex M cv 1) as [i0| |]; simpl; try reflexivity.
  destruct (face_vertex M cv 0) as [i1| |]; simpl; try reflexivity.
  change (first_endpoint (two_ended M)) with (first_endpoint M).
  change (second_endpoint (two_ended M)) with (second_endpoint M).
  change (check_structure (two_ended M) cv (without_cerr s)) with (without_cerr s).
  rewrite <- (without_cerr_check_structure cv s).
  unfold without_cerr at 2. rewrite first_endpoint_with_cerr.
  destruct (first_endpoint M nb_branches R_branch cv i0 (check_structure M cv s))
    as [s1| |]; simpl; try reflexivity.
  rewrite second_endpoint_with_cerr. reflexivity.
Qed.

Lemma convexes_loop_without_cerr (cvs : list nat) :
  forall s : state,
    outcome_map without_cerr (convexes_loop M nb_branches R_branch cvs s)
    = outcome_map without_cerr
        (convexes_loop (two_ended M) nb_branches R_branch cvs (without_cerr s)).
Proof.
  induction cvs as [|c cvs IH]; intros s; simpl; [reflexivity|].
  rewrite <- step_without_cerr.
  destruct (step M nb_branches R_branch s c) as [s1| |]; simpl; try reflexivity.
  apply IH.
Qed.

End StructureDiagnostics.

Section StructureDiagnosticsClaim.

Import Topology Properties Networks.

(** C1, as stated, fails: an element with three points, and an element
    that no branch region contains, are both processed to the end; the
    builder returns normally. *)
Lemma fatal_topology_error_counterexample :
  (In 0%nat (convex_index malformed_mesh) /\
   (2 < nb_points (structure_of_convex malformed_mesh 0))%nat /\
   exists s : state,
     build_vessel_boundary malformed_mesh 1 (fun _ => 1%R)
       (branch_regions [[0%nat]]) [boundary 0; boundary 1] = Ok s /\
     cerr s = [MoreThanTwoVertices 0]) /\
  (In 0%nat (convex_index orphan_mesh) /\
   find_branch 1 (initial_state 1 orphan_regions [boundary 0; boundary 1]) 0
   = (1%nat, false) /\
   exists s : state,
     build_vessel_boundary orphan_mesh 1 (fun _ => 1%R)
       orphan_regions [boundary 0; boundary 1] = Ok s).
Proof.
  split.
  - split; [simpl; auto|]. split; [simpl; lia|].
    eexists. split; [cbv -[Rplus Rmult IZR]; reflexivity | reflexivity].
  - split; [simpl; auto|]. split; [reflexivity|].
    eexists. cbv -[Rplus Rmult IZR]. reflexivity.
Qed.

(** C1, amended.  An element with more than two endpoints is reported on
    the error stream and the construction goes on: when the builder
    returns, the log holds the diagnostic of every such element, and, the
    log apart, the outcome is the one obtained when every element reports
    two points and two faces. *)
Theorem large_convex_reported_not_fatal :
  (forall (M : mesh) (nb_branches : nat) (R_branch : nat -> R)
          (rm : region_map) (bcs : list node) (s : state),
     build_vessel_boundary M nb_branches R_branch rm bcs = Ok s ->
     forall cv : nat, In cv (convex_index M) ->
       (2 < nb_points (structure_of_convex M cv))%nat ->
       In (MoreThanTwoVertices cv) (cerr s)) /\
  (forall (M : mesh) (nb_branches : nat) (R_branch : nat -> R)
          (rm : region_map) (bcs : list node),
     outcome_map without_cerr
       (build_vessel_boundary M nb_branches R_branch rm bcs)
     = outcome_map without_cerr
         (build_vessel_boundary (two_ended M) nb_branches R_branch rm bcs)).
Proof.
  split.
  - intros M nb_branches R_branch rm bcs s E cv Hin Hlt.
    unfold build_vessel_boundary in E. split_binds.
    destruct (convexes_loop_cerr _ _ _ _ _ E) as [_ Hall].
    apply Hall; assumption.
  - intros M nb_branches R_branch rm bcs. unfold build_vessel_boundary.
    destruct (GMM_ASSERT1 (negb (has_region rm nb_branches)) msg_overload);
      simpl; try reflexivity.
    apply convexes_loop_without_cerr.
Qed.

Lemma large_convex_reported_not_fatal_witness :
  exists s : state,
    build_vessel_boundary malformed_mesh 1 (fun _ => 1%R)
      (branch_regions [[0%nat]]) [boundary 0; boundary 1] = Ok s /\
    In 0%nat (convex_index malformed_mesh) /\
    (2 < nb_points (structure_of_convex malformed_mesh 0))%nat /\
    In (MoreThanTwoVertices 0) (cerr s).
Proof.
  eexists. split; [cbv -[Rplus Rmult IZR]; reflexivity|].
  assert (Hin : In 0%nat (convex_index malformed_mesh)) by (simpl; auto).
  assert (Hlt : (2 < nb_points (structure_of_convex malformed_mesh 0))%nat)
    by (simpl; lia).
  split; [exact Hin|]. split; [exact Hlt|].
  apply (proj1 large_convex_reported_not_fatal malformed_mesh 1%nat (fun _ => 1%R)
           (branch_regions [[0%nat]]) [boundary 0; boundary 1]);
    [cbv -[Rplus Rmult IZR]; reflexivity | exact Hin | exact Hlt].
Defined.

End StructureDiagnosticsClaim.

(* ================================================================== *)
(** * Facts about the comparisons of scalars *)

Unset Implicit Arguments.

Section Comparisons.

Local Open Scope R_scope.

Lemma Rgtb_true (x y : R) : x > y -> Rgtb x y = true.
Proof. intros H. unfold Rgtb. destruct (Rgt_dec x y); [reflexivity | contradiction]. Qed.

Lemma Rgtb_false (x y : R) : ~ x > y -> Rgtb x y = false.
Proof. intros H. unfold Rgtb. destruct (Rgt_dec x y); [contradiction | reflexivity]. Qed.

Lemma Rltb_true (x y : R) : x < y -> Rltb x y = true.
Proof. intros H. unfold Rltb. destruct (Rlt_dec x y); [reflexivity | contradiction]. Qed.

Lemma Rltb_false (x y : R) : ~ x < y -> Rltb x y = false.
Proof. intros H. unfold Rltb. destruct (Rlt_dec x y); [contradiction | reflexivity]. Qed.

Lemma Rgeb_true (x y : R) : x >= y -> Rgeb x y = true.
Proof. intros H. unfold Rgeb. destruct (Rge_dec x y); [reflexivity | contradiction]. Qed.

Lemma Rgeb_false (x y : R) : ~ x >= y -> Rgeb x y = false.
Proof. intros H. unfold Rgeb. destruct (Rge_dec x y); [contradiction | reflexivity]. Qed.

Lemma Rleb_true (x y : R) : x <= y -> Rleb x y = true.
Proof. intros H. unfold Rleb. destruct (Rle_dec x y); [reflexivity | contradiction]. Qed.

Lemma Rleb_false (x y : R) : ~ x <= y -> Rleb x y = false.
Proof. intros H. unfold Rleb. destruct (Rle_dec x y); [contradiction | reflexivity]. Qed.

Lemma Reqb_true (x y : R) : x = y -> Reqb x y = true.
Proof. intros H. unfold Reqb. destruct (Req_dec_T x y); [reflexivity | contradiction]. Qed.

Lemma Reqb_false (x y : R) : x <> y -> Reqb x y = false.
Proof. intros H. unfold Reqb. destruct (Req_dec_T x y); [contradiction | reflexivity]. Qed.

End Comparisons.

(** Decides the comparisons between numerals that stand in the goal. *)
Ltac decide_comparisons :=
  repeat match goal with
  | |- context [Rgtb ?x ?y] =>
      first [rewrite (Rgtb_true x y) by lra | rewrite (Rgtb_false x y) by lra]
  | |- context [Rltb ?x ?y] =>
      first [rewrite (Rltb_true x y) by lra | rewrite (Rltb_false x y) by lra]
  | |- context [Rgeb ?x ?y] =>
      first [rewrite (Rgeb_true x y) by lra | rewrite (Rgeb_false x y) by lra]
  | |- context [Rleb ?x ?y] =>
      first [rewrite (Rleb_true x y) by lra | rewrite (Rleb_false x y) by lra]
  | |- context [Reqb ?x ?y] =>
      first [rewrite (Reqb_true x y) by lra | rewrite (Reqb_false x y) by lra]
  | |- context [Rabs ?x] =>
      first [rewrite (Rabs_pos_eq x) by lra | rewrite (Rabs_left x) by lra]
  | |- context [Rmax ?x ?y] =>
      first [rewrite (Rmax_left x y) by lra | rewrite (Rmax_right x y) by lra]
  end.

(* ================================================================== *)
(** * The artificial diffusivity *)

Section DiffusivityFacts.

Import Diffusivity.
Local Open Scope R_scope.

(** The size carried out of the loop is the largest size met since the
    first branch: it is not reset from one branch to the next. *)
Lemma branches_loop_max_size (bs : list branch) :
  forall (m p : R) (st : R * R),
    branches_loop bs (m, p) = Ok st ->
    fst st = size_loop m (List.concat (map sizes bs)).
Proof.
  induction bs as [|b bs IH]; intros m p st E; simpl in E.
  - inversion E; reflexivity.
  - apply bind_Ok in E. destruct E as [[m' p'] [Eb E]].
    unfold branch_step in Eb. split_binds.
    rewrite (IH _ _ _ E). simpl. unfold size_loop. rewrite fold_left_app.
    reflexivity.
Qed.

(** C2 fails on the code.  On the two branches [(size 2, velocity 1)] and
    [(size 1, velocity 3)] the maximum over the branches of
    (maximum velocity) x (maximum size of the branch) is [3], but the
    routine multiplies the velocity of the second branch by the size [2]
    kept from the first and returns [6 * Theta / 2]. *)
Theorem diffusivity_keeps_size_of_earlier_branches :
  (forall Theta : R,
     artificial_diffusivity Theta two_branches = Ok (6 * Theta / 2)) /\
  (forall Theta : R, diffusivity_spec Theta two_branches = Theta / 2 * 3) /\
  artificial_diffusivity 1 two_branches
    <> Ok (diffusivity_spec 1 two_branches).
Proof.
  assert (Hcode : forall Theta : R,
            artificial_diffusivity Theta two_branches = Ok (6 * Theta / 2)).
  { intros Theta.
    unfold artificial_diffusivity, two_branches, branches_loop, branch_step,
      size_loop. simpl.
    decide_comparisons. simpl. decide_comparisons. simpl.
    f_equal. lra. }
  assert (Hspec : forall Theta : R,
            diffusivity_spec Theta two_branches = Theta / 2 * 3).
  { intros Theta.
    unfold diffusivity_spec, two_branches, branch_product_spec, list_max. simpl.
    decide_comparisons. f_equal.
    replace (1 * 2) with 2 by lra. replace (3 * 1) with 3 by lra.
    decide_comparisons. reflexivity. }
  split; [exact Hcode|]. split; [exact Hspec|].
  rewrite Hcode, Hspec. intros E. inversion E as [E']. lra.
Qed.

End DiffusivityFacts.

(* ================================================================== *)
(** * The compliance model *)

Section ComplianceFacts.

Import Compliance.
Local Open Scope R_scope.

Variable c : constants.

Lemma e_gt_1 : 1 < e.
Proof. unfold e. lra. Qed.

(** The exponential laws decrease strictly with the equivalent pressure. *)
Lemma pow_e_decreasing (k x y : R) :
  k < 0 -> x < y -> pow e (k * y) < pow e (k * x).
Proof.
  intros Hk Hxy. unfold pow. apply Rpower_lt; [apply e_gt_1 | nra].
Qed.

Lemma pow_e_pos (x : R) : 0 < pow e x.
Proof. unfold pow, Rpower. apply exp_pos. Qed.

(** Beyond 5 the conductance of a buckled venule is the one at 5. *)
Lemma buckled_cond_clamped (Rtmp p_adim : R) :
  p_adim >= 5 -> cond (buckled c Rtmp p_adim) = cond (buckled c Rtmp 5).
Proof.
  intros Hp. unfold buckled.
  rewrite (Rltb_false p_adim 5) by lra. rewrite (Rltb_false 5 5) by lra.
  reflexivity.
Qed.

Lemma deformed_section_buckled (Ru hu p_int p_ext Ei curv : R) :
  hu / Ru < 0.1 ->
  p_ext - p_int > threshold_of c Ru hu Ei ->
  deformed_section c Ru hu p_int p_ext Ei curv
  = buckled c Ru (p_adim_of c Ru hu p_int p_ext Ei).
Proof.
  intros Hr Hd. unfold deformed_section.
  rewrite Rgeb_false by lra. rewrite Rleb_false by lra. reflexivity.
Qed.

Lemma deformed_section_arteriole (Ru hu p_int p_ext Ei curv : R) :
  hu / Ru >= 0.1 ->
  deformed_section c Ru hu p_int p_ext Ei curv
  = arteriole c Ru hu p_int p_ext Ei curv.
Proof.
  intros Hr. unfold deformed_section. rewrite Rgeb_true by lra. reflexivity.
Qed.

Lemma deformed_section_venule_circular (Ru hu p_int p_ext Ei curv : R) :
  hu / Ru < 0.1 ->
  p_ext - p_int <= threshold_of c Ru hu Ei ->
  deformed_section c Ru hu p_int p_ext Ei curv
  = venule_circular c Ru hu p_int p_ext Ei curv.
Proof.
  intros Hr Hd. unfold deformed_section.
  rewrite Rgeb_false by lra. rewrite Rleb_true by lra. reflexivity.
Qed.

(** The read of [Curv_[i][j]]. *)
Lemma Curv_in_range (Curv_ : list (list R)) (i j : nat) :
  ComplianceLoop.has_curvature Curv_ (i, 0%nat, j) ->
  Curv Curv_ i j = Ok (ComplianceLoop.curvature_of Curv_ i j).
Proof.
  intros [row [Hrow Hj]]. unfold Curv, at_index, ComplianceLoop.curvature_of.
  rewrite Hrow. cbn [bind].
  rewrite (nth_error_nth' row 0 Hj).
  rewrite (@nth_error_nth _ Curv_ i row [] Hrow). reflexivity.
Qed.

Lemma Curv_Ok (Curv_ : list (list R)) (i j : nat) (x : R) :
  Curv Curv_ i j = Ok x ->
  x = ComplianceLoop.curvature_of Curv_ i j /\
  ComplianceLoop.has_curvature Curv_ (i, 0%nat, j).
Proof.
  unfold Curv, at_index, ComplianceLoop.curvature_of.
  destruct (nth_error Curv_ i) as [row|] eqn:Hrow; cbn [bind]; [|discriminate].
  destruct (nth_error row j) as [y|] eqn:Hj; [|discriminate].
  intros Hx. inversion Hx; subst. split.
  - rewrite (@nth_error_nth _ Curv_ i row [] Hrow).
    symmetry. exact (@nth_error_nth _ row j x 0 Hj).
  - exists row. split; [exact Hrow|].
    apply nth_error_Some. congruence.
Qed.

Lemma Curv_never_aborts (Curv_ : list (list R)) (i j : nat) (msg : string) :
  Curv Curv_ i j <> Abort msg.
Proof.
  unfold Curv, at_index.
  destruct (nth_error Curv_ i) as [row|]; cbn [bind]; [|discriminate].
  destruct (nth_error row j); discriminate.
Qed.

(** The section computed for a degree of freedom is [deformed_section] at
    the curvature read, when the arm taken reads one. *)
Lemma deformed_section_at_runs (Curv_ : list (list R))
    (Ru hu p_int p_ext Ei : R) (i loc : nat) :
  (Rgeb (hu / Ru) 0.1 || Rleb (p_ext - p_int) (threshold_of c Ru hu Ei) = true ->
   ComplianceLoop.has_curvature Curv_ (i, 0%nat, loc)) ->
  deformed_section_at c Curv_ Ru hu p_int p_ext Ei i loc
  = Ok (deformed_section c Ru hu p_int p_ext Ei
          (ComplianceLoop.curvature_of Curv_ i loc)).
Proof.
  intros Hc. unfold deformed_section_at, deformed_section.
  destruct (Rgeb (hu / Ru) 0.1).
  - rewrite Curv_in_range by (apply Hc; reflexivity). reflexivity.
  - destruct (Rleb (p_ext - p_int) (threshold_of c Ru hu Ei)).
    + rewrite Curv_in_range by (apply Hc; reflexivity). reflexivity.
    + reflexivity.
Qed.

Lemma deformed_section_at_Ok (Curv_ : list (list R))
    (Ru hu p_int p_ext Ei : R) (i loc : nat) (s : cross_section) :
  deformed_section_at c Curv_ Ru hu p_int p_ext Ei i loc = Ok s ->
  s = deformed_section c Ru hu p_int p_ext Ei
        (ComplianceLoop.curvature_of Curv_ i loc) /\
  (Rgeb (hu / Ru) 0.1 || Rleb (p_ext - p_int) (threshold_of c Ru hu Ei) = true ->
   ComplianceLoop.has_curvature Curv_ (i, 0%nat, loc)).
Proof.
  unfold deformed_section_at, deformed_section.
  destruct (Rgeb (hu / Ru) 0.1); cbn [orb].
  - intros H. apply bind_Ok in H. destruct H as [x [Hx H]].
    apply Curv_Ok in Hx. destruct Hx as [-> Hfit].
    inversion H; subst. split; [reflexivity | intros _; exact Hfit].
  - destruct (Rleb (p_ext - p_int) (threshold_of c Ru hu Ei)).
    + intros H. apply bind_Ok in H. destruct H as [x [Hx H]].
      apply Curv_Ok in Hx. destruct Hx as [-> Hfit].
      inversion H; subst. split; [reflexivity | intros _; exact Hfit].
    + intros H. inversion H; subst. split; [reflexivity | discriminate].
Qed.

Lemma deformed_section_at_never_aborts (Curv_ : list (list R))
    (Ru hu p_int p_ext Ei : R) (i loc : nat) (msg : string) :
  deformed_section_at c Curv_ Ru hu p_int p_ext Ei i loc <> Abort msg.
Proof.
  unfold deformed_section_at.
  pose proof (Curv_never_aborts Curv_ i loc) as Hc.
  destruct (Rgeb (hu / Ru) 0.1).
  - destruct (Curv Curv_ i loc) as [x|m|]; cbn [bind]; try discriminate.
    exfalso. exact (Hc m eq_refl).
  - destruct (Rleb (p_ext - p_int) (threshold_of c Ru hu Ei)); [|discriminate].
    destruct (Curv Curv_ i loc) as [x|m|]; cbn [bind]; try discriminate.
    exfalso. exact (Hc m eq_refl).
Qed.

End ComplianceFacts.

(** Runs the loop of [vessel_conductivity_vec] on given vectors, when every
    entry read exists. *)
Ltac run_visits :=
  cbv [Compliance.vessel_conductivity_vec Compliance.visit_all
       Compliance.visit_dof at_index nth_error bind];
  repeat (rewrite deformed_section_at_runs
            by (intros _; eexists; split; [reflexivity | simpl; lia]);
          cbn [bind update_at Compliance.replace_section Compliance.R_
               Compliance.CSarea_ Compliance.CSper_ at_index nth_error]).

Section CollapseClampClaim.

Import Compliance.
Local Open Scope R_scope.

(** C3.  In the buckled-venule regime, when the equivalent pressure
    [p_adim] of a degree of freedom exceeds 5 the conductance returned is
    the conductance of the buckled law at [p_adim = 5]; it is the
    conductance returned for any degree of freedom of the same undeformed
    radius whose equivalent pressure is exactly 5. *)
Theorem collapse_clamp :
  forall (c : constants) (Ru hu p_int p_ext Ei curv : R),
    hu / Ru < 0.1 ->
    p_ext - p_int > threshold_of c Ru hu Ei ->
    p_adim_of c Ru hu p_int p_ext Ei > 5 ->
    cond (deformed_section c Ru hu p_int p_ext Ei curv)
    = cond (buckled c Ru 5) /\
    forall hu' p_int' p_ext' Ei' curv' : R,
      hu' / Ru < 0.1 ->
      p_ext' - p_int' > threshold_of c Ru hu' Ei' ->
      p_adim_of c Ru hu' p_int' p_ext' Ei' = 5 ->
      cond (deformed_section c Ru hu p_int p_ext Ei curv)
      = cond (deformed_section c Ru hu' p_int' p_ext' Ei' curv').
Proof.
  intros c Ru hu p_int p_ext Ei curv Hr Hd Hp.
  rewrite (deformed_section_buckled c _ _ _ _ _ _ Hr Hd).
  rewrite buckled_cond_clamped by lra.
  split; [reflexivity|].
  intros hu' p_int' p_ext' Ei' curv' Hr' Hd' Hp'.
  rewrite (deformed_section_buckled c _ _ _ _ _ _ Hr' Hd'), Hp'.
  reflexivity.
Qed.

Lemma collapse_clamp_witness :
  cond (deformed_section unit_constants 100 1 0 1 1 0)
  = cond (buckled unit_constants 100 5).
Proof.
  apply (collapse_clamp unit_constants 100 1 0 1 1 0).
  - lra.
  - unfold threshold_of; simpl; lra.
  - unfold p_adim_of; simpl; lra.
Defined.

End CollapseClampClaim.

Section RegimeSwitchClaim.

Import Compliance.
Local Open Scope R_scope.

(** The conductance of a circular cross section of radius [R <> 0]. *)
Lemma circular_cond (c : constants) (R curv : R) :
  pi c <> 0 -> R <> 0 ->
  U_ c / P_ c / d c * (pi c * R * R) * (pi c * R * R) * 2 * (Gamma_ c + 2)
    / pi c / R / R / R / R * (1 + curv * curv * R * R)
  = U_ c / P_ c / d c * 2 * pi c * (Gamma_ c + 2) * (1 + curv * curv * R * R).
Proof.
  intros Hpi HR. unfold Rdiv.
  replace (U_ c * / P_ c * / d c * (pi c * R * R) * (pi c * R * R) * 2 *
           (Gamma_ c + 2) * / pi c * / R * / R * / R * / R)
    with (U_ c * / P_ c * / d c * 2 * (Gamma_ c + 2) *
          ((pi c * pi c * / pi c) * ((R * / R) * (R * / R) * (R * / R) * (R * / R))))
    by ring.
  rewrite (Rinv_r R HR).
  replace (pi c * pi c * / pi c) with (pi c * (pi c * / pi c)) by ring.
  rewrite (Rinv_r (pi c) Hpi). ring.
Qed.

(** The difference between the two conductances at the same input. *)
Lemma regime_switch_gap (c : constants) (Ru hu p_int p_ext Ei curv : R) :
  pi c <> 0 ->
  radius (arteriole c Ru hu p_int p_ext Ei curv) <> 0 ->
  radius (venule_circular c Ru hu p_int p_ext Ei curv) <> 0 ->
  cond (arteriole c Ru hu p_int p_ext Ei curv)
  - cond (venule_circular c Ru hu p_int p_ext Ei curv)
  = U_ c / P_ c / d c * 2 * pi c * (Gamma_ c + 2) * (curv * curv)
    * (radius (arteriole c Ru hu p_int p_ext Ei curv)
       * radius (arteriole c Ru hu p_int p_ext Ei curv)
       - radius (venule_circular c Ru hu p_int p_ext Ei curv)
         * radius (venule_circular c Ru hu p_int p_ext Ei curv)).
Proof.
  intros Hpi Ha Hv.
  unfold arteriole in *. unfold venule_circular in *. cbn [cond radius] in *.
  rewrite (circular_cond c _ curv Hpi Ha).
  rewrite (circular_cond c _ curv Hpi Hv).
  ring.
Qed.

(** The two deformed radii at the input of the examples: undeformed radius
    1, thickness 0.1, internal pressure 1, external pressure 0, modulus 100. *)
Lemma example_radius_arteriole (curv : R) :
  radius (arteriole unit_constants 1 0.1 1 0 100 curv) = 2321 / 2100.
Proof. unfold arteriole. simpl. lra. Qed.

Lemma example_radius_venule (curv : R) :
  radius (venule_circular unit_constants 1 0.1 1 0 100 curv) = 11 / 10.
Proof. unfold venule_circular. simpl. lra. Qed.

(** C4, as stated, fails: at ratio 0.1, with curvature 1, and a pressure
    difference below the buckling threshold, the two formulas differ. *)
Lemma regime_switch_counterexample :
  0.1 / 1 = 0.1 /\
  0 - 1 <= threshold_of unit_constants 1 0.1 100 /\
  cond (arteriole unit_constants 1 0.1 1 0 100 1)
  <> cond (venule_circular unit_constants 1 0.1 1 0 100 1).
Proof.
  split; [lra|]. split; [unfold threshold_of; simpl; lra|].
  intros E. apply Rminus_diag_eq in E.
  rewrite regime_switch_gap in E.
  - rewrite example_radius_arteriole, example_radius_venule in E. simpl in E.
    pose proof PI_RGT_0 as Hpi. nra.
  - exact PI_neq0.
  - rewrite example_radius_arteriole. lra.
  - rewrite example_radius_venule. lra.
Qed.

(** C4, amended.  At ratio 0.1 the conductances of the arteriole formula
    and of the circular-venule formula differ by
    [U/P/d * 2 pi (Gamma+2) * curv^2 * (Ra^2 - Rv^2)], where [Ra] and [Rv]
    are the two deformed radii (both non-zero): they agree when the local
    curvature is zero. *)
Theorem regime_switch_agrees_without_curvature :
  forall (c : constants) (Ru hu p_int p_ext Ei curv : R),
    hu / Ru = 0.1 ->
    pi c <> 0 ->
    radius (arteriole c Ru hu p_int p_ext Ei curv) <> 0 ->
    radius (venule_circular c Ru hu p_int p_ext Ei curv) <> 0 ->
    cond (arteriole c Ru hu p_int p_ext Ei curv)
    - cond (venule_circular c Ru hu p_int p_ext Ei curv)
    = U_ c / P_ c / d c * 2 * pi c * (Gamma_ c + 2) * (curv * curv)
      * (radius (arteriole c Ru hu p_int p_ext Ei curv)
         * radius (arteriole c Ru hu p_int p_ext Ei curv)
         - radius (venule_circular c Ru hu p_int p_ext Ei curv)
           * radius (venule_circular c Ru hu p_int p_ext Ei curv)) /\
    (curv = 0 ->
     cond (arteriole c Ru hu p_int p_ext Ei curv)
     = cond (venule_circular c Ru hu p_int p_ext Ei curv)).
Proof.
  intros c Ru hu p_int p_ext Ei curv _ Hpi Ha Hv.
  pose proof (regime_switch_gap c Ru hu p_int p_ext Ei curv Hpi Ha Hv) as G.
  split; [exact G|].
  intros Hc. apply Rminus_diag_uniq. rewrite G, Hc. ring.
Qed.

Lemma regime_switch_agrees_without_curvature_witness :
  cond (arteriole unit_constants 1 0.1 1 0 100 0)
  = cond (venule_circular unit_constants 1 0.1 1 0 100 0).
Proof.
  apply (regime_switch_agrees_without_curvature unit_constants 1 0.1 1 0 100 0).
  - lra.
  - exact PI_neq0.
  - rewrite example_radius_arteriole. lra.
  - rewrite example_radius_venule. lra.
  - reflexivity.
Defined.

End RegimeSwitchClaim.

Section StoredGeometryClaim.

Import Compliance.
Local Open Scope R_scope.

Lemma update_at_nth_error {A : Type} (f : A -> A) :
  forall (v : list A) (i : nat) (v' : list A),
    update_at f i v = Ok v' ->
    exists a, nth_error v i = Some a /\ nth_error v' i = Some (f a).
Proof.
  induction v as [|a v IH]; intros i v' E; simpl in E; [discriminate|].
  destruct i as [|i].
  - inversion E; subst. exists a. split; reflexivity.
  - apply bind_Ok in E. destruct E as [w [Ew E]]. inversion E; subst.
    simpl. eapply IH; eassumption.
Qed.

Lemma at_index_nth_error {A : Type} (v : list A) (i : nat) (a : A) :
  at_index v i = Ok a -> nth_error v i = Some a.
Proof.
  unfold at_index. destruct (nth_error v i); intros E; inversion E; reflexivity.
Qed.

(** What a visit leaves in the store at index [j]: the radius, area and
    perimeter of the deformed section computed from the entries [j] of the
    input vectors. *)
Lemma visit_dof_stores (c : constants) (E : R) (IMPORT_E : bool)
    (E_branch : nat -> R) (Curv_ : list (list R))
    (Ru hu p_int p_ext : list R) (param param' : ParameterStore)
    (cond_vec cond_vec' : list R) (i j loc : nat) :
  visit_dof c E IMPORT_E E_branch Curv_ Ru hu p_int p_ext (param, cond_vec) (i, j, loc)
  = Ok (param', cond_vec') ->
  exists ru h pin pex : R,
    nth_error Ru j = Some ru /\ nth_error hu j = Some h /\
    nth_error p_int j = Some pin /\ nth_error p_ext j = Some pex /\
    let s := deformed_section c ru h pin pex (Ei_of c E IMPORT_E E_branch i)
               (ComplianceLoop.curvature_of Curv_ i loc) in
    nth_error (R_ param') j = Some (radius s) /\
    nth_error (CSarea_ param') j = Some (area s) /\
    nth_error (CSper_ param') j = Some (per s) /\
    nth_error cond_vec' j = Some (cond s).
Proof.
  unfold visit_dof, replace_section. intros H. split_binds.
  repeat match goal with
  | H : at_index _ _ = Ok _ |- _ => apply at_index_nth_error in H
  | H : update_at _ _ _ = Ok _ |- _ =>
      apply update_at_nth_error in H; destruct H as [? [_ H]]
  | H : deformed_section_at _ _ _ _ _ _ _ _ _ = Ok _ |- _ =>
      apply deformed_section_at_Ok in H; destruct H as [? _]; subst
  end.
  do 4 eexists. repeat (split; [eassumption|]). simpl.
  repeat split; assumption.
Qed.

(** The three fields of a buckled section. *)
Lemma buckled_geometry (c : constants) (Rtmp p_adim : R) :
  radius (buckled c Rtmp p_adim)
  = 15.95 * pow e (-0.545 * p_adim) * Rtmp * Rtmp / (2 * pi c * Rtmp) /\
  per (buckled c Rtmp p_adim) = 2 * pi c * Rtmp /\
  area (buckled c Rtmp p_adim)
  = 15.95 * pow e (-0.545 * (if Rltb p_adim 5 then p_adim else 5)) * Rtmp * Rtmp.
Proof.
  unfold buckled. destruct (Rltb p_adim 5); simpl; repeat split; reflexivity.
Qed.

(** Beyond the limit configuration the radius kept is not the ratio of the
    area kept to the perimeter kept. *)
Lemma buckled_radius_mismatch (c : constants) (Rtmp p_adim : R) :
  pi c <> 0 -> Rtmp <> 0 -> p_adim > 5 ->
  radius (buckled c Rtmp p_adim)
  <> area (buckled c Rtmp p_adim) / per (buckled c Rtmp p_adim).
Proof.
  intros Hpi HR Hp.
  destruct (buckled_geometry c Rtmp p_adim) as [-> [-> ->]].
  rewrite (Rltb_false p_adim 5) by lra.
  pose proof (pow_e_decreasing (-0.545) 5 p_adim ltac:(lra) ltac:(lra)) as Hlt.
  assert (Hper : 2 * pi c * Rtmp <> 0).
  { intros Z. apply Rmult_integral in Z. destruct Z as [Z|Z]; [|contradiction].
    apply Rmult_integral in Z. destruct Z as [Z|Z]; [lra | contradiction]. }
  intros Heq. unfold Rdiv in Heq.
  apply Rmult_eq_reg_r in Heq; [|apply Rinv_neq_0_compat; exact Hper].
  assert (HR2 : 0 < Rtmp * Rtmp) by nra.
  nra.
Qed.

(** Up to the limit configuration it is. *)
Lemma buckled_radius_match (c : constants) (Rtmp p_adim : R) :
  p_adim <= 5 ->
  radius (buckled c Rtmp p_adim)
  = area (buckled c Rtmp p_adim) / per (buckled c Rtmp p_adim).
Proof.
  intros Hp.
  destruct (buckled_geometry c Rtmp p_adim) as [-> [-> ->]].
  unfold Rltb. destruct (Rlt_dec p_adim 5) as [Hlt|Hge]; [reflexivity|].
  replace p_adim with 5 by lra. reflexivity.
Qed.

(** A circular section keeps the geometric radius, twice the ratio of the
    area to the perimeter. *)
Lemma circular_ratio (p R : R) :
  p <> 0 -> R <> 0 -> p * R * R / (2 * p * R) = R / 2.
Proof. intros Hp HR. field. split; assumption. Qed.

(** C9, as stated, fails: the relation "radius = area / perimeter" does not
    hold for the other outcomes of the update.  For an arteriole of
    undeformed radius 1 under no pressure, the update stores the radius 1,
    the area [PI] and the perimeter [2 PI]. *)
Lemma stored_radius_relation_counterexample :
  1 / 1 >= 0.1 /\
  exists param' cond_vec',
    vessel_conductivity_vec unit_constants 1 false (fun _ => 1) [[0; 0]]
      [(0, 0, 0)%nat] {| R_ := [1]; CSarea_ := [PI]; CSper_ := [2 * PI] |}
      [0] [1] [1] [0] [0]
    = Ok (param', cond_vec') /\
    exists r a q : R,
      nth_error (R_ param') 0 = Some r /\
      nth_error (CSarea_ param') 0 = Some a /\
      nth_error (CSper_ param') 0 = Some q /\
      r <> a / q.
Proof.
  split; [lra|].
  do 2 eexists. split.
  - run_visits. reflexivity.
  - do 3 eexists. cbn [R_ CSarea_ CSper_ nth_error].
    repeat (split; [reflexivity|]).
    rewrite deformed_section_arteriole by lra.
    unfold arteriole, Ei_of. cbn [radius area per unit_constants pi nu P_].
    pose proof PI_RGT_0 as Hpi.
    replace (1 * (1 + (1 - 0) / (1 / 1) * ((0 * 1 * 1 - 0 * (1 + 1) * (1 + 1)) /
               ((1 + 1) * (1 + 1) - 1 * 1)) -
             (1 + 0) / (1 / 1) * ((0 - 0) * 1 * 1 * (1 + 1) * (1 + 1) /
               ((1 + 1) * (1 + 1) - 1 * 1)) / 1 / 1)) with 1 by lra.
    replace (PI * 1 * 1 / (2 * PI * 1)) with (1 / 2) by (field; lra).
    lra.
Qed.

(** C9, amended.  After the update of a degree of freedom [j], the store
    holds at [j] a radius [r], an area [a] and a perimeter [q] such that:
    in the buckled-venule regime with [p_adim > 5] (and a non-zero
    undeformed radius) [r <> a / q]; in the buckled-venule regime with
    [p_adim <= 5], [r = a / q]; in the two circular regimes [a / q] is half
    the radius stored (so that [r = a / q] fails there too, unless [r = 0]). *)
Theorem stored_radius_relation :
  forall (c : constants) (E : R) (IMPORT_E : bool) (E_branch : nat -> R)
         (Curv_ : list (list R)) (Ru hu p_int p_ext : list R)
         (param param' : ParameterStore) (cond_vec cond_vec' : list R)
         (i j loc : nat) (ru h pin pex : R),
    visit_dof c E IMPORT_E E_branch Curv_ Ru hu p_int p_ext
      (param, cond_vec) (i, j, loc) = Ok (param', cond_vec') ->
    nth_error Ru j = Some ru -> nth_error hu j = Some h ->
    nth_error p_int j = Some pin -> nth_error p_ext j = Some pex ->
    pi c <> 0 ->
    exists r a q : R,
      nth_error (R_ param') j = Some r /\
      nth_error (CSarea_ param') j = Some a /\
      nth_error (CSper_ param') j = Some q /\
      (h / ru < 0.1 ->
       pex - pin > threshold_of c ru h (Ei_of c E IMPORT_E E_branch i) ->
       ru <> 0 ->
       p_adim_of c ru h pin pex (Ei_of c E IMPORT_E E_branch i) > 5 ->
       r <> a / q) /\
      (h / ru < 0.1 ->
       pex - pin > threshold_of c ru h (Ei_of c E IMPORT_E E_branch i) ->
       p_adim_of c ru h pin pex (Ei_of c E IMPORT_E E_branch i) <= 5 ->
       r = a / q) /\
      (h / ru >= 0.1 \/
       pex - pin <= threshold_of c ru h (Ei_of c E IMPORT_E E_branch i) ->
       r <> 0 ->
       a / q = r / 2).
Proof.
  intros c E IMPORT_E E_branch Curv_ Ru hu p_int p_ext param param'
         cond_vec cond_vec' i j loc ru h pin pex Hv HRu Hhu Hpi Hpe Hpi0.
  destruct (visit_dof_stores _ _ _ _ _ _ _ _ _ _ _ _ _ _ _ _ Hv)
    as [ru' [h' [pin' [pex' [HRu' [Hhu' [Hpi' [Hpe' S]]]]]]]].
  rewrite HRu in HRu'. rewrite Hhu in Hhu'. rewrite Hpi in Hpi'.
  rewrite Hpe in Hpe'.
  inversion HRu'; inversion Hhu'; inversion Hpi'; inversion Hpe'; subst.
  cbv zeta in S. destruct S as [SR [SA [SP _]]].
  do 3 eexists. split; [exact SR|]. split; [exact SA|]. split; [exact SP|].
  set (Ei := Ei_of c E IMPORT_E E_branch i).
  split; [|split].
  - intros Hr Hd Hru Hp.
    rewrite (deformed_section_buckled c _ _ _ _ _ _ Hr Hd).
    apply buckled_radius_mismatch; assumption.
  - intros Hr Hd Hp.
    rewrite (deformed_section_buckled c _ _ _ _ _ _ Hr Hd).
    apply buckled_radius_match; assumption.
  - intros Hreg Hr0.
    destruct (Rge_dec (h' / ru') 0.1) as [Hge|Hlt].
    + rewrite (deformed_section_arteriole c _ _ _ _ _ _ Hge) in *.
      unfold arteriole in *. cbn [radius area per] in *.
      apply circular_ratio; assumption.
    + destruct Hreg as [Hge|Hd]; [contradiction|].
      apply Rnot_ge_lt in Hlt.
      rewrite (deformed_section_venule_circular c _ _ _ _ _ _ Hlt Hd) in *.
      unfold venule_circular in *. cbn [radius area per] in *.
      apply circular_ratio; assumption.
Qed.

Lemma stored_radius_relation_witness :
  exists param' cond_vec',
    visit_dof unit_constants 1 false (fun _ => 1) [[0; 0]]
      [100] [1] [0] [1]
      ({| R_ := [100]; CSarea_ := [0]; CSper_ := [0] |}, [0]) (0, 0, 0)%nat
    = Ok (param', cond_vec') /\
    exists r a q : R,
      nth_error (R_ param') 0 = Some r /\
      nth_error (CSarea_ param') 0 = Some a /\
      nth_error (CSper_ param') 0 = Some q /\
      r <> a / q.
Proof.
  assert (Hv : exists param' cond_vec',
             visit_dof unit_constants 1 false (fun _ => 1) [[0; 0]]
               [100] [1] [0] [1]
               ({| R_ := [100]; CSarea_ := [0]; CSper_ := [0] |}, [0])
               (0, 0, 0)%nat
             = Ok (param', cond_vec')).
  { do 2 eexists. run_visits. reflexivity. }
  destruct Hv as [param' [cond_vec' Hv]].
  exists param', cond_vec'. split; [exact Hv|].
  destruct (stored_radius_relation unit_constants 1 false (fun _ => 1)
              [[0; 0]] [100] [1] [0] [1]
              {| R_ := [100]; CSarea_ := [0]; CSper_ := [0] |} param' [0]
              cond_vec' 0%nat 0%nat 0%nat 100 1 0 1
              Hv eq_refl eq_refl eq_refl eq_refl PI_neq0)
    as [r [a [q [HR [HA [HQ [Hneq _]]]]]]].
  exists r, a, q. split; [exact HR|]. split; [exact HA|]. split; [exact HQ|].
  apply Hneq.
  - lra.
  - unfold threshold_of, Ei_of; simpl; lra.
  - lra.
  - unfold p_adim_of, Ei_of; simpl; lra.
Defined.

End StoredGeometryClaim.

(* ================================================================== *)
(** * The relaxed solve and the residual *)

Section VectorFacts.

Import FixedPoint.
Local Open Scope R_scope.

(** [gmm::add] on vectors of the same size. *)
Lemma add_same_length :
  forall v1 v2 : vector,
    List.length v1 = List.length v2 ->
    add v1 v2 = Ok (map (fun yx => fst yx + snd yx) (combine v2 v1)).
Proof.
  induction v1 as [|x v1 IH]; intros [|y v2] Hlen; simpl in *;
    try discriminate; try reflexivity.
  rewrite IH by lia. reflexivity.
Qed.

Lemma scale_length (v : vector) (a : R) : List.length (scale v a) = List.length v.
Proof. unfold scale. apply length_map. Qed.

Lemma copy_same_length (v : vector) : copy v (List.length v) = Ok v.
Proof. unfold copy. rewrite Nat.eqb_refl. reflexivity. Qed.

(** The relaxed combination computed by [scale], [scale], [add]. *)
Lemma combine_scaled (alfa : R) :
  forall solved old : vector,
    map (fun yx => fst yx + snd yx)
        (combine (scale solved alfa) (scale old (1 - alfa)))
    = relaxed alfa solved old.
Proof.
  unfold relaxed, scale.
  induction solved as [|s solved IH]; intros old; [reflexivity|].
  destruct old as [|o old]; [reflexivity|].
  cbn [map combine fst snd]. rewrite IH. f_equal. ring.
Qed.

Lemma add_scaled (alfa : R) (solved old : vector) :
  List.length old = List.length solved ->
  add (scale old (1 - alfa)) (scale solved alfa) = Ok (relaxed alfa solved old).
Proof.
  intros Hlen.
  rewrite add_same_length by (rewrite !scale_length; exact Hlen).
  rewrite combine_scaled. reflexivity.
Qed.

Lemma relaxed_one :
  forall solved old : vector,
    List.length old = List.length solved -> relaxed 1 solved old = solved.
Proof.
  unfold relaxed.
  induction solved as [|s solved IH]; intros [|o old] Hlen;
    try discriminate; [reflexivity|].
  cbn [map combine fst snd]. rewrite IH by (simpl in Hlen; lia). f_equal. ring.
Qed.

Lemma relaxed_length (alfa : R) :
  forall solved old : vector,
    List.length old = List.length solved ->
    List.length (relaxed alfa solved old) = List.length solved.
Proof.
  intros solved old Hlen. unfold relaxed.
  rewrite length_map, length_combine. lia.
Qed.

(** The norm of the null vector, and of its opposite, is zero. *)
Lemma sum_squares_null (a : R) :
  forall n : nat,
    fold_left (fun acc x => acc + x * x) (scale (repeat 0 n) a) 0 = 0.
Proof.
  induction n as [|n IH]; simpl; [reflexivity|].
  replace (0 + 0 * a * (0 * a)) with 0 by ring. exact IH.
Qed.

Lemma vect_norm2_null (a : R) (n : nat) : vect_norm2 (scale (repeat 0 n) a) = 0.
Proof. unfold vect_norm2. rewrite sum_squares_null. apply sqrt_0. Qed.

End VectorFacts.

Section SolverFacts.

Import FixedPoint.
Local Open Scope R_scope.

Variable matrix : Type.
Variable clean : matrix -> matrix.
Variable SuperLU_solve : matrix -> vector -> vector.
Variable underH : R.
Variable H : nat.

Local Abbreviation isolve := (iteration_solve clean SuperLU_solve underH).

(** The relaxed solve on vectors of matching sizes. *)
Lemma iteration_solve_value (AM : matrix) (U_O F_N : vector) :
  List.length U_O = List.length (SuperLU_solve (clean AM) F_N) ->
  isolve AM U_O F_N
  = Ok (relaxed underH (SuperLU_solve (clean AM) F_N) U_O, clean AM).
Proof.
  intros Hlen. unfold iteration_solve, Reqb.
  destruct (Req_dec_T underH 1) as [E1|N1]; simpl.
  - rewrite E1, relaxed_one by exact Hlen. reflexivity.
  - rewrite add_scaled by exact Hlen. reflexivity.
Qed.

(** Without relaxation the solution of the linear system is returned as
    it is, whatever the sizes. *)
Lemma iteration_solve_no_relaxation (AM : matrix) (U_O F_N : vector) :
  underH = 1 ->
  isolve AM U_O F_N = Ok (SuperLU_solve (clean AM) F_N, clean AM).
Proof.
  intros E1. unfold iteration_solve. rewrite (Reqb_true _ _ E1). reflexivity.
Qed.

(** The residual on vectors of size [H]. *)
Lemma calcolo_Rk_value (U_N U_O : vector) :
  List.length U_N = H -> List.length U_O = H ->
  calcolo_Rk H U_N U_O
  = Ok (fdiv (vect_norm2 (map (fun yx => fst yx + snd yx)
                            (combine U_N (scale U_O (-1)))))
             (vect_norm2 (scale U_O (-1)))).
Proof.
  intros HN HO. unfold calcolo_Rk, copy.
  rewrite HN, HO, Nat.eqb_refl. simpl.
  rewrite add_same_length by (rewrite scale_length; lia).
  reflexivity.
Qed.

End SolverFacts.

Section DegeneracyClaim.

Import FixedPoint.
Local Open Scope R_scope.

Lemma fdiv_by_zero_not_finite (x : R) : is_finite (fdiv x 0) = false.
Proof.
  unfold fdiv. rewrite (Reqb_true 0 0 eq_refl).
  destruct (Rgtb x 0); [reflexivity|]. destruct (Rltb x 0); reflexivity.
Qed.

(** C6 holds for the viscosity and fails for the hematocrit residual.  A
    hematocrit exactly zero gives the plasma viscosity, with either
    correlation; the mass residual is left at [0] when the total flow rate
    is zero; but [calcolo_Rk] divides by the norm of the old iterate
    without a test: with a null old iterate the residual is never finite
    ([+Inf] against the new iterate [1], NaN against the new iterate [0]),
    and a NaN residual passes the convergence test. *)
Theorem zero_norm_residual_not_guarded :
  (forall (vivo vitro : R -> R -> R -> R) (R_muu dim mu_plasma : R),
     local_viscosity vivo vitro 0 0 R_muu dim mu_plasma = mu_plasma /\
     local_viscosity vivo vitro 1 0 R_muu dim mu_plasma = mu_plasma) /\
  (forall U_N : vector,
     exists v : scalar_value,
       calcolo_Rk (List.length U_N) U_N (repeat 0 (List.length U_N)) = Ok v /\
       is_finite v = false) /\
  calcolo_Rk 1 [1] [0] = Ok PlusInf /\
  calcolo_Rk 1 [0] [0] = Ok NaN /\
  (forall eps : R, fgt NaN eps = false).
Proof.
  split; [|split; [|split; [|split]]].
  - intros vivo vitro R_muu dim mu_plasma. unfold local_viscosity.
    rewrite (Reqb_true 0 0 eq_refl). split; reflexivity.
  - intros U_N. eexists. split.
    + apply calcolo_Rk_value; [reflexivity | apply repeat_length].
    + rewrite vect_norm2_null. apply fdiv_by_zero_not_finite.
  - rewrite (calcolo_Rk_value 1 [1] [0] eq_refl eq_refl).
    unfold vect_norm2, scale. simpl.
    replace (0 + (1 + 0 * -1) * (1 + 0 * -1)) with 1 by ring.
    replace (0 + 0 * -1 * (0 * -1)) with 0 by ring.
    rewrite sqrt_1, sqrt_0. unfold fdiv.
    rewrite (Reqb_true 0 0 eq_refl), (Rgtb_true 1 0) by lra. reflexivity.
  - rewrite (calcolo_Rk_value 1 [0] [0] eq_refl eq_refl).
    unfold vect_norm2, scale. simpl.
    replace (0 + (0 + 0 * -1) * (0 + 0 * -1)) with 0 by ring.
    replace (0 + 0 * -1 * (0 * -1)) with 0 by ring.
    rewrite sqrt_0. unfold fdiv.
    rewrite (Reqb_true 0 0 eq_refl), (Rgtb_false 0 0), (Rltb_false 0 0) by lra.
    reflexivity.
  - intros eps. reflexivity.
Qed.

End DegeneracyClaim.

(* ================================================================== *)
(** * The topology builder: bookkeeping of junctions and regions *)

Section BuilderInvariants.

Import Topology Properties Invariants.

Variable M : mesh.
Variable nb_branches : nat.
Variable R_branch : nat -> R.

Lemma update_at_map {A B : Type} (g : A -> B) (f : A -> A) :
  (forall a, g (f a) = g a) ->
  forall (v : list A) (i : nat) (v' : list A),
    update_at f i v = Ok v' -> map g v' = map g v.
Proof.
  intros Hg. induction v as [|a v IH]; intros i v' E; simpl in E; [discriminate|].
  destruct i as [|i].
  - inversion E; subst. simpl. rewrite Hg. reflexivity.
  - apply bind_Ok in E. destruct E as [w [Ew E]]. inversion E; subst.
    simpl. f_equal. eapply IH; eassumption.
Qed.

Lemma update_back_map {A B : Type} (g : A -> B) (f : A -> A) :
  (forall a, g (f a) = g a) ->
  forall v v' : list A, update_back f v = Ok v' -> map g v' = map g v.
Proof. intros Hg v v'. unfold update_back. apply update_at_map. exact Hg. Qed.

Lemma not_in_junctions (i : nat) (l : list nat) :
  negb (existsb (Nat.eqb i) l) = true -> ~ In i l.
Proof.
  intros H Hin. apply negb_true_iff in H.
  assert (T : existsb (Nat.eqb i) l = true).
  { apply existsb_exists. exists i. split; [exact Hin | apply Nat.eqb_refl]. }
  congruence.
Qed.

Lemma bookkeeping_new_junction (i r : nat) (l : string) (s : state) :
  junction_bookkeeping s -> ~ In i (junctions s) ->
  map idx (Jv_HT s ++ [new_node l 0 i r]) = junctions s ++ [i] /\
  S (nb_junctions s) = List.length (Jv_HT s ++ [new_node l 0 i r]) /\
  NoDup (junctions s ++ [i]).
Proof.
  intros [Hi [Hn Hd]] Hnot. split; [|split].
  - rewrite map_app, Hi. reflexivity.
  - rewrite length_app, Hn. simpl. lia.
  - apply NoDup_app; [exact Hd | constructor; [intros [] | constructor] |].
    intros a Ha [<-|[]]. contradiction.
Qed.

Lemma first_endpoint_bookkeeping (cv i0 : nat) (s s' : state) :
  junction_bookkeeping s ->
  first_endpoint M nb_branches R_branch cv i0 s = Ok s' ->
  junction_bookkeeping s'.
Proof.
  intros Hs E. unfold first_endpoint in E.
  destruct (List.length (convex_to_point M i0) =? 1).
  - split_binds. apply new_face_region_Ok in Ha. subst a. simpl in E.
    destruct (find_node _ _ _) as [bc found]. split_binds. simpl in E.
    destruct (find_branch _ _ _) as [branch contained]. split_binds.
    exact Hs.
  - destruct (List.length (convex_to_point M i0) =? 2).
    { inversion E; subst; exact Hs. }
    destruct (2 <=? List.length (convex_to_point M i0)).
    2:{ inversion E; subst; exact Hs. }
    split_binds.
    assert (Ha' : junction_bookkeeping a).
    { destruct (negb (existsb (Nat.eqb i0) (junctions s))) eqn:Enew.
      - split_binds. apply new_face_region_Ok in Ha0. subst a0.
        unfold junction_bookkeeping. simpl.
        apply bookkeeping_new_junction;
          [exact Hs | apply not_in_junctions; exact Enew].
      - inversion Ha; subst; exact Hs. }
    destruct (find_branch _ a cv) as [branch contained]. split_binds.
    destruct (find_node _ _ _) as [jj found]. split_binds.
    destruct Ha' as [Hi [Hn Hd]].
    pose proof (update_at_twice _ _ _ _ Ha1 Ha2) as U.
    unfold junction_bookkeeping. simpl. split; [|split].
    + pose proof (fun Hg => update_at_map idx _ Hg _ _ _ U) as Hm.
      rewrite Hm by (intros; reflexivity). exact Hi.
    + rewrite (@update_at_length _ _ _ _ _ U). exact Hn.
    + exact Hd.
Qed.

Lemma bookkeeping_updates (s : state) (js : list node) :
  junction_bookkeeping s ->
  map idx js = map idx (Jv_HT s) ->
  List.length js = List.length (Jv_HT s) ->
  junction_bookkeeping (set_Jv_HT js s).
Proof.
  intros [Hi [Hn Hd]] Hm Hl. unfold junction_bookkeeping. simpl.
  rewrite Hm, Hl. auto.
Qed.

Lemma idx_add_value (r : R) (n : node) : idx (add_value r n) = idx n.
Proof. reflexivity. Qed.

Lemma idx_push_branch (b : Z) (n : node) : idx (push_branch b n) = idx n.
Proof. reflexivity. Qed.

Lemma second_endpoint_bookkeeping (cv i1 : nat) (s s' : state) :
  junction_bookkeeping s ->
  second_endpoint M nb_branches R_branch cv i1 s = Ok s' ->
  junction_bookkeeping s'.
Proof.
  intros Hs E. unfold second_endpoint in E.
  destruct (List.length (convex_to_point M i1) =? 1).
  - destruct (find_node _ _ _) as [bc [|]].
    + split_binds. apply new_face_region_Ok in Ha. subst a. simpl in E.
      destruct (find_branch _ _ _) as [branch contained]. split_binds.
      exact Hs.
    + split_binds. apply new_face_region_Ok in Ha. subst a. simpl in E.
      destruct (find_branch _ _ _) as [branch contained]. split_binds.
      exact Hs.
  - destruct (List.length (convex_to_point M i1) =? 2).
    + destruct (find_branch _ s cv) as [firstbranch contained]. split_binds.
      destruct (negb _ || negb _); [|inversion E; subst; exact Hs].
      destruct (negb (existsb (Nat.eqb i1) (junctions s))) eqn:Enew;
        [|inversion E; subst; exact Hs].
      split_binds.
      match goal with
      | H : new_face_region _ _ _ = Ok _ |- _ =>
          apply new_face_region_Ok in H; subst
      end.
      simpl in E.
      destruct (search _ _ _) as [secondbranch contained2]. split_binds.
      repeat match goal with
      | H : update_back _ (_ ++ [_]) = Ok _ |- _ =>
          rewrite update_back_last in H; inversion H; subst; clear H
      end.
      unfold junction_bookkeeping. simpl.
      destruct (bookkeeping_new_junction i1 (fer s) "JUN" s Hs
                  (not_in_junctions _ _ Enew)) as [Hi [Hn Hd]].
      rewrite map_app in *. rewrite length_app in *. simpl in *. auto.
    + destruct (2 <=? List.length (convex_to_point M i1));
        [|inversion E; subst; exact Hs].
      destruct (find_branch _ s cv) as [branch contained]. split_binds.
      destruct (negb (existsb (Nat.eqb i1) (junctions s))) eqn:Enew.
      * split_binds.
        match goal with
        | H : new_face_region _ _ _ = Ok _ |- _ =>
            apply new_face_region_Ok in H; subst
        end.
        simpl in *.
        repeat match goal with
        | H : update_back _ (_ ++ [_]) = Ok _ |- _ =>
            rewrite update_back_last in H; inversion H; subst; clear H
        end.
        unfold junction_bookkeeping. simpl.
        destruct (bookkeeping_new_junction i1 (fer s) "JUN" s Hs
                    (not_in_junctions _ _ Enew)) as [Hi [Hn Hd]].
        rewrite map_app in *. rewrite length_app in *. simpl in *. auto.
      * destruct (find_node _ _ _) as [jj found]. split_binds.
        match goal with
        | H1 : update_at _ jj (Jv_HT s) = Ok ?x, H2 : update_at _ jj ?x = Ok _ |- _ =>
            pose proof (update_at_twice _ _ _ _ H1 H2) as U
        end.
        apply bookkeeping_updates; [exact Hs | |].
        -- pose proof (fun Hg => update_at_map idx _ Hg _ _ _ U) as Hm.
           apply Hm. intros; reflexivity.
        -- exact (@update_at_length _ _ _ _ _ U).
Qed.

Lemma check_structure_bookkeeping (cv : nat) (s : state) :
  junction_bookkeeping s -> junction_bookkeeping (check_structure M cv s).
Proof.
  unfold check_structure.
  destruct (2 <? nb_points _); destruct (2 <? nb_faces _); intros H; exact H.
Qed.

Lemma step_bookkeeping (cv : nat) (s s' : state) :
  junction_bookkeeping s ->
  step M nb_branches R_branch s cv = Ok s' ->
  junction_bookkeeping s'.
Proof.
  intros Hs E. unfold step in E. split_binds.
  eapply second_endpoint_bookkeeping; [|exact E].
  eapply first_endpoint_bookkeeping; [|eassumption].
  apply check_structure_bookkeeping. exact Hs.
Qed.

Lemma convexes_loop_bookkeeping (cvs : list nat) :
  forall s s' : state,
    junction_bookkeeping s ->
    convexes_loop M nb_branches R_branch cvs s = Ok s' ->
    junction_bookkeeping s'.
Proof.
  induction cvs as [|cv cvs IH]; intros s s' Hs E; simpl in E.
  - inversion E; subst; exact Hs.
  - split_binds. eapply IH; [|exact E]. eapply step_bookkeeping; eassumption.
Qed.

(** ** Junction records are never left without a branch *)

Lemma search_result (p : nat -> bool) :
  forall n k j (b : bool),
    search p n k = (j, b) ->
    if b then p j = true /\ (k <= j < k + n)%nat else j = (k + n)%nat.
Proof.
  induction n as [|n IH]; intros k j b E; simpl in E.
  - inversion E; subst. lia.
  - destruct (p k) eqn:Ep.
    + inversion E; subst. split; [exact Ep | lia].
    + specialize (IH _ _ _ E). destruct b; [|lia].
      destruct IH as [Hp Hr]. split; [exact Hp | lia].
Qed.

Lemma update_at_in_range {A : Type} (f : A -> A) (v v' : list A) (i : nat) :
  update_at f i v = Ok v' -> (i < List.length v)%nat.
Proof.
  intros E. destruct (update_at_nth_error f _ _ _ E) as [a [Ha _]].
  apply nth_error_Some. congruence.
Qed.

Lemma has_branch_push (b : Z) (n : node) : has_branch (push_branch b n).
Proof. unfold has_branch. simpl. intros E. apply app_eq_nil in E. destruct E; discriminate. Qed.

Lemma has_branch_add (r : R) (n : node) : has_branch n -> has_branch (add_value r n).
Proof. intros H; exact H. Qed.

(** The record found for a vertex that has just been stored is the last. *)
Lemma find_new_junction (i r jj : nat) (found : bool) (s : state) :
  junction_bookkeeping s -> ~ In i (junctions s) ->
  find_node i (Jv_HT s ++ [new_node "JUN" 0 i r]) (S (nb_junctions s)) = (jj, found) ->
  (jj < List.length (Jv_HT s ++ [new_node "JUN" 0 i r]))%nat ->
  jj = List.length (Jv_HT s).
Proof.
  intros [Hi [Hn Hd]] Hnot E Hlt. unfold find_node in E.
  apply search_result in E. rewrite length_app in Hlt. simpl in Hlt.
  destruct found; [|lia].
  destruct E as [Hp _].
  destruct (Nat.lt_ge_cases jj (List.length (Jv_HT s))) as [Hold|Hge]; [|lia].
  exfalso. rewrite nth_error_app1 in Hp by exact Hold.
  destruct (nth_error (Jv_HT s) jj) as [nd|] eqn:En; [|discriminate].
  apply Nat.eqb_eq in Hp. apply Hnot. rewrite <- Hi, Hp.
  apply in_map. eapply nth_error_In; eassumption.
Qed.

Lemma first_endpoint_has_branch (cv i0 : nat) (s s' : state) :
  junction_bookkeeping s ->
  Forall has_branch (Jv_HT s) ->
  first_endpoint M nb_branches R_branch cv i0 s = Ok s' ->
  Forall has_branch (Jv_HT s').
Proof.
  intros Hb Hs E. unfold first_endpoint in E.
  destruct (List.length (convex_to_point M i0) =? 1).
  - split_binds. apply new_face_region_Ok in Ha. subst a. simpl in E.
    destruct (find_node _ _ _) as [bc found]. split_binds. simpl in E.
    destruct (find_branch _ _ _) as [branch contained]. split_binds.
    exact Hs.
  - destruct (List.length (convex_to_point M i0) =? 2).
    { inversion E; subst; exact Hs. }
    destruct (2 <=? List.length (convex_to_point M i0)).
    2:{ inversion E; subst; exact Hs. }
    destruct (negb (existsb (Nat.eqb i0) (junctions s))) eqn:Enew.
    + unfold new_face_region in E. split_binds. simpl in E.
      destruct (find_branch _ _ cv) as [branch contained]. split_binds.
      simpl in E.
      destruct (find_node _ _ _) as [jj found] eqn:Ef. split_binds.
      match goal with
      | H1 : update_at _ jj _ = Ok ?x, H2 : update_at _ jj ?x = Ok _ |- _ =>
          pose proof (update_at_twice _ _ _ _ H1 H2) as U;
          pose proof (update_at_in_range _ _ _ _ H1) as Hlt
      end.
      simpl in U, Hlt |- *.
      rewrite (find_new_junction _ _ _ _ _ Hb (not_in_junctions _ _ Enew) Ef Hlt) in U.
      rewrite update_at_last in U. inversion U; subst.
      apply Forall_app. split; [exact Hs|].
      constructor; [apply has_branch_push | constructor].
    + split_binds.
      destruct (find_branch _ _ cv) as [branch contained]. split_binds.
      destruct (find_node _ _ _) as [jj found]. split_binds.
      match goal with
      | H1 : update_at _ jj _ = Ok ?x, H2 : update_at _ jj ?x = Ok _ |- _ =>
          pose proof (update_at_twice _ _ _ _ H1 H2) as U
      end.
      simpl. eapply update_at_Forall; [| exact U | exact Hs].
      intros n _. apply has_branch_push.
Qed.

Lemma second_endpoint_has_branch (cv i1 : nat) (s s' : state) :
  Forall has_branch (Jv_HT s) ->
  second_endpoint M nb_branches R_branch cv i1 s = Ok s' ->
  Forall has_branch (Jv_HT s').
Proof.
  intros Hs E. unfold second_endpoint in E.
  destruct (List.length (convex_to_point M i1) =? 1).
  - destruct (find_node _ _ _) as [bc [|]].
    + split_binds. apply new_face_region_Ok in Ha. subst a. simpl in E.
      destruct (find_branch _ _ _) as [branch contained]. split_binds.
      exact Hs.
    + split_binds. apply new_face_region_Ok in Ha. subst a. simpl in E.
      destruct (find_branch _ _ _) as [branch contained]. split_binds.
      exact Hs.
  - destruct (List.length (convex_to_point M i1) =? 2).
    + destruct (find_branch _ s cv) as [firstbranch contained]. split_binds.
      destruct (negb _ || negb _); [|inversion E; subst; exact Hs].
      destruct (negb (existsb (Nat.eqb i1) (junctions s)));
        [|inversion E; subst; exact Hs].
      split_binds.
      match goal with
      | H : new_face_region _ _ _ = Ok _ |- _ =>
          apply new_face_region_Ok in H; subst
      end.
      simpl in E.
      destruct (search _ _ _) as [secondbranch contained2]. split_binds.
      repeat match goal with
      | H : update_back _ (_ ++ [_]) = Ok _ |- _ =>
          rewrite update_back_last in H; inversion H; subst; clear H
      end.
      simpl. apply Forall_app. split; [exact Hs|].
      constructor; [|constructor].
      unfold has_branch. simpl. discriminate.
    + destruct (2 <=? List.length (convex_to_point M i1));
        [|inversion E; subst; exact Hs].
      destruct (find_branch _ s cv) as [branch contained]. split_binds.
      destruct (negb (existsb (Nat.eqb i1) (junctions s))).
      * split_binds.
        match goal with
        | H : new_face_region _ _ _ = Ok _ |- _ =>
            apply new_face_region_Ok in H; subst
        end.
        simpl in *.
        repeat match goal with
        | H : update_back _ (_ ++ [_]) = Ok _ |- _ =>
            rewrite update_back_last in H; inversion H; subst; clear H
        end.
        apply Forall_app. split; [exact Hs|].
        constructor; [|constructor].
        unfold has_branch. simpl. discriminate.
      * destruct (find_node _ _ _) as [jj found]. split_binds.
        match goal with
        | H1 : update_at _ jj _ = Ok ?x, H2 : update_at _ jj ?x = Ok _ |- _ =>
            pose proof (update_at_twice _ _ _ _ H1 H2) as U
        end.
        simpl. eapply update_at_Forall; [| exact U | exact Hs].
        intros n _. apply has_branch_add, has_branch_push.
Qed.

Lemma convexes_loop_junctions (cvs : list nat) :
  forall s s' : state,
    junction_bookkeeping s -> Forall has_branch (Jv_HT s) ->
    convexes_loop M nb_branches R_branch cvs s = Ok s' ->
    junction_bookkeeping s' /\ Forall has_branch (Jv_HT s').
Proof.
  induction cvs as [|cv cvs IH]; intros s s' Hb Hs E; simpl in E.
  - inversion E; subst. split; assumption.
  - split_binds. eapply IH; [| |exact E].
    + eapply step_bookkeeping; eassumption.
    + unfold step in Ha. split_binds.
      eapply second_endpoint_has_branch; [|eassumption].
      eapply first_endpoint_has_branch; [| |eassumption].
      * apply check_structure_bookkeeping. exact Hb.
      * rewrite check_structure_Jv. exact Hs.
Qed.

(** ** Every region index goes to one record *)

Lemma sorted_snoc (l : list nat) (x : nat) :
  StronglySorted lt l -> Forall (fun r => (r < x)%nat) l ->
  StronglySorted lt (l ++ [x]).
Proof.
  induction l as [|a l IH]; intros Hs Hf; simpl.
  - constructor; constructor.
  - inversion Hs; subst. inversion Hf; subst.
    constructor; [apply IH; assumption|].
    apply Forall_app. split; [assumption | constructor; [assumption | constructor]].
Qed.

(** The state after one more record of each kind. *)
Lemma accounting_extremum (n0 : nat) (s : state) (rm : region_map)
    (bcs : list node) (ex : list nat) :
  region_accounting nb_branches n0 s ->
  List.length bcs = List.length (BCv_HT s) ->
  region_accounting nb_branches n0
    (mk_state rm bcs (Jv_HT s) (junctions s) ex
       (S (nb_extrema s)) (nb_junctions s) (S (fer s)) (cerr s)).
Proof.
  intros [Hn [Hf [Hr Hs]]] Hl. unfold region_accounting. simpl.
  rewrite Hl. split; [exact Hn|]. split; [lia|]. split; [|exact Hs].
  eapply Forall_impl; [|exact Hr]. simpl. intros r Hr'. lia.
Qed.

Lemma accounting_mixed (n0 : nat) (s : state) (rm : region_map)
    (bcs : list node) :
  region_accounting nb_branches n0 s ->
  List.length bcs = S (List.length (BCv_HT s)) ->
  region_accounting nb_branches n0
    (mk_state rm bcs (Jv_HT s) (junctions s) (extrema s)
       (nb_extrema s) (nb_junctions s) (S (fer s)) (cerr s)).
Proof.
  intros [Hn [Hf [Hr Hs]]] Hl. unfold region_accounting. simpl.
  rewrite Hl. split; [lia|]. split; [lia|]. split; [|exact Hs].
  eapply Forall_impl; [|exact Hr]. simpl. intros r Hr'. lia.
Qed.

Lemma accounting_junction (n0 : nat) (s : state) (rm : region_map)
    (js : list node) (ju : list nat) :
  region_accounting nb_branches n0 s ->
  map rg js = map rg (Jv_HT s) ++ [fer s] ->
  region_accounting nb_branches n0
    (mk_state rm (BCv_HT s) js ju (extrema s)
       (nb_extrema s) (S (nb_junctions s)) (S (fer s)) (cerr s)).
Proof.
  intros [Hn [Hf [Hr Hs]]] Hm. unfold region_accounting. simpl.
  rewrite Hm. split; [exact Hn|]. split; [lia|]. split.
  - apply Forall_app. split.
    + eapply Forall_impl; [|exact Hr]. simpl. intros r Hr'. lia.
    + constructor; [lia | constructor].
  - apply sorted_snoc; [exact Hs|].
    eapply Forall_impl; [|exact Hr]. simpl. intros r Hr'. lia.
Qed.

Lemma accounting_updates (n0 : nat) (s : state) (js : list node) :
  region_accounting nb_branches n0 s ->
  map rg js = map rg (Jv_HT s) ->
  region_accounting nb_branches n0 (set_Jv_HT js s).
Proof.
  intros [Hn [Hf [Hr Hs]]] Hm. unfold region_accounting. simpl.
  rewrite Hm. auto.
Qed.

(** Rewrites a state built with the setters as one application of the
    constructor. *)
Ltac normalize_state :=
  cbv [set_BCv_HT set_fer set_regions set_Jv_HT add_extremum add_junction];
  cbn [regions BCv_HT Jv_HT junctions extrema nb_extrema nb_junctions fer cerr].

Lemma first_endpoint_accounting (n0 cv i0 : nat) (s s' : state) :
  region_accounting nb_branches n0 s ->
  first_endpoint M nb_branches R_branch cv i0 s = Ok s' ->
  region_accounting nb_branches n0 s'.
Proof.
  intros Hs E. unfold first_endpoint in E.
  destruct (List.length (convex_to_point M i0) =? 1).
  - split_binds. apply new_face_region_Ok in Ha. subst a. simpl in E.
    destruct (find_node _ _ _) as [bc found]. split_binds. simpl in E.
    destruct (find_branch _ _ _) as [branch contained]. split_binds.
    normalize_state. apply (accounting_extremum n0 s); [exact Hs|].
    repeat match goal with
    | H : update_at _ _ _ = Ok _ |- _ =>
        apply update_at_length in H; simpl in H
    end.
    congruence.
  - destruct (List.length (convex_to_point M i0) =? 2).
    { inversion E; subst; exact Hs. }
    destruct (2 <=? List.length (convex_to_point M i0)).
    2:{ inversion E; subst; exact Hs. }
    split_binds.
    destruct (find_branch _ a cv) as [branch contained]. split_binds.
    destruct (find_node _ _ _) as [jj found]. split_binds.
    match goal with
    | H1 : update_at _ jj _ = Ok ?x, H2 : update_at _ jj ?x = Ok _ |- _ =>
        pose proof (update_at_twice _ _ _ _ H1 H2) as U
    end.
    pose proof (fun Hg => update_at_map rg _ Hg _ _ _ U) as Hm.
    specialize (Hm ltac:(intros; reflexivity)).
    apply accounting_updates; [|exact Hm].
    destruct (negb (existsb (Nat.eqb i0) (junctions s))).
    + split_binds.
      match goal with
      | H : new_face_region _ _ _ = Ok _ |- _ =>
          apply new_face_region_Ok in H; subst
      end.
      normalize_state. apply (accounting_junction n0 s); [exact Hs|].
      rewrite map_app. reflexivity.
    + inversion Ha; subst; exact Hs.
Qed.

Lemma update_back_length {A : Type} (f : A -> A) (v v' : list A) :
  update_back f v = Ok v' -> List.length v' = List.length v.
Proof. unfold update_back. apply update_at_length. Qed.

Lemma second_endpoint_accounting (n0 cv i1 : nat) (s s' : state) :
  region_accounting nb_branches n0 s ->
  second_endpoint M nb_branches R_branch cv i1 s = Ok s' ->
  region_accounting nb_branches n0 s'.
Proof.
  intros Hs E. unfold second_endpoint in E.
  destruct (List.length (convex_to_point M i1) =? 1).
  - destruct (find_node _ _ _) as [bc [|]].
    + split_binds. apply new_face_region_Ok in Ha. subst a. simpl in E.
      destruct (find_branch _ _ _) as [branch contained]. split_binds.
      normalize_state. apply (accounting_extremum n0 s); [exact Hs|].
      repeat match goal with
      | H : update_at _ _ _ = Ok _ |- _ =>
          apply update_at_length in H; simpl in H
      end.
      congruence.
    + split_binds. apply new_face_region_Ok in Ha. subst a. simpl in E.
      destruct (find_branch _ _ _) as [branch contained]. split_binds.
      normalize_state. apply (accounting_mixed n0 s); [exact Hs|].
      match goal with
      | H : update_back _ _ = Ok _ |- _ =>
          apply update_back_length in H; rewrite H
      end.
      rewrite length_app. simpl. lia.
  - destruct (List.length (convex_to_point M i1) =? 2).
    + destruct (find_branch _ s cv) as [firstbranch contained]. split_binds.
      destruct (negb _ || negb _); [|inversion E; subst; exact Hs].
      destruct (negb (existsb (Nat.eqb i1) (junctions s)));
        [|inversion E; subst; exact Hs].
      split_binds.
      match goal with
      | H : new_face_region _ _ _ = Ok _ |- _ =>
          apply new_face_region_Ok in H; subst
      end.
      simpl in E.
      destruct (search _ _ _) as [secondbranch contained2]. split_binds.
      repeat match goal with
      | H : update_back _ (_ ++ [_]) = Ok _ |- _ =>
          rewrite update_back_last in H; inversion H; subst; clear H
      end.
      normalize_state. apply (accounting_junction n0 s); [exact Hs|].
      rewrite map_app. reflexivity.
    + destruct (2 <=? List.length (convex_to_point M i1));
        [|inversion E; subst; exact Hs].
      destruct (find_branch _ s cv) as [branch contained]. split_binds.
      destruct (negb (existsb (Nat.eqb i1) (junctions s))).
      * split_binds.
        match goal with
        | H : new_face_region _ _ _ = Ok _ |- _ =>
            apply new_face_region_Ok in H; subst
        end.
        simpl in *.
        repeat match goal with
        | H : update_back _ (_ ++ [_]) = Ok _ |- _ =>
            rewrite update_back_last in H; inversion H; subst; clear H
        end.
        normalize_state. apply (accounting_junction n0 s); [exact Hs|].
        rewrite map_app. reflexivity.
      * destruct (find_node _ _ _) as [jj found]. split_binds.
        match goal with
        | H1 : update_at _ jj _ = Ok ?x, H2 : update_at _ jj ?x = Ok _ |- _ =>
            pose proof (update_at_twice _ _ _ _ H1 H2) as U
        end.
        pose proof (fun Hg => update_at_map rg _ Hg _ _ _ U) as Hm.
        apply accounting_updates; [exact Hs|].
        apply Hm. intros; reflexivity.
Qed.

Lemma check_structure_accounting (n0 cv : nat) (s : state) :
  region_accounting nb_branches n0 s ->
  region_accounting nb_branches n0 (check_structure M cv s).
Proof.
  unfold check_structure.
  destruct (2 <? nb_points _); destruct (2 <? nb_faces _); intros H; exact H.
Qed.

Lemma convexes_loop_accounting (n0 : nat) (cvs : list nat) :
  forall s s' : state,
    region_accounting nb_branches n0 s ->
    convexes_loop M nb_branches R_branch cvs s = Ok s' ->
    region_accounting nb_branches n0 s'.
Proof.
  induction cvs as [|cv cvs IH]; intros s s' Hs E; simpl in E.
  - inversion E; subst; exact Hs.
  - split_binds. eapply IH; [|exact E].
    unfold step in Ha. split_binds.
    eapply second_endpoint_accounting; [|eassumption].
    eapply first_endpoint_accounting; [|eassumption].
    apply check_structure_accounting. exact Hs.
Qed.

(** ** The boundary nodes given are kept *)

Lemma update_at_pointwise {A : Type} (f : A -> A) :
  forall (v : list A) (i : nat) (v' : list A),
    update_at f i v = Ok v' ->
    forall (k : nat) (a : A),
      nth_error v k = Some a ->
      exists a', nth_error v' k = Some a' /\ (a' = a \/ a' = f a).
Proof.
  induction v as [|x v IH]; intros i v' E k a Hk; simpl in E; [discriminate|].
  destruct i as [|i].
  - inversion E; subst. destruct k as [|k]; simpl in *.
    + inversion Hk; subst. eexists. split; [reflexivity | right; reflexivity].
    + eexists. split; [exact Hk | left; reflexivity].
  - apply bind_Ok in E. destruct E as [w [Ew E]]. inversion E; subst.
    destruct k as [|k]; simpl in *.
    + eexists. split; [exact Hk | left; reflexivity].
    + eapply IH; eassumption.
Qed.

Lemma same_vertex_refl (n : node) : same_vertex n n.
Proof. repeat split. Qed.

Lemma same_vertex_trans (a b c : node) :
  same_vertex a b -> same_vertex b c -> same_vertex a c.
Proof.
  intros [H1 [H2 H3]] [K1 [K2 K3]]. repeat split; congruence.
Qed.

Lemma boundary_kept_update (bcs : list node) (f : node -> node) (i : nat)
    (s : state) (v' : list node) :
  (forall n, same_vertex n (f n)) ->
  boundary_kept bcs s ->
  update_at f i (BCv_HT s) = Ok v' ->
  boundary_kept bcs (set_BCv_HT v' s).
Proof.
  intros Hf Hs U k n Hk. destruct (Hs k n Hk) as [m [Hm Hv]].
  destruct (update_at_pointwise f _ _ _ U k m Hm) as [m' [Hm' [->| ->]]].
  - exists m. split; assumption.
  - exists (f m). split; [exact Hm'|].
    eapply same_vertex_trans; [exact Hv | apply Hf].
Qed.

Lemma boundary_kept_append (bcs : list node) (n : node) (s : state) :
  boundary_kept bcs s -> boundary_kept bcs (set_BCv_HT (BCv_HT s ++ [n]) s).
Proof.
  intros Hs k n0 Hk. destruct (Hs k n0 Hk) as [m [Hm Hv]].
  exists m. split; [|exact Hv]. simpl.
  rewrite nth_error_app1; [exact Hm|]. apply nth_error_Some. congruence.
Qed.

Lemma same_vertex_set_rg (r : nat) (n : node) : same_vertex n (set_rg r n).
Proof. repeat split. Qed.

Lemma same_vertex_push (b : Z) (n : node) : same_vertex n (push_branch b n).
Proof. repeat split. Qed.

Lemma same_vertex_times_one (n : node) :
  same_vertex n (set_value (value n * 1)%R n).
Proof. repeat split. simpl. apply Rmult_1_r. Qed.

Lemma boundary_kept_grow (bcs l : list node) (s s' : state) :
  BCv_HT s' = BCv_HT s ++ l -> boundary_kept bcs s -> boundary_kept bcs s'.
Proof.
  intros E Hs k n0 Hk. destruct (Hs k n0 Hk) as [m [Hm Hv]].
  exists m. split; [|exact Hv]. rewrite E.
  rewrite nth_error_app1; [exact Hm|]. apply nth_error_Some. congruence.
Qed.

(** A change of the state that leaves [BCv_HT] alone. *)
Lemma boundary_kept_frame (bcs : list node) (s s' : state) :
  BCv_HT s' = BCv_HT s -> boundary_kept bcs s -> boundary_kept bcs s'.
Proof. intros E Hs k n Hk. rewrite E. exact (Hs k n Hk). Qed.

Lemma first_endpoint_boundary (bcs : list node) (cv i0 : nat) (s s' : state) :
  boundary_kept bcs s ->
  first_endpoint M nb_branches R_branch cv i0 s = Ok s' ->
  boundary_kept bcs s'.
Proof.
  intros Hs E. unfold first_endpoint in E.
  destruct (List.length (convex_to_point M i0) =? 1).
  - split_binds. apply new_face_region_Ok in Ha. subst a. simpl in E.
    destruct (find_node _ _ _) as [bc found]. split_binds. simpl in E.
    destruct (find_branch _ _ _) as [branch contained]. split_binds.
    match goal with
    | H1 : update_at _ bc _ = Ok ?x, H2 : update_at _ bc ?x = Ok _ |- _ =>
        pose proof (update_at_twice _ _ _ _ H1 H2) as U
    end.
    simpl in U.
    eapply boundary_kept_frame;
      [|exact (boundary_kept_update bcs _ bc s _
                 (fun n => same_vertex_trans _ _ _ (same_vertex_set_rg _ n)
                             (same_vertex_push _ _)) Hs U)].
    reflexivity.
  - destruct (List.length (convex_to_point M i0) =? 2).
    { inversion E; subst; exact Hs. }
    destruct (2 <=? List.length (convex_to_point M i0)).
    2:{ inversion E; subst; exact Hs. }
    split_binds.
    destruct (find_branch _ a cv) as [branch contained]. split_binds.
    destruct (find_node _ _ _) as [jj found]. split_binds.
    eapply boundary_kept_frame; [|exact Hs]. simpl.
    destruct (negb (existsb (Nat.eqb i0) (junctions s))).
    + split_binds.
      match goal with
      | H : new_face_region _ _ _ = Ok _ |- _ =>
          apply new_face_region_Ok in H; subst
      end.
      reflexivity.
    + inversion Ha; subst; reflexivity.
Qed.

Lemma second_endpoint_boundary (bcs : list node) (cv i1 : nat) (s s' : state) :
  boundary_kept bcs s ->
  second_endpoint M nb_branches R_branch cv i1 s = Ok s' ->
  boundary_kept bcs s'.
Proof.
  intros Hs E. unfold second_endpoint in E.
  destruct (List.length (convex_to_point M i1) =? 1).
  - destruct (find_node _ _ _) as [bc [|]].
    + split_binds. apply new_face_region_Ok in Ha. subst a. simpl in E.
      destruct (find_branch _ _ _) as [branch contained]. split_binds.
      simpl in *.
      match goal with
      | H1 : update_at _ bc (BCv_HT s) = Ok ?x, H2 : update_at _ bc ?x = Ok ?y,
        H3 : update_at _ bc ?y = Ok _ |- _ =>
          pose proof (update_at_twice _ _ _ _ (update_at_twice _ _ _ _ H1 H2) H3) as U
      end.
      simpl in U.
      eapply boundary_kept_frame;
        [|exact (boundary_kept_update bcs _ bc s _
                   (fun n => same_vertex_trans _ _ _
                               (same_vertex_trans _ _ _
                                  (same_vertex_times_one n)
                                  (same_vertex_set_rg _ _))
                               (same_vertex_push _ _)) Hs U)].
      reflexivity.
    + split_binds. apply new_face_region_Ok in Ha. subst a. simpl in E.
      destruct (find_branch _ _ _) as [branch contained]. split_binds.
      simpl in *.
      match goal with
      | H : update_back _ (_ ++ [_]) = Ok _ |- _ =>
          rewrite update_back_last in H; inversion H; subst; clear H
      end.
      eapply boundary_kept_grow; [|exact Hs]. simpl. reflexivity.
  - destruct (List.length (convex_to_point M i1) =? 2).
    + destruct (find_branch _ s cv) as [firstbranch contained]. split_binds.
      destruct (negb _ || negb _); [|inversion E; subst; exact Hs].
      destruct (negb (existsb (Nat.eqb i1) (junctions s)));
        [|inversion E; subst; exact Hs].
      split_binds.
      match goal with
      | H : new_face_region _ _ _ = Ok _ |- _ =>
          apply new_face_region_Ok in H; subst
      end.
      simpl in E.
      destruct (search _ _ _) as [secondbranch contained2]. split_binds.
      eapply boundary_kept_frame; [|exact Hs]. reflexivity.
    + destruct (2 <=? List.length (convex_to_point M i1));
        [|inversion E; subst; exact Hs].
      destruct (find_branch _ s cv) as [branch contained]. split_binds.
      destruct (negb (existsb (Nat.eqb i1) (junctions s))).
      * split_binds.
        match goal with
        | H : new_face_region _ _ _ = Ok _ |- _ =>
            apply new_face_region_Ok in H; subst
        end.
        eapply boundary_kept_frame; [|exact Hs]. reflexivity.
      * destruct (find_node _ _ _) as [jj found]. split_binds.
        eapply boundary_kept_frame; [|exact Hs]. reflexivity.
Qed.

Lemma convexes_loop_boundary (bcs : list node) (cvs : list nat) :
  forall s s' : state,
    boundary_kept bcs s ->
    convexes_loop M nb_branches R_branch cvs s = Ok s' ->
    boundary_kept bcs s'.
Proof.
  induction cvs as [|cv cvs IH]; intros s s' Hs E; simpl in E.
  - inversion E; subst; exact Hs.
  - split_binds. eapply IH; [|exact E].
    unfold step in Ha. split_binds.
    eapply second_endpoint_boundary; [|eassumption].
    eapply first_endpoint_boundary; [|eassumption].
    eapply boundary_kept_frame; [|exact Hs].
    unfold check_structure.
    destruct (2 <? nb_points _); destruct (2 <? nb_faces _); reflexivity.
Qed.

Lemma convexes_loop_same (cvs : list nat) :
  forall s s' : state,
    convexes_loop M nb_branches R_branch cvs s = Ok s' -> same_branches s s'.
Proof.
  induction cvs as [|cv cvs IH]; intros s s' E; simpl in E.
  - inversion E; subst. apply same_branches_refl.
  - split_binds. eapply same_branches_trans; [|eapply IH; exact E].
    eapply step_same. exact Ha.
Qed.

(** ** The assertions that can stop the builder *)

Lemma aw_bind {A B : Type} (l : list string) (m : outcome A)
    (k : A -> outcome B) :
  aborts_within l m -> (forall a, aborts_within l (k a)) ->
  aborts_within l (bind m k).
Proof. destruct m; simpl; auto. Qed.

Lemma aw_assert (l : list string) (t : bool) (msg : string) :
  In msg l -> aborts_within l (GMM_ASSERT1 t msg).
Proof. intros H. destruct t; simpl; auto. Qed.

Lemma aw_update_at {A : Type} (l : list string) (f : A -> A) (i : nat)
    (v : list A) : aborts_within l (update_at f i v).
Proof.
  destruct (update_at_cases f v i) as [E | [v' E]]; rewrite E; exact I.
Qed.

Lemma aw_update_back {A : Type} (l : list string) (f : A -> A) (v : list A) :
  aborts_within l (update_back f v).
Proof. apply aw_update_at. Qed.

Lemma aw_at_index {A : Type} (l : list string) (v : list A) (i : nat) :
  aborts_within l (at_index v i).
Proof. unfold at_index. destruct (nth_error v i); exact I. Qed.

Lemma aw_orientation (l : list string) (c i : nat) :
  aborts_within l (orientation M c i).
Proof.
  unfold orientation. apply aw_bind; [apply aw_at_index|]. intros p0.
  destruct (p0 =? i); [exact I|].
  apply aw_bind; [apply aw_at_index|]. intros p1.
  destruct (p1 =? i); exact I.
Qed.

Lemma aw_new_face_region (cv f : nat) (s : state) :
  aborts_within assertion_messages (new_face_region cv f s).
Proof.
  unfold new_face_region. apply aw_bind; [|intros; exact I].
  apply aw_assert. simpl. auto.
Qed.

(** Walks through the binds, the tests and the pairs of an outcome. *)
Ltac walk_aborts :=
  repeat first
    [ exact I
    | apply aw_new_face_region
    | apply aw_update_at
    | apply aw_update_back
    | apply aw_at_index
    | apply aw_orientation
    | apply aw_assert; simpl; tauto
    | apply aw_bind; [|intros]
    | match goal with
      | |- aborts_within _ (let '(_, _) := ?x in _) => destruct x
      | |- aborts_within _ (if ?b then _ else _) => destruct b
      end ].

Lemma first_endpoint_aborts (cv i0 : nat) (s : state) :
  aborts_within assertion_messages
    (first_endpoint M nb_branches R_branch cv i0 s).
Proof. unfold first_endpoint. walk_aborts. Qed.

Lemma second_endpoint_aborts (cv i1 : nat) (s : state) :
  aborts_within assertion_messages
    (second_endpoint M nb_branches R_branch cv i1 s).
Proof. unfold second_endpoint. walk_aborts. Qed.

Lemma step_aborts (cv : nat) (s : state) :
  aborts_within assertion_messages (step M nb_branches R_branch s cv).
Proof.
  assert (Hface : forall f, aborts_within assertion_messages (face_vertex M cv f)).
  { intros f. unfold face_vertex.
    apply aw_bind; [apply aw_at_index | intros k; apply aw_at_index]. }
  unfold step.
  apply aw_bind; [apply Hface | intros i0].
  apply aw_bind; [apply Hface | intros i1].
  apply aw_bind; [apply first_endpoint_aborts | intros s1].
  apply second_endpoint_aborts.
Qed.

Lemma convexes_loop_aborts (cvs : list nat) :
  forall s : state,
    aborts_within assertion_messages
      (convexes_loop M nb_branches R_branch cvs s).
Proof.
  induction cvs as [|cv cvs IH]; intros s; simpl; [exact I|].
  apply aw_bind; [apply step_aborts | exact IH].
Qed.

(** ** What the error log holds *)

Lemma convexes_loop_log (cvs : list nat) :
  incl cvs (convex_index M) ->
  forall s s' : state,
    Forall (deserved M) (cerr s) ->
    convexes_loop M nb_branches R_branch cvs s = Ok s' ->
    Forall (deserved M) (cerr s').
Proof.
  induction cvs as [|cv cvs IH]; intros Hincl s s' Hs E; simpl in E.
  - inversion E; subst; exact Hs.
  - split_binds.
    eapply IH; [intros x Hx; apply Hincl; right; exact Hx | | exact E].
    rewrite (@step_cerr _ _ _ _ _ _ Ha).
    assert (Hcv : In cv (convex_index M)) by (apply Hincl; left; reflexivity).
    assert (Hsnoc : forall (l : list diagnostic) (d : diagnostic),
              Forall (deserved M) l -> deserved M d ->
              Forall (deserved M) (l ++ [d])).
    { intros l d Hl Hd. apply Forall_app. split; [exact Hl|].
      constructor; [exact Hd | constructor]. }
    unfold check_structure.
    destruct (2 <? nb_points (structure_of_convex M cv)) eqn:Ep;
      destruct (2 <? nb_faces (structure_of_convex M cv)) eqn:Ef; simpl;
      try apply Nat.ltb_lt in Ep; try apply Nat.ltb_lt in Ef.
    + apply Hsnoc; [apply Hsnoc|]; [exact Hs | split; assumption | split; assumption].
    + apply Hsnoc; [exact Hs | split; assumption].
    + apply Hsnoc; [exact Hs | split; assumption].
    + exact Hs.
Qed.

(** ** A vertex of degree one that is not in the boundary list *)

Lemma search_none (p : nat -> bool) :
  forall n k,
    (forall x, (k <= x < k + n)%nat -> p x = false) ->
    search p n k = ((k + n)%nat, false).
Proof.
  induction n as [|n IH]; intros k Hp; simpl.
  - f_equal. lia.
  - rewrite (Hp k) by lia. rewrite IH by (intros x Hx; apply Hp; lia).
    f_equal. lia.
Qed.

Lemma find_node_missing (i : nat) (l : list node) :
  (forall n, In n l -> idx n <> i) ->
  find_node i l (List.length l) = (List.length l, false).
Proof.
  intros Hmiss. unfold find_node. rewrite search_none; [reflexivity|].
  intros x _. destruct (nth_error l x) as [nd|] eqn:En; [|reflexivity].
  apply Nat.eqb_neq. intros E. apply (Hmiss nd); [|congruence].
  eapply nth_error_In; eassumption.
Qed.

Lemma update_at_out_of_range {A : Type} (f : A -> A) :
  forall (v : list A) (i : nat),
    (List.length v <= i)%nat -> update_at f i v = Undef.
Proof.
  induction v as [|a v IH]; intros i Hi; simpl; [reflexivity|].
  destruct i as [|i]; [simpl in Hi; lia|].
  rewrite IH by (simpl in Hi; lia). reflexivity.
Qed.

Lemma first_endpoint_missing_node (cv i0 : nat) (s : state) :
  List.length (convex_to_point M i0) = 1%nat ->
  has_region (regions s) (fer s) = false ->
  (forall n, In n (BCv_HT s) -> idx n <> i0) ->
  first_endpoint M nb_branches R_branch cv i0 s = Undef.
Proof.
  intros Hdeg Hfree Hmiss. unfold first_endpoint, new_face_region.
  rewrite Hdeg. simpl. rewrite Hfree. simpl.
  rewrite (find_node_missing i0 (BCv_HT s) Hmiss). simpl.
  rewrite update_at_out_of_range by lia. reflexivity.
Qed.

Lemma second_endpoint_missing_node (cv i1 : nat) (s : state) :
  List.length (convex_to_point M i1) = 1%nat ->
  has_region (regions s) (fer s) = false ->
  (forall n, In n (BCv_HT s) -> idx n <> i1) ->
  second_endpoint M nb_branches R_branch cv i1 s
  = Ok (mk_state (region_add (regions s) (fer s) cv 0)
          (BCv_HT s ++ [mk_node "MIX" 0 i1 (fer s)
                          [Z.of_nat (fst (find_branch nb_branches s cv))]])
          (Jv_HT s) (junctions s) (extrema s) (nb_extrema s)
          (nb_junctions s) (S (fer s)) (cerr s)).
Proof.
  intros Hdeg Hfree Hmiss. unfold second_endpoint, new_face_region.
  rewrite Hdeg. simpl.
  rewrite (find_node_missing i1 (BCv_HT s) Hmiss). simpl.
  rewrite Hfree. simpl.
  match goal with
  | |- context [find_branch nb_branches ?s' cv] =>
      replace (find_branch nb_branches s' cv) with (find_branch nb_branches s cv)
        by (symmetry; apply find_branch_same; intros b c; simpl;
            apply is_in_region_add)
  end.
  destruct (find_branch nb_branches s cv) as [branch contained]. simpl.
  rewrite update_back_last. reflexivity.
Qed.

End BuilderInvariants.

Section BuilderProperties.

Import Topology Properties Invariants Networks.

(** X1.  In the state the builder returns there is exactly one junction
    record per junction vertex, in the order the vertices were met,
    [nb_junctions] is their number, and every record lists at least one
    branch. *)
Theorem junction_records_well_formed :
  forall (M : mesh) (nb_branches : nat) (R_branch : nat -> R)
         (rm : region_map) (bcs : list node) (s : state),
    build_vessel_boundary M nb_branches R_branch rm bcs = Ok s ->
    map idx (Jv_HT s) = junctions s /\
    nb_junctions s = List.length (Jv_HT s) /\
    NoDup (map idx (Jv_HT s)) /\
    Forall has_branch (Jv_HT s).
Proof.
  intros M nb_branches R_branch rm bcs s E.
  unfold build_vessel_boundary in E. split_binds.
  assert (H0 : junction_bookkeeping (initial_state nb_branches rm bcs))
    by (repeat split; constructor).
  assert (H1 : Forall has_branch (Jv_HT (initial_state nb_branches rm bcs)))
    by constructor.
  destruct (convexes_loop_junctions M nb_branches R_branch _ _ s H0 H1 E)
    as [[Hi [Hn Hd]] Hb].
  rewrite Hi. auto.
Qed.

Lemma junction_records_well_formed_witness :
  exists s : state,
    build_vessel_boundary Y_mesh 3 (fun _ => 1%R) Y_regions Y_boundary = Ok s /\
    map idx (Jv_HT s) = junctions s /\
    nb_junctions s = List.length (Jv_HT s) /\
    NoDup (map idx (Jv_HT s)) /\
    Forall has_branch (Jv_HT s).
Proof.
  eexists. split; [cbv -[Rplus Rmult IZR]; reflexivity|].
  apply (junction_records_well_formed Y_mesh 3%nat (fun _ => 1%R)
           Y_regions Y_boundary).
  cbv -[Rplus Rmult IZR]. reflexivity.
Defined.

(** X2.  Every region index the builder hands out goes to one record: the
    first empty region ends at [nb_branches] plus the numbers of extrema,
    junctions and mixed points created, and the regions of the junction
    records are distinct, increasing, and lie between [nb_branches] and the
    first empty region. *)
Theorem region_indices_accounted :
  forall (M : mesh) (nb_branches : nat) (R_branch : nat -> R)
         (rm : region_map) (bcs : list node) (s : state),
    build_vessel_boundary M nb_branches R_branch rm bcs = Ok s ->
    (List.length bcs <= List.length (BCv_HT s))%nat /\
    fer s = (nb_branches + nb_extrema s + nb_junctions s
             + (List.length (BCv_HT s) - List.length bcs))%nat /\
    Forall (fun r => (nb_branches <= r < fer s)%nat) (map rg (Jv_HT s)) /\
    StronglySorted lt (map rg (Jv_HT s)).
Proof.
  intros M nb_branches R_branch rm bcs s E.
  unfold build_vessel_boundary in E. split_binds.
  assert (H0 : region_accounting nb_branches (List.length bcs)
                 (initial_state nb_branches rm bcs)).
  { unfold region_accounting, initial_state. simpl.
    split; [lia|]. split; [lia|]. split; constructor. }
  exact (convexes_loop_accounting M nb_branches R_branch (List.length bcs)
           _ _ s H0 E).
Qed.

Lemma region_indices_accounted_witness :
  exists s : state,
    build_vessel_boundary Y_mesh 3 (fun _ => 1%R) Y_regions Y_boundary = Ok s /\
    fer s = (3 + nb_extrema s + nb_junctions s
             + (List.length (BCv_HT s) - 3))%nat.
Proof.
  eexists. split; [cbv -[Rplus Rmult IZR]; reflexivity|].
  apply (region_indices_accounted Y_mesh 3%nat (fun _ => 1%R)
           Y_regions Y_boundary).
  cbv -[Rplus Rmult IZR]. reflexivity.
Defined.

(** X3.  The builder never changes which convexes the branch regions hold:
    the regions it adds hold faces only. *)
Theorem branch_regions_untouched :
  forall (M : mesh) (nb_branches : nat) (R_branch : nat -> R)
         (rm : region_map) (bcs : list node) (s : state),
    build_vessel_boundary M nb_branches R_branch rm bcs = Ok s ->
    forall b c : nat, is_in (regions s) b c = is_in rm b c.
Proof.
  intros M nb_branches R_branch rm bcs s E.
  unfold build_vessel_boundary in E. split_binds.
  exact (convexes_loop_same M nb_branches R_branch _ _ _ E).
Qed.

Lemma branch_regions_untouched_witness :
  exists s : state,
    build_vessel_boundary Y_mesh 3 (fun _ => 1%R) Y_regions Y_boundary = Ok s /\
    forall b c : nat, is_in (regions s) b c = is_in Y_regions b c.
Proof.
  eexists. split; [cbv -[Rplus Rmult IZR]; reflexivity|].
  apply (branch_regions_untouched Y_mesh 3%nat (fun _ => 1%R)
           Y_regions Y_boundary).
  cbv -[Rplus Rmult IZR]. reflexivity.
Defined.

(** X4.  When the builder is stopped by an assertion, the message is one of
    four: the region overload, the inflow branch 0, or one of the two
    orientation checks of a trivial junction.  The assertions on the
    boundary list and on the containing branch never stop it. *)
Theorem builder_abort_messages :
  forall (M : mesh) (nb_branches : nat) (R_branch : nat -> R)
         (rm : region_map) (bcs : list node) (msg : string),
    build_vessel_boundary M nb_branches R_branch rm bcs = Abort msg ->
    In msg [msg_overload; msg_minus_zero; msg_firstbranch; msg_secondbranch].
Proof.
  intros M nb_branches R_branch rm bcs msg E.
  assert (H : aborts_within assertion_messages
                (build_vessel_boundary M nb_branches R_branch rm bcs)).
  { unfold build_vessel_boundary. apply aw_bind.
    - apply aw_assert. simpl. auto.
    - intros _. apply convexes_loop_aborts. }
  rewrite E in H. exact H.
Qed.

Lemma builder_abort_messages_witness :
  In msg_minus_zero
     [msg_overload; msg_minus_zero; msg_firstbranch; msg_secondbranch].
Proof.
  apply (builder_abort_messages Y_mesh 3%nat (fun _ => 1%R)
           Y_regions_renumbered Y_boundary).
  cbv -[Rplus Rmult IZR]. reflexivity.
Defined.

(** X5.  The boundary nodes given to the builder stay at their positions
    with their label, vertex and value: the builder only sets their region,
    appends branches to them, and appends new (mixed) nodes after them. *)
Theorem boundary_nodes_kept :
  forall (M : mesh) (nb_branches : nat) (R_branch : nat -> R)
         (rm : region_map) (bcs : list node) (s : state),
    build_vessel_boundary M nb_branches R_branch rm bcs = Ok s ->
    forall (k : nat) (n : node),
      nth_error bcs k = Some n ->
      exists m : node,
        nth_error (BCv_HT s) k = Some m /\
        label m = label n /\ idx m = idx n /\ value m = value n.
Proof.
  intros M nb_branches R_branch rm bcs s E.
  unfold build_vessel_boundary in E. split_binds.
  assert (H0 : boundary_kept bcs (initial_state nb_branches rm bcs)).
  { intros k n Hk. exists n. split; [exact Hk | apply same_vertex_refl]. }
  exact (convexes_loop_boundary M nb_branches R_branch bcs _ _ s H0 E).
Qed.

Lemma boundary_nodes_kept_witness :
  exists (s : state) (m : node),
    build_vessel_boundary Y_mesh 3 (fun _ => 1%R) Y_regions Y_boundary = Ok s /\
    nth_error (BCv_HT s) 1 = Some m /\
    label m = label (boundary 2) /\ idx m = 2%nat /\ value m = 0%R.
Proof.
  assert (E : exists s, build_vessel_boundary Y_mesh 3 (fun _ => 1%R)
                          Y_regions Y_boundary = Ok s).
  { eexists. cbv -[Rplus Rmult IZR]. reflexivity. }
  destruct E as [s E].
  destruct (boundary_nodes_kept Y_mesh 3%nat (fun _ => 1%R) Y_regions
              Y_boundary s E 1%nat (boundary 2) eq_refl) as [m [Hm Hv]].
  exists s, m. split; [exact E|]. split; [exact Hm | exact Hv].
Defined.

(** X6.  The error log of a returned state holds only diagnostics of
    convexes of the mesh that have more than two points, or more than two
    faces; on a mesh whose convexes all have at most two points and two
    faces it is empty. *)
Theorem error_log_sound :
  forall (M : mesh) (nb_branches : nat) (R_branch : nat -> R)
         (rm : region_map) (bcs : list node) (s : state),
    build_vessel_boundary M nb_branches R_branch rm bcs = Ok s ->
    Forall (deserved M) (cerr s) /\
    ((forall cv, In cv (convex_index M) ->
        (nb_points (structure_of_convex M cv) <= 2)%nat /\
        (nb_faces (structure_of_convex M cv) <= 2)%nat) ->
     cerr s = []).
Proof.
  intros M nb_branches R_branch rm bcs s E.
  unfold build_vessel_boundary in E. split_binds.
  assert (H : Forall (deserved M) (cerr s)).
  { assert (H0 : Forall (deserved M) (cerr (initial_state nb_branches rm bcs)))
      by constructor.
    exact (convexes_loop_log M nb_branches R_branch (convex_index M)
             (incl_refl _) _ s H0 E). }
  split; [exact H|].
  intros Hseg. destruct (cerr s) as [|d l]; [reflexivity|].
  inversion H as [|? ? Hd _]; subst.
  destruct d as [cv|cv]; destruct Hd as [Hin Hlt];
    destruct (Hseg cv Hin); lia.
Qed.

Lemma error_log_sound_witness :
  exists s : state,
    build_vessel_boundary malformed_mesh 1 (fun _ => 1%R)
      (branch_regions [[0%nat]]) [boundary 0; boundary 1] = Ok s /\
    Forall (deserved malformed_mesh) (cerr s).
Proof.
  eexists. split; [cbv -[Rplus Rmult IZR]; reflexivity|].
  apply (error_log_sound malformed_mesh 1%nat (fun _ => 1%R)
           (branch_regions [[0%nat]]) [boundary 0; boundary 1]).
  cbv -[Rplus Rmult IZR]. reflexivity.
Defined.

(** X7.  A vertex with a single incident convex that is not in the boundary
    list (the region [fer] being free): as first endpoint it makes the
    builder write [BCv_HT] at the index one past its end; as second
    endpoint it is appended to the list as a mixed point, with the region
    [fer] and the branch of the convex, [fer] is advanced, and the extrema
    and their count [nb_extrema] are left as they were. *)
Theorem missing_boundary_vertex :
  forall (M : mesh) (nb_branches : nat) (R_branch : nat -> R)
         (cv i : nat) (s : state),
    List.length (convex_to_point M i) = 1%nat ->
    has_region (regions s) (fer s) = false ->
    (forall n, In n (BCv_HT s) -> idx n <> i) ->
    first_endpoint M nb_branches R_branch cv i s = Undef /\
    second_endpoint M nb_branches R_branch cv i s
    = Ok (mk_state (region_add (regions s) (fer s) cv 0)
            (BCv_HT s ++ [mk_node "MIX" 0 i (fer s)
                            [Z.of_nat (fst (find_branch nb_branches s cv))]])
            (Jv_HT s) (junctions s) (extrema s) (nb_extrema s)
            (nb_junctions s) (S (fer s)) (cerr s)).
Proof.
  intros M nb_branches R_branch cv i s Hdeg Hfree Hmiss. split.
  - apply first_endpoint_missing_node; assumption.
  - apply second_endpoint_missing_node; assumption.
Qed.

Lemma missing_boundary_vertex_witness :
  first_endpoint series_mesh 1 (fun _ => 1%R) 0 0
    (initial_state 1 (branch_regions [[0; 1]%nat]) [boundary 2]) = Undef /\
  second_endpoint series_mesh 1 (fun _ => 1%R) 1 2
    (initial_state 1 (branch_regions [[0; 1]%nat]) [boundary 0])
  = Ok (mk_state
          (region_add (branch_regions [[0; 1]%nat]) 1 1 0)
          [boundary 0; mk_node "MIX" 0 2 1 [0%Z]]
          [] [] [] 0 0 2 []).
Proof.
  split.
  - apply (proj1 (missing_boundary_vertex series_mesh 1%nat (fun _ => 1%R)
                    0%nat 0%nat
                    (initial_state 1 (branch_regions [[0; 1]%nat]) [boundary 2])
                    eq_refl eq_refl
                    ltac:(intros n [<-|[]]; simpl; lia))).
  - apply (proj2 (missing_boundary_vertex series_mesh 1%nat (fun _ => 1%R)
                    1%nat 2%nat
                    (initial_state 1 (branch_regions [[0; 1]%nat]) [boundary 0])
                    eq_refl eq_refl
                    ltac:(intros n [<-|[]]; simpl; lia))).
Defined.

End BuilderProperties.

(* ================================================================== *)
(** * The artificial diffusivity as a maximum *)

Section DiffusivityBounds.

Import Diffusivity RunningMaximum.
Local Open Scope R_scope.

Lemma list_max_nonneg (l : list R) : 0 <= list_max l.
Proof.
  induction l as [|x l IH]; simpl; [lra|].
  eapply Rle_trans; [exact IH | apply Rmax_r].
Qed.

Lemma list_max_upper (l : list R) (x : R) : In x l -> x <= list_max l.
Proof.
  induction l as [|y l IH]; intros Hin; [destruct Hin|].
  simpl. destruct Hin as [->|Hin].
  - apply Rmax_l.
  - eapply Rle_trans; [apply IH; exact Hin | apply Rmax_r].
Qed.

Lemma list_max_least (l : list R) (u : R) :
  0 <= u -> (forall x, In x l -> x <= u) -> list_max l <= u.
Proof.
  intros Hu. induction l as [|y l IH]; intros Hall; simpl; [exact Hu|].
  apply Rmax_lub; [apply Hall; left; reflexivity|].
  apply IH. intros x Hx. apply Hall. right. exact Hx.
Qed.

(** The loops that keep the largest value are folds of [Rmax]. *)
Lemma keep_larger (m temp : R) :
  (if Rgtb temp m then temp else m) = Rmax m temp.
Proof.
  unfold Rgtb, Rmax.
  destruct (Rgt_dec temp m) as [G|G]; destruct (Rle_dec m temp) as [L|L];
    try reflexivity; lra.
Qed.

Lemma size_loop_max (l : list R) :
  forall m : R, 0 <= m -> size_loop m l = Rmax m (list_max l).
Proof.
  unfold size_loop.
  induction l as [|x l IH]; intros m Hm; simpl.
  - rewrite Rmax_left; [reflexivity | exact Hm].
  - rewrite keep_larger, IH.
    + rewrite <- Rmax_assoc. reflexivity.
    + eapply Rle_trans; [exact Hm | apply Rmax_l].
Qed.

(** [max_element] and [min_element] bound the vector and belong to it. *)
Lemma max_from_spec (l : list R) :
  forall x : R,
    (forall y, In y (x :: l) -> y <= max_from x l) /\ In (max_from x l) (x :: l).
Proof.
  induction l as [|z l IH]; intros x; simpl.
  - split; [intros y [->|[]]; lra | left; reflexivity].
  - unfold Rltb. destruct (Rlt_dec x z) as [L|L].
    + destruct (IH z) as [Hub Hin]. split.
      * intros y [->|Hy]; [|apply Hub; exact Hy].
        eapply Rle_trans; [left; exact L | apply Hub; left; reflexivity].
      * right. exact Hin.
    + destruct (IH x) as [Hub Hin]. split.
      * intros y [->|[->|Hy]].
        -- apply Hub; left; reflexivity.
        -- eapply Rle_trans; [apply Rnot_lt_le; exact L | apply Hub; left; reflexivity].
        -- apply Hub; right; exact Hy.
      * destruct Hin as [Hin|Hin]; [left; exact Hin | right; right; exact Hin].
Qed.

Lemma min_from_spec (l : list R) :
  forall x : R,
    (forall y, In y (x :: l) -> min_from x l <= y) /\ In (min_from x l) (x :: l).
Proof.
  induction l as [|z l IH]; intros x; simpl.
  - split; [intros y [->|[]]; lra | left; reflexivity].
  - unfold Rltb. destruct (Rlt_dec z x) as [L|L].
    + destruct (IH z) as [Hlb Hin]. split.
      * intros y [->|Hy]; [|apply Hlb; exact Hy].
        eapply Rle_trans; [apply Hlb; left; reflexivity | left; exact L].
      * right. exact Hin.
    + destruct (IH x) as [Hlb Hin]. split.
      * intros y [->|[->|Hy]].
        -- apply Hlb; left; reflexivity.
        -- eapply Rle_trans; [apply Hlb; left; reflexivity | apply Rnot_lt_le; exact L].
        -- apply Hlb; right; exact Hy.
      * destruct Hin as [Hin|Hin]; [left; exact Hin | right; right; exact Hin].
Qed.

(** The velocity kept for a branch is the largest absolute value of its
    velocity vector. *)
Lemma max_U_is_max_abs (x : R) (l : list R) :
  (if Rgtb (max_from x l) (Rabs (min_from x l))
   then max_from x l else Rabs (min_from x l))
  = list_max (map Rabs (x :: l)).
Proof.
  destruct (max_from_spec l x) as [Hub Hmax].
  destruct (min_from_spec l x) as [Hlb Hmin].
  set (hi := max_from x l) in *. set (lo := min_from x l) in *.
  assert (Habs : forall y, In y (x :: l) -> Rabs y <= Rmax hi (Rabs lo)).
  { intros y Hy. specialize (Hub y Hy). specialize (Hlb y Hy).
    unfold Rabs at 1. destruct (Rcase_abs y) as [N|P].
    - eapply Rle_trans; [|apply Rmax_r].
      rewrite (Rabs_left lo) by lra. lra.
    - eapply Rle_trans; [exact Hub | apply Rmax_l]. }
  assert (Hval : (if Rgtb hi (Rabs lo) then hi else Rabs lo) = Rmax hi (Rabs lo)).
  { unfold Rgtb, Rmax.
    destruct (Rgt_dec hi (Rabs lo)) as [G|G];
      destruct (Rle_dec hi (Rabs lo)) as [L|L]; try reflexivity; lra. }
  rewrite Hval. apply Rle_antisym.
  - apply Rmax_lub.
    + eapply Rle_trans; [apply Rle_abs|].
      apply list_max_upper. apply in_map. exact Hmax.
    + apply list_max_upper. apply in_map. exact Hmin.
  - apply list_max_least.
    + eapply Rle_trans; [apply Rabs_pos | apply Rmax_r].
    + intros a Ha. apply in_map_iff in Ha. destruct Ha as [y [<- Hy]].
      apply Habs. exact Hy.
Qed.

Lemma branch_step_value (m p : R) (b : branch) :
  Uvi b <> [] -> 0 <= m ->
  branch_step (m, p) b
  = Ok (Rmax m (list_max (sizes b)),
        Rmax p (list_max (map Rabs (Uvi b)) * Rmax m (list_max (sizes b)))).
Proof.
  intros Hne Hm. unfold branch_step.
  destruct (Uvi b) as [|x l] eqn:EU; [contradiction|].
  cbn [max_element min_element bind].
  rewrite max_U_is_max_abs, keep_larger, size_loop_max by exact Hm.
  reflexivity.
Qed.

Lemma branches_loop_value (bs : list branch) :
  forall m p : R,
    has_velocities bs -> 0 <= m ->
    exists m' : R,
      branches_loop bs (m, p)
      = Ok (m', Rmax p (list_max (running_products m bs))) \/
      (bs = [] /\ branches_loop bs (m, p) = Ok (m, p)).
Proof.
  induction bs as [|b bs IH]; intros m p Hv Hm.
  - exists m. right. split; reflexivity.
  - inversion Hv as [|? ? Hb Hv']; subst.
    cbn [branches_loop]. rewrite (branch_step_value m p b Hb Hm).
    cbn [bind].
    assert (Hm' : 0 <= Rmax m (list_max (sizes b)))
      by (eapply Rle_trans; [exact Hm | apply Rmax_l]).
    destruct (IH (Rmax m (list_max (sizes b)))
                 (Rmax p (list_max (map Rabs (Uvi b))
                          * Rmax m (list_max (sizes b)))) Hv' Hm')
      as [m' [E | [-> E]]].
    + exists m'. left. rewrite E. cbn [running_products list_max fold_right].
      rewrite Rmax_assoc. reflexivity.
    + eexists. left. rewrite E. cbn [running_products list_max fold_right].
      f_equal. f_equal.
      rewrite (Rmax_left _ 0); [reflexivity|].
      apply Rmult_le_pos; [apply list_max_nonneg | exact Hm'].
Qed.

Lemma diffusivity_value (Theta : R) (bs : list branch) :
  has_velocities bs ->
  artificial_diffusivity Theta bs
  = Ok (list_max (running_products 0 bs) * Theta / 2).
Proof.
  intros Hv. unfold artificial_diffusivity.
  destruct (branches_loop_value bs 0 0 Hv (Rle_refl 0)) as [m' [E | [-> E]]];
    rewrite E; cbn [bind snd]; [|reflexivity].
  rewrite Rmax_right by apply list_max_nonneg. reflexivity.
Qed.

Lemma spec_below_running (bs : list branch) :
  forall m : R,
    list_max (map branch_product_spec bs) <= list_max (running_products m bs).
Proof.
  induction bs as [|b bs IH]; intros m; simpl; [lra|].
  apply Rmax_lub.
  - eapply Rle_trans; [|apply Rmax_l]. unfold branch_product_spec.
    apply Rmult_le_compat_l; [apply list_max_nonneg | apply Rmax_r].
  - eapply Rle_trans; [apply IH | apply Rmax_r].
Qed.

Lemma running_is_spec (bs : list branch) :
  forall m : R,
    sizes_nondecreasing m bs ->
    running_products m bs = map branch_product_spec bs.
Proof.
  induction bs as [|b bs IH]; intros m Hnd; simpl; [reflexivity|].
  destruct Hnd as [Hm Hnd]. rewrite (Rmax_right m _ Hm).
  rewrite (IH _ Hnd). reflexivity.
Qed.

End DiffusivityBounds.

Section DiffusivityProperties.

Import Diffusivity RunningMaximum.
Local Open Scope R_scope.

(** X8.  One turn of the loop over the branches, for a branch with at
    least one velocity: the size carried on is the largest size met so far,
    and the product compared with [max_product] is that size times the
    largest absolute value of the velocity vector of the branch.  For a
    branch with no velocity the turn dereferences the end of the vector. *)
Theorem branch_turn_keeps_largest_speed :
  forall (m p : R) (b : branch),
    0 <= m ->
    (Uvi b <> [] ->
     branch_step (m, p) b
     = Ok (Rmax m (list_max (sizes b)),
           Rmax p (list_max (map Rabs (Uvi b))
                   * Rmax m (list_max (sizes b))))) /\
    (Uvi b = [] -> branch_step (m, p) b = Undef).
Proof.
  intros m p b Hm. split.
  - intros Hne. apply branch_step_value; assumption.
  - intros He. unfold branch_step. rewrite He. reflexivity.
Qed.

Lemma branch_turn_keeps_largest_speed_witness :
  branch_step (0, 0) {| sizes := [2]; Uvi := [1; -3] |}
  = Ok (Rmax 0 (list_max [2]),
        Rmax 0 (list_max (map Rabs [1; -3]) * Rmax 0 (list_max [2]))).
Proof.
  apply (branch_turn_keeps_largest_speed 0 0 {| sizes := [2]; Uvi := [1; -3] |}).
  - lra.
  - simpl. discriminate.
Defined.

(** X9.  When every branch has at least one velocity, the diffusivity is
    [Theta/2] times the largest of the products (largest absolute velocity
    of the branch) x (largest size among this branch and all the branches
    before it).  For [Theta >= 0] it is non-negative and never below the
    diffusivity taken branch by branch; the two coincide when the largest
    sizes of the branches do not decrease along the list. *)
Theorem diffusivity_running_maximum :
  forall (Theta : R) (bs : list branch),
    has_velocities bs ->
    artificial_diffusivity Theta bs
    = Ok (list_max (running_products 0 bs) * Theta / 2) /\
    (0 <= Theta ->
     0 <= list_max (running_products 0 bs) * Theta / 2 /\
     diffusivity_spec Theta bs
     <= list_max (running_products 0 bs) * Theta / 2) /\
    (sizes_nondecreasing 0 bs ->
     list_max (running_products 0 bs) * Theta / 2 = diffusivity_spec Theta bs).
Proof.
  intros Theta bs Hv. split; [apply diffusivity_value; exact Hv|]. split.
  - intros HT.
    pose proof (list_max_nonneg (running_products 0 bs)) as H0.
    pose proof (spec_below_running bs 0) as Hle.
    unfold diffusivity_spec. split; nra.
  - intros Hnd. unfold diffusivity_spec.
    rewrite (running_is_spec bs 0 Hnd). lra.
Qed.

Lemma diffusivity_running_maximum_witness :
  artificial_diffusivity 1 two_branches
  = Ok (list_max (running_products 0 two_branches) * 1 / 2).
Proof.
  apply (diffusivity_running_maximum 1 two_branches).
  repeat constructor; simpl; discriminate.
Defined.

End DiffusivityProperties.

(* ================================================================== *)
(** * The blocks of the branches *)

Section BranchBlocks.

Import Layout.

Lemma shifts_loop_value (nb_dof : list nat) :
  forall (shift : nat) (prev : option nat) (i : nat),
    (i < List.length nb_dof)%nat ->
    nth_error (shifts_loop shift prev nb_dof) i
    = Some (shift + match prev with Some p => p | None => 0 end
            + list_sum (firstn i nb_dof))%nat.
Proof.
  induction nb_dof as [|n rest IH]; intros shift prev i Hi; simpl in Hi; [lia|].
  destruct i as [|i]; simpl.
  - f_equal. destruct prev; lia.
  - rewrite IH by lia. f_equal. destruct prev; simpl; lia.
Qed.

Lemma firstn_next (l : list R) :
  forall n m : nat,
    firstn n l ++ firstn m (skipn n l) = firstn (n + m) l.
Proof.
  induction l as [|x l IH]; intros n m.
  - rewrite skipn_nil, !firstn_nil. reflexivity.
  - destruct n as [|n]; simpl; [reflexivity|].
    rewrite IH. reflexivity.
Qed.

Lemma firstn_skipn_split (v : list R) (a n m : nat) :
  firstn n (skipn a v) ++ firstn m (skipn (a + n) v)
  = firstn (n + m) (skipn a v).
Proof.
  rewrite <- firstn_next, skipn_skipn.
  replace (n + a)%nat with (a + n)%nat by lia. reflexivity.
Qed.

Lemma blocks_loop_value (v : list R) (base : nat) (nb_dof : list nat) :
  forall (shift : nat) (prev : option nat),
    let start := (shift + match prev with Some p => p | None => 0 end)%nat in
    (base + start + list_sum nb_dof <= List.length v)%nat ->
    exists blocks : list (list R),
      blocks_loop v base shift prev nb_dof = Ok blocks /\
      map (@List.length R) blocks = nb_dof /\
      List.concat blocks = firstn (list_sum nb_dof) (skipn (base + start) v).
Proof.
  induction nb_dof as [|n rest IH]; intros shift prev start Hfit.
  - exists []. repeat split.
  - simpl in Hfit.
    assert (Es : match prev with Some p => (shift + p)%nat | None => shift end = start)
      by (unfold start; destruct prev; lia).
    cbn [blocks_loop]. rewrite Es.
    unfold sub_vector.
    destruct (Nat.leb_spec (base + start + n) (List.length v)) as [_|Hbad]; [|lia].
    cbn [bind].
    destruct (IH start (Some n)) as [blocks [E [Hl Hc]]]; [simpl; lia|].
    rewrite E. cbn [bind].
    eexists. split; [reflexivity|]. split.
    + cbn [map]. rewrite Hl, length_firstn, length_skipn. f_equal. lia.
    + cbn [List.concat list_sum]. rewrite Hc.
      replace (base + (start + n))%nat with (base + start + n)%nat by lia.
      apply firstn_skipn_split.
Qed.

Lemma blocks_loop_too_large (v : list R) (base : nat) (nb_dof : list nat) :
  forall (shift : nat) (prev : option nat),
    let start := (shift + match prev with Some p => p | None => 0 end)%nat in
    (List.length v < base + start + list_sum nb_dof)%nat ->
    nb_dof <> [] ->
    blocks_loop v base shift prev nb_dof = Abort msg_sub_vector.
Proof.
  induction nb_dof as [|n rest IH]; intros shift prev start Hbig Hne;
    [contradiction|].
  simpl in Hbig.
  assert (Es : match prev with Some p => (shift + p)%nat | None => shift end = start)
    by (unfold start; destruct prev; lia).
  cbn [blocks_loop]. rewrite Es. unfold sub_vector.
  destruct (Nat.leb_spec (base + start + n) (List.length v)) as [Hle|_];
    [|reflexivity].
  cbn [bind]. rewrite (IH start (Some n)); [reflexivity| |].
  - simpl. lia.
  - intros ->. simpl in Hbig. lia.
Qed.

End BranchBlocks.

Section BranchBlocksProperties.

Import Layout.

(** X10.  The loops over the branches of [assembly_mat], [solve_fixpoint]
    and [export_vtk] cut consecutive blocks out of a vector: when the
    blocks fit in the vector after the offset [base], block [i] starts at
    the sum of the sizes of the blocks before it, has the size of its
    branch, and the blocks put end to end are the part of the vector that
    begins at [base]: no entry is read twice and none is skipped.  When
    they do not fit, the extraction stops on the assertion of
    [gmm::sub_vector]. *)
Theorem branch_blocks_partition (v : list R) (base : nat) (nb_dof : list nat) :
  ((base + list_sum nb_dof <= List.length v)%nat ->
   exists blocks : list (list R),
     branch_blocks v base nb_dof = Ok blocks /\
     map (@List.length R) blocks = nb_dof /\
     List.concat blocks = firstn (list_sum nb_dof) (skipn base v) /\
     forall i : nat, (i < List.length nb_dof)%nat ->
       nth_error (branch_shifts nb_dof) i = Some (list_sum (firstn i nb_dof))) /\
  ((List.length v < base + list_sum nb_dof)%nat -> nb_dof <> [] ->
   branch_blocks v base nb_dof = Abort msg_sub_vector).
Proof.
  split.
  - intros Hfit.
    destruct (blocks_loop_value v base nb_dof 0 None) as [blocks [E [Hl Hc]]];
      [simpl; lia|].
    exists blocks. split; [exact E|]. split; [exact Hl|]. split.
    + rewrite Hc. simpl. rewrite Nat.add_0_r. reflexivity.
    + intros i Hi. unfold branch_shifts.
      rewrite shifts_loop_value by exact Hi. reflexivity.
  - intros Hbig Hne.
    apply (blocks_loop_too_large v base nb_dof 0 None); [simpl; lia|exact Hne].
Qed.

Lemma branch_blocks_partition_witness :
  (exists blocks : list (list R),
     branch_blocks [1; 2; 3; 4; 5]%R 1 [2; 1]%nat = Ok blocks /\
     map (@List.length R) blocks = [2; 1]%nat /\
     List.concat blocks = firstn 3 (skipn 1 [1; 2; 3; 4; 5]%R) /\
     forall i : nat, (i < 2)%nat ->
       nth_error (branch_shifts [2; 1]%nat) i
       = Some (list_sum (firstn i [2; 1]%nat))) /\
  branch_blocks [1; 2; 3]%R 1 [2; 1]%nat = Abort msg_sub_vector.
Proof.
  split.
  - apply (proj1 (branch_blocks_partition [1; 2; 3; 4; 5]%R 1 [2; 1]%nat)).
    simpl. lia.
  - apply (proj2 (branch_blocks_partition [1; 2; 3]%R 1 [2; 1]%nat)).
    + simpl. lia.
    + discriminate.
Defined.

End BranchBlocksProperties.

(* ================================================================== *)
(** * The loop of [vessel_conductivity_vec] *)

Section ComplianceLoopFacts.

Import Compliance ComplianceLoop.
Local Open Scope R_scope.

Variable c : constants.
Variable E : R.
Variable IMPORT_E : bool.
Variable E_branch : nat -> R.
Variable Curv_ : list (list R).
Variables Ru hu p_int p_ext : list R.

Local Abbreviation visit := (visit_dof c E IMPORT_E E_branch Curv_ Ru hu p_int p_ext).
Local Abbreviation loop := (visit_all c E IMPORT_E E_branch Curv_ Ru hu p_int p_ext).
Local Abbreviation section := (section_of c E IMPORT_E E_branch Curv_ Ru hu p_int p_ext).
Local Abbreviation entry := (entry_after c E IMPORT_E E_branch Curv_ Ru hu p_int p_ext).
Local Abbreviation fits := (visit_fits c E IMPORT_E E_branch Curv_).
Local Abbreviation all_fit := (visits_fit c E IMPORT_E E_branch Curv_).

Lemma update_at_other {A : Type} (f : A -> A) :
  forall (v : list A) (i : nat) (v' : list A),
    update_at f i v = Ok v' ->
    forall k : nat, k <> i -> nth_error v' k = nth_error v k.
Proof.
  induction v as [|a v IH]; intros i v' U k Hk; simpl in U; [discriminate|].
  destruct i as [|i].
  - inversion U; subst. destruct k as [|k]; [contradiction|reflexivity].
  - apply bind_Ok in U. destruct U as [w [Ew U]]. inversion U; subst.
    destruct k as [|k]; [reflexivity|]. simpl. apply (IH i w Ew). lia.
Qed.

Lemma update_at_total {A : Type} (f : A -> A) :
  forall (v : list A) (i : nat),
    (i < List.length v)%nat -> exists v', update_at f i v = Ok v'.
Proof.
  induction v as [|a v IH]; intros i Hi; simpl in Hi; [lia|].
  destruct i as [|i]; simpl.
  - eexists. reflexivity.
  - destruct (IH i) as [w Ew]; [lia|]. rewrite Ew. eexists. reflexivity.
Qed.

Lemma at_index_total {A : Type} (v : list A) (i : nat) (d0 : A) :
  (i < List.length v)%nat -> at_index v i = Ok (nth i v d0).
Proof.
  intros Hi. unfold at_index. rewrite (nth_error_nth' v d0 Hi). reflexivity.
Qed.

Lemma at_index_value {A : Type} (v : list A) (i : nat) (a d0 : A) :
  at_index v i = Ok a -> a = nth i v d0 /\ (i < List.length v)%nat.
Proof.
  intros H. apply at_index_nth_error in H. split.
  - symmetry. apply nth_error_nth. exact H.
  - apply nth_error_Some. congruence.
Qed.

(** One visit: what it needs, and what it writes. *)
Lemma visit_writes (param param' : ParameterStore) (cv cv' : list R)
    (v : nat * nat * nat) :
  visit (param, cv) v = Ok (param', cv') ->
  fits param cv Ru hu p_int p_ext v /\
  List.length (R_ param') = List.length (R_ param) /\
  List.length (CSarea_ param') = List.length (CSarea_ param) /\
  List.length (CSper_ param') = List.length (CSper_ param) /\
  List.length cv' = List.length cv /\
  nth_error (R_ param') (dof_of v) = Some (radius (section v)) /\
  nth_error (CSarea_ param') (dof_of v) = Some (area (section v)) /\
  nth_error (CSper_ param') (dof_of v) = Some (per (section v)) /\
  nth_error cv' (dof_of v) = Some (cond (section v)) /\
  forall k : nat, k <> dof_of v ->
    nth_error (R_ param') k = nth_error (R_ param) k /\
    nth_error (CSarea_ param') k = nth_error (CSarea_ param) k /\
    nth_error (CSper_ param') k = nth_error (CSper_ param) k /\
    nth_error cv' k = nth_error cv k.
Proof.
  destruct v as [[i j] loc]. unfold visit_fits, dof_of. cbn [fst snd].
  unfold visit_dof, replace_section. intros H. split_binds.
  repeat match goal with
  | H : at_index _ _ = Ok _ |- _ =>
      apply (fun H => at_index_value _ _ _ 0 H) in H; destruct H as [? ?]; subst
  end.
  match goal with
  | H : deformed_section_at _ _ _ _ _ _ _ _ _ = Ok _ |- _ =>
      apply deformed_section_at_Ok in H; destruct H as [? Hcurv]; subst
  end.
  cbn [R_ CSarea_ CSper_].
  repeat match goal with
  | H : update_at _ _ _ = Ok _ |- _ =>
      pose proof (update_at_in_range _ _ _ _ H);
      pose proof (@update_at_length _ _ _ _ _ H);
      pose proof (update_at_other _ _ _ _ H);
      apply update_at_nth_error in H; destruct H as [? [_ H]]
  end.
  split.
  { split; [unfold within; repeat constructor; assumption|].
    intros Hcirc. exact (Hcurv Hcirc). }
  repeat (split; [assumption|]).
  intros k Hk. repeat split; auto.
Qed.

Lemma visit_runs (param : ParameterStore) (cv : list R) (v : nat * nat * nat) :
  fits param cv Ru hu p_int p_ext v ->
  exists st, visit (param, cv) v = Ok st.
Proof.
  destruct v as [[i j] loc]. unfold visit_fits, dof_of, within. cbn [fst snd].
  intros [H Hcurv].
  repeat match goal with
  | H : Forall _ (_ :: _) |- _ => inversion H; subst; clear H
  end.
  unfold visit_dof, replace_section.
  rewrite !(fun v H => at_index_total v j 0 H) by assumption. cbn [bind].
  rewrite deformed_section_at_runs by exact Hcurv. cbn [bind].
  match goal with
  | |- context [update_at ?f j cv] =>
      destruct (update_at_total f cv j) as [w1 ->]; [assumption|]
  end. cbn [bind].
  match goal with
  | |- context [update_at ?f j (R_ param)] =>
      destruct (update_at_total f (R_ param) j) as [w2 ->]; [assumption|]
  end. cbn [bind].
  match goal with
  | |- context [update_at ?f j (CSarea_ param)] =>
      destruct (update_at_total f (CSarea_ param) j) as [w3 ->]; [assumption|]
  end. cbn [bind].
  match goal with
  | |- context [update_at ?f j (CSper_ param)] =>
      destruct (update_at_total f (CSper_ param) j) as [w4 ->]; [assumption|]
  end. cbn [bind].
  eexists. reflexivity.
Qed.

Lemma visit_never_aborts (st : ParameterStore * list R) (v : nat * nat * nat)
    (msg : string) :
  visit st v <> Abort msg.
Proof.
  destruct v as [[i j] loc]. destruct st as [param cv].
  unfold visit_dof, replace_section, at_index.
  repeat match goal with
  | |- context [nth_error ?l ?k] => destruct (nth_error l k); cbn [bind]
  end; try discriminate.
  match goal with
  | |- context [deformed_section_at ?a ?b ?p ?q ?r ?s ?t ?u ?w] =>
      pose proof (deformed_section_at_never_aborts a b p q r s t u w) as Hs;
      destruct (deformed_section_at a b p q r s t u w) as [x|m|]; cbn [bind];
      [|exfalso; exact (Hs m eq_refl)|discriminate]
  end.
  repeat match goal with
  | |- context [update_at ?f ?k ?l] =>
      destruct (update_at_cases f l k) as [-> | [? ->]]; cbn [bind]
  end; discriminate.
Qed.

Lemma within_lengths (a b : list (list R)) (j : nat) :
  map (@List.length R) a = map (@List.length R) b -> within a j -> within b j.
Proof.
  revert b. induction a as [|x a IH]; intros [|y b] Hl H; simpl in Hl;
    try discriminate; [constructor|].
  inversion Hl. inversion H; subst. constructor; [lia|]. apply IH; assumption.
Qed.

Lemma left_by_step (visits : list (nat * nat * nat)) (v : nat * nat * nat)
    (field : cross_section -> R) (l0 l1 l2 : list R) :
  List.length l1 = List.length l0 ->
  nth_error l1 (dof_of v) = Some (field (section v)) ->
  (forall k : nat, k <> dof_of v -> nth_error l1 k = nth_error l0 k) ->
  left_by c E IMPORT_E E_branch Curv_ Ru hu p_int p_ext visits field l1 l2 ->
  left_by c E IMPORT_E E_branch Curv_ Ru hu p_int p_ext (v :: visits) field l0 l2.
Proof.
  intros Hlen Hat Hother [Hl Hk]. split; [congruence|].
  intros k. rewrite Hk. unfold entry_after. cbn [last_visit].
  destruct (last_visit visits k) as [w|]; [reflexivity|].
  destruct (Nat.eqb_spec (dof_of v) k) as [<-|Hne]; [exact Hat|].
  apply Hother. congruence.
Qed.

Lemma loop_result (visits : list (nat * nat * nat)) :
  forall (param param' : ParameterStore) (cv cv' : list R),
    loop visits (param, cv) = Ok (param', cv') ->
    left_by c E IMPORT_E E_branch Curv_ Ru hu p_int p_ext visits radius
      (R_ param) (R_ param') /\
    left_by c E IMPORT_E E_branch Curv_ Ru hu p_int p_ext visits area
      (CSarea_ param) (CSarea_ param') /\
    left_by c E IMPORT_E E_branch Curv_ Ru hu p_int p_ext visits per
      (CSper_ param) (CSper_ param') /\
    left_by c E IMPORT_E E_branch Curv_ Ru hu p_int p_ext visits cond cv cv'.
Proof.
  induction visits as [|v rest IH]; intros param param' cv cv' H.
  - simpl in H. inversion H; subst.
    repeat split; reflexivity.
  - cbn [visit_all] in H. apply bind_Ok in H. destruct H as [[p1 cv1] [Hv H]].
    destruct (IH _ _ _ _ H) as [HR [HA [HP HC]]].
    destruct (visit_writes _ _ _ _ _ Hv)
      as [_ [LR [LA [LP [LC [WR [WA [WP [WC Hother]]]]]]]]].
    split; [|split; [|split]];
      (eapply left_by_step; [| | |eassumption];
       [assumption | assumption | intros k Hk; apply (Hother k Hk)]).
Qed.

Lemma visits_fit_lengths (visits : list (nat * nat * nat))
    (param param' : ParameterStore) (cv cv' : list R) :
  List.length (R_ param') = List.length (R_ param) ->
  List.length (CSarea_ param') = List.length (CSarea_ param) ->
  List.length (CSper_ param') = List.length (CSper_ param) ->
  List.length cv' = List.length cv ->
  all_fit visits param cv Ru hu p_int p_ext ->
  all_fit visits param' cv' Ru hu p_int p_ext.
Proof.
  intros LR LA LP LC H. unfold visits_fit in *.
  eapply Forall_impl; [|exact H]. intros v [Hv Hc]. split; [|exact Hc].
  eapply within_lengths; [|exact Hv]. simpl. congruence.
Qed.

Lemma loop_runs (visits : list (nat * nat * nat)) :
  forall (param : ParameterStore) (cv : list R),
    all_fit visits param cv Ru hu p_int p_ext ->
    exists st, loop visits (param, cv) = Ok st.
Proof.
  induction visits as [|v rest IH]; intros param cv H.
  - eexists. reflexivity.
  - inversion H as [|? ? Hv Hrest]; subst.
    destruct (visit_runs param cv v Hv) as [[p1 cv1] E1].
    cbn [visit_all]. rewrite E1. cbn [bind].
    destruct (visit_writes _ _ _ _ _ E1) as [_ [LR [LA [LP [LC _]]]]].
    apply IH. eapply visits_fit_lengths; [| | | |exact Hrest]; assumption.
Qed.

Lemma loop_fits (visits : list (nat * nat * nat)) :
  forall (param : ParameterStore) (cv : list R) (st : ParameterStore * list R),
    loop visits (param, cv) = Ok st ->
    all_fit visits param cv Ru hu p_int p_ext.
Proof.
  induction visits as [|v rest IH]; intros param cv st H.
  - constructor.
  - cbn [visit_all] in H. apply bind_Ok in H. destruct H as [[p1 cv1] [Hv H]].
    destruct (visit_writes _ _ _ _ _ Hv) as [Hw [LR [LA [LP [LC _]]]]].
    constructor; [exact Hw|].
    apply (visits_fit_lengths rest p1 param cv1 cv); try congruence.
    eapply IH. exact H.
Qed.

Lemma loop_never_aborts (visits : list (nat * nat * nat)) :
  forall (st : ParameterStore * list R) (msg : string),
    loop visits st <> Abort msg.
Proof.
  induction visits as [|v rest IH]; intros st msg; [discriminate|].
  cbn [visit_all].
  pose proof (visit_never_aborts st v) as Hv.
  destruct (visit st v) as [st1|m|]; cbn [bind].
  - apply IH.
  - exfalso. exact (Hv m eq_refl).
  - discriminate.
Qed.

Lemma left_by_again (visits : list (nat * nat * nat))
    (field : cross_section -> R) (l0 l1 l2 : list R) :
  left_by c E IMPORT_E E_branch Curv_ Ru hu p_int p_ext visits field l0 l1 ->
  left_by c E IMPORT_E E_branch Curv_ Ru hu p_int p_ext visits field l1 l2 ->
  l2 = l1.
Proof.
  intros [L1 H1] [L2 H2]. apply nth_error_ext. intros k.
  rewrite H2. unfold entry_after. specialize (H1 k). unfold entry_after in H1.
  destruct (last_visit visits k); [symmetry; exact H1 | reflexivity].
Qed.

(** Outside these bounds an access is out of range. *)
Lemma loop_unfit (visits : list (nat * nat * nat)) (param : ParameterStore)
    (cv : list R) :
  ~ all_fit visits param cv Ru hu p_int p_ext ->
  loop visits (param, cv) = Undef.
Proof.
  intros Hnot.
  pose proof (loop_fits visits param cv) as Hfits.
  pose proof (loop_never_aborts visits (param, cv)) as Habort.
  destruct (loop visits (param, cv)) as [st|m|].
  - exfalso. apply Hnot. exact (Hfits st eq_refl).
  - exfalso. exact (Habort m eq_refl).
  - reflexivity.
Qed.

End ComplianceLoopFacts.

Section ComplianceLoopProperties.

Import Compliance ComplianceLoop.
Local Open Scope R_scope.

Variable c : constants.
Variable E : R.
Variable IMPORT_E : bool.
Variable E_branch : nat -> R.
Variable Curv_ : list (list R).

(** X11.  When [vessel_conductivity_vec] returns, each of the four vectors
    it writes ([R_], [CSarea_], [CSper_] of the parameter store and [cond])
    has the size it had, holds at every degree of freedom that was visited
    the radius, area, perimeter and conductance of the section computed at
    its last visit from the input vectors [Ru], [hu], [p_int], [p_ext], and
    holds at every other index the entry it had before the call. *)
Theorem compliance_loop_last_write :
  forall (visits : list (nat * nat * nat)) (param param' : ParameterStore)
         (cond_vec cond_vec' Ru hu p_int p_ext : list R),
    vessel_conductivity_vec c E IMPORT_E E_branch Curv_ visits param cond_vec
      Ru hu p_int p_ext = Ok (param', cond_vec') ->
    left_by c E IMPORT_E E_branch Curv_ Ru hu p_int p_ext visits radius
      (R_ param) (R_ param') /\
    left_by c E IMPORT_E E_branch Curv_ Ru hu p_int p_ext visits area
      (CSarea_ param) (CSarea_ param') /\
    left_by c E IMPORT_E E_branch Curv_ Ru hu p_int p_ext visits per
      (CSper_ param) (CSper_ param') /\
    left_by c E IMPORT_E E_branch Curv_ Ru hu p_int p_ext visits cond
      cond_vec cond_vec'.
Proof.
  intros visits param param' cond_vec cond_vec' Ru hu p_int p_ext H.
  unfold vessel_conductivity_vec in H.
  exact (loop_result c E IMPORT_E E_branch Curv_ Ru hu p_int p_ext visits
           param param' cond_vec cond_vec' H).
Qed.

(** X12.  [vessel_conductivity_vec] completes when every visited index is
    an index of the four vectors it reads and of the four it writes, and
    every visit that keeps the section circular (arteriole, or venule
    below the threshold of buckling) finds its entry [Curv_[i][indcv_loc]];
    when one of these accesses is out of range the behaviour is undefined.
    No assertion guards the accesses. *)
Theorem compliance_loop_completes :
  forall (visits : list (nat * nat * nat)) (param : ParameterStore)
         (cond_vec Ru hu p_int p_ext : list R),
    (visits_fit c E IMPORT_E E_branch Curv_ visits param cond_vec
       Ru hu p_int p_ext ->
     exists st,
       vessel_conductivity_vec c E IMPORT_E E_branch Curv_ visits param
         cond_vec Ru hu p_int p_ext = Ok st) /\
    (~ visits_fit c E IMPORT_E E_branch Curv_ visits param cond_vec
         Ru hu p_int p_ext ->
     vessel_conductivity_vec c E IMPORT_E E_branch Curv_ visits param
       cond_vec Ru hu p_int p_ext = Undef).
Proof.
  intros visits param cond_vec Ru hu p_int p_ext.
  unfold vessel_conductivity_vec. split.
  - apply loop_runs.
  - apply loop_unfit.
Qed.

(** X13.  A second call of [vessel_conductivity_vec] with the same
    undeformed radii, thicknesses and pressures changes nothing: the
    sections are computed from the vectors given, never from the radii the
    first call stored. *)
Theorem compliance_loop_idempotent :
  forall (visits : list (nat * nat * nat)) (param param' : ParameterStore)
         (cond_vec cond_vec' Ru hu p_int p_ext : list R),
    vessel_conductivity_vec c E IMPORT_E E_branch Curv_ visits param cond_vec
      Ru hu p_int p_ext = Ok (param', cond_vec') ->
    vessel_conductivity_vec c E IMPORT_E E_branch Curv_ visits param' cond_vec'
      Ru hu p_int p_ext = Ok (param', cond_vec').
Proof.
  intros visits param param' cond_vec cond_vec' Ru hu p_int p_ext H.
  unfold vessel_conductivity_vec in *.
  destruct (loop_result c E IMPORT_E E_branch Curv_ Ru hu p_int p_ext visits
              param param' cond_vec cond_vec' H) as [HR [HA [HP HC]]].
  pose proof (loop_fits c E IMPORT_E E_branch Curv_ Ru hu p_int p_ext
                visits param cond_vec _ H) as Hfit.
  assert (Hfit' : visits_fit c E IMPORT_E E_branch Curv_ visits param'
                    cond_vec' Ru hu p_int p_ext).
  { eapply visits_fit_lengths; [| | | |exact Hfit];
      [apply HR | apply HA | apply HP | apply HC]. }
  destruct (loop_runs c E IMPORT_E E_branch Curv_ Ru hu p_int p_ext visits
              param' cond_vec' Hfit') as [[p2 cv2] E2].
  rewrite E2.
  destruct (loop_result c E IMPORT_E E_branch Curv_ Ru hu p_int p_ext visits
              param' p2 cond_vec' cv2 E2) as [HR2 [HA2 [HP2 HC2]]].
  pose proof (left_by_again c E IMPORT_E E_branch Curv_ Ru hu p_int p_ext
                visits radius _ _ _ HR HR2) as ER.
  pose proof (left_by_again c E IMPORT_E E_branch Curv_ Ru hu p_int p_ext
                visits area _ _ _ HA HA2) as EA.
  pose proof (left_by_again c E IMPORT_E E_branch Curv_ Ru hu p_int p_ext
                visits per _ _ _ HP HP2) as EP.
  pose proof (left_by_again c E IMPORT_E E_branch Curv_ Ru hu p_int p_ext
                visits cond _ _ _ HC HC2) as EC.
  destruct p2 as [r2 a2 q2], param' as [r1 a1 q1]. simpl in *. subst.
  reflexivity.
Qed.

End ComplianceLoopProperties.

Section ComplianceLoopWitnesses.

Import Compliance ComplianceLoop.
Local Open Scope R_scope.

Lemma compliance_loop_last_write_witness :
  exists param' cond_vec',
    left_by unit_constants 1 false (fun _ => 1) [[0; 0]]
      [100; 50] [1; 10] [0; 0] [1; 0] [(0, 1, 0); (0, 1, 1)]%nat radius
      [100; 50] (R_ param') /\
    left_by unit_constants 1 false (fun _ => 1) [[0; 0]]
      [100; 50] [1; 10] [0; 0] [1; 0] [(0, 1, 0); (0, 1, 1)]%nat cond
      [0; 0] cond_vec'.
Proof.
  assert (Hv : exists param' cond_vec',
             vessel_conductivity_vec unit_constants 1 false (fun _ => 1)
               [[0; 0]] [(0, 1, 0); (0, 1, 1)]%nat
               {| R_ := [100; 50]; CSarea_ := [0; 0]; CSper_ := [0; 0] |}
               [0; 0] [100; 50] [1; 10] [0; 0] [1; 0]
             = Ok (param', cond_vec')).
  { do 2 eexists. run_visits. reflexivity. }
  destruct Hv as [param' [cond_vec' Hv]].
  exists param', cond_vec'.
  destruct (compliance_loop_last_write unit_constants 1 false (fun _ => 1)
              [[0; 0]] [(0, 1, 0); (0, 1, 1)]%nat
              {| R_ := [100; 50]; CSarea_ := [0; 0]; CSper_ := [0; 0] |} param'
              [0; 0] cond_vec' [100; 50] [1; 10] [0; 0] [1; 0] Hv)
    as [HR [_ [_ HC]]].
  split; [exact HR | exact HC].
Defined.

Lemma compliance_loop_completes_witness :
  (exists st,
     vessel_conductivity_vec unit_constants 1 false (fun _ => 1)
       [[0; 0]] [(0, 0, 0); (0, 1, 1)]%nat
       {| R_ := [100; 50]; CSarea_ := [0; 0]; CSper_ := [0; 0] |} [0; 0]
       [100; 50] [1; 10] [0; 0] [1; 0] = Ok st) /\
  vessel_conductivity_vec unit_constants 1 false (fun _ => 1)
    [[0; 0]] [(0, 0, 0); (0, 1, 1)]%nat
    {| R_ := [100; 50]; CSarea_ := [0]; CSper_ := [0; 0] |} [0; 0]
    [100; 50] [1; 10] [0; 0] [1; 0] = Undef /\
  vessel_conductivity_vec unit_constants 1 false (fun _ => 1)
    [[0]] [(0, 0, 0); (0, 1, 1)]%nat
    {| R_ := [100; 50]; CSarea_ := [0; 0]; CSper_ := [0; 0] |} [0; 0]
    [100; 50] [1; 10] [0; 0] [1; 0] = Undef.
Proof.
  split; [|split].
  - apply (proj1 (compliance_loop_completes unit_constants 1 false
                    (fun _ => 1) [[0; 0]] [(0, 0, 0); (0, 1, 1)]%nat
                    {| R_ := [100; 50]; CSarea_ := [0; 0]; CSper_ := [0; 0] |}
                    [0; 0] [100; 50] [1; 10] [0; 0] [1; 0])).
    unfold visits_fit, visit_fits, within, has_curvature.
    repeat constructor;
      intros _; eexists; (split; [reflexivity | simpl; lia]).
  - apply (proj2 (compliance_loop_completes unit_constants 1 false
                    (fun _ => 1) [[0; 0]] [(0, 0, 0); (0, 1, 1)]%nat
                    {| R_ := [100; 50]; CSarea_ := [0]; CSper_ := [0; 0] |}
                    [0; 0] [100; 50] [1; 10] [0; 0] [1; 0])).
    unfold visits_fit, visit_fits, within. intros H.
    apply Forall_inv_tail, Forall_inv in H. destruct H as [H _].
    apply Forall_inv_tail, Forall_inv in H.
    unfold dof_of in H. simpl in H. lia.
  - apply (proj2 (compliance_loop_completes unit_constants 1 false
                    (fun _ => 1) [[0]] [(0, 0, 0); (0, 1, 1)]%nat
                    {| R_ := [100; 50]; CSarea_ := [0; 0]; CSper_ := [0; 0] |}
                    [0; 0] [100; 50] [1; 10] [0; 0] [1; 0])).
    unfold visits_fit, visit_fits. intros H.
    apply Forall_inv_tail, Forall_inv in H. destruct H as [_ H].
    destruct H as [row [Hrow Hloc]].
    + unfold stays_circular. cbn [nth].
      rewrite (Rgeb_true (10 / 50) 0.1) by lra. reflexivity.
    + simpl in Hrow. inversion Hrow; subst. simpl in Hloc. lia.
Defined.

Lemma compliance_loop_idempotent_witness :
  exists param' cond_vec',
    vessel_conductivity_vec unit_constants 1 false (fun _ => 1)
      [[0; 0]] [(0, 0, 0); (0, 1, 1)]%nat param' cond_vec'
      [100; 50] [1; 10] [0; 0] [1; 0] = Ok (param', cond_vec') /\
    List.length cond_vec' = 2%nat.
Proof.
  do 2 eexists. split.
  - apply (compliance_loop_idempotent unit_constants 1 false (fun _ => 1)
             [[0; 0]] [(0, 0, 0); (0, 1, 1)]%nat
             {| R_ := [100; 50]; CSarea_ := [0; 0]; CSper_ := [0; 0] |} _
             [0; 0] _ [100; 50] [1; 10] [0; 0] [1; 0]).
    run_visits. reflexivity.
  - reflexivity.
Defined.

End ComplianceLoopWitnesses.

(* ================================================================== *)
(** * The three regimes of the deformed cross section *)

Section RegimeFacts.

Import Compliance.
Local Open Scope R_scope.

Variable c : constants.

Lemma ratio_pos (Ru hu : R) : 0 < Ru -> 0 < hu -> 0 < hu / Ru.
Proof. intros HR Hh. apply Rdiv_lt_0_compat; assumption. Qed.

(** The radius of an arteriole and of a circular venule at rest. *)
Lemma arteriole_rest (Ru hu Ei curv : R) :
  radius (arteriole c Ru hu 0 0 Ei curv) = Ru.
Proof. unfold arteriole. cbn [radius]. unfold Rdiv. ring. Qed.

Lemma venule_circular_rest (Ru hu p Ei curv : R) :
  radius (venule_circular c Ru hu p p Ei curv) = Ru.
Proof. unfold venule_circular. cbn [radius]. unfold Rdiv. ring. Qed.

(** The threshold of buckling is positive for a physical wall. *)
Lemma threshold_pos (Ru hu Ei : R) :
  0 < Ru -> 0 < hu -> 0 < Ei -> nu c * nu c < 1 -> 0 < threshold_of c Ru hu Ei.
Proof.
  intros HR Hh HE Hnu. unfold threshold_of.
  pose proof (ratio_pos Ru hu HR Hh) as Hr.
  set (ratio := hu / Ru) in *.
  apply Rdiv_lt_0_compat; [|lra].
  apply Rdiv_lt_0_compat; [|lra].
  assert (0 < Ei * ratio) by (apply Rmult_lt_0_compat; assumption).
  assert (0 < Ei * ratio * ratio) by (apply Rmult_lt_0_compat; assumption).
  assert (0 < Ei * ratio * ratio * ratio) by (apply Rmult_lt_0_compat; assumption).
  lra.
Qed.

(** The relative contraction of a circular venule, at the threshold. *)
Lemma contraction_at_threshold (Ru hu Ei : R) :
  0 < Ru -> 0 < hu -> 0 < Ei -> nu c * nu c < 1 ->
  (1 - nu c * nu c) / (hu / Ru) / Ei * threshold_of c Ru hu Ei
  = (hu / Ru) * (hu / Ru) / 4.
Proof.
  intros HR Hh HE Hnu. unfold threshold_of.
  pose proof (ratio_pos Ru hu HR Hh) as Hr.
  set (ratio := hu / Ru) in *.
  field. repeat split; lra.
Qed.

(** The equivalent pressure at the threshold is 3. *)
Lemma p_adim_scaled (Ru hu p_int p_ext Ei : R) :
  0 < Ru -> 0 < hu -> 0 < Ei -> nu c * nu c < 1 -> P_ c <> 0 ->
  p_adim_of c Ru hu p_int p_ext Ei
  = 3 * ((p_ext - p_int) / threshold_of c Ru hu Ei).
Proof.
  intros HR Hh HE Hnu HP. unfold p_adim_of, threshold_of.
  pose proof (ratio_pos Ru hu HR Hh) as Hr.
  set (ratio := hu / Ru) in *.
  field. repeat split; lra.
Qed.

Lemma p_adim_above_3 (Ru hu p_int p_ext Ei : R) :
  0 < Ru -> 0 < hu -> 0 < Ei -> nu c * nu c < 1 -> P_ c <> 0 ->
  p_ext - p_int > threshold_of c Ru hu Ei ->
  3 < p_adim_of c Ru hu p_int p_ext Ei.
Proof.
  intros HR Hh HE Hnu HP Hd.
  rewrite p_adim_scaled by assumption.
  pose proof (threshold_pos Ru hu Ei HR Hh HE Hnu) as HT.
  assert (1 < (p_ext - p_int) / threshold_of c Ru hu Ei).
  { apply (Rmult_lt_reg_r (threshold_of c Ru hu Ei)); [exact HT|].
    unfold Rdiv. rewrite Rmult_assoc, Rinv_l by lra. lra. }
  lra.
Qed.

(** The conductance of a buckled venule, in closed form. *)
Lemma buckled_cond_closed (Rtmp p : R) :
  Rtmp <> 0 ->
  cond (buckled c Rtmp p)
  = 15.95 * 15.95 / 69.56 * pow e (0.65 * Rmin p 5).
Proof.
  intros HR.
  assert (Hlaw : forall q : R,
            15.95 * pow e (-0.545 * q) * Rtmp * Rtmp
            * (15.95 * pow e (-0.545 * q) * Rtmp * Rtmp)
            / Rtmp / Rtmp / Rtmp / Rtmp / (69.56 * pow e (-1.74 * q))
            = 15.95 * 15.95 / 69.56 * pow e (0.65 * q)).
  { intros q.
    replace (0.65 * q) with (-0.545 * q + -0.545 * q + - (-1.74 * q)) by lra.
    unfold pow. rewrite !Rpower_plus, Rpower_Ropp.
    pose proof (pow_e_pos (-0.545 * q)) as H1.
    pose proof (pow_e_pos (-1.74 * q)) as H2.
    unfold pow in H1, H2.
    field. split; lra. }
  unfold buckled. destruct (Rlt_dec p 5) as [Hlt|Hge].
  - rewrite (Rltb_true p 5) by exact Hlt. cbn [cond].
    rewrite Rmin_left by lra. apply Hlaw.
  - rewrite (Rltb_false p 5) by lra. cbn [cond].
    rewrite Rmin_right by lra. apply Hlaw.
Qed.

(** The section at rest is the undeformed circle. *)
Lemma rest_section (Ru hu Ei curv : R) :
  pi c <> 0 -> 0 < Ru -> 0 < hu -> 0 < Ei -> nu c * nu c < 1 ->
  deformed_section c Ru hu 0 0 Ei curv
  = {| radius := Ru;
       area := pi c * Ru * Ru;
       per := 2 * pi c * Ru;
       cond := U_ c / P_ c / d c * 2 * pi c * (Gamma_ c + 2)
               * (1 + curv * curv * Ru * Ru) |}.
Proof.
  intros Hpi HR Hh HE Hnu.
  assert (Hcirc : forall s : cross_section,
            radius s = Ru ->
            area s = pi c * radius s * radius s ->
            per s = 2 * pi c * radius s ->
            cond s = U_ c / P_ c / d c * area s * area s * 2 * (Gamma_ c + 2)
                     / pi c / radius s / radius s / radius s / radius s
                     * (1 + curv * curv * radius s * radius s) ->
            s = {| radius := Ru;
                   area := pi c * Ru * Ru;
                   per := 2 * pi c * Ru;
                   cond := U_ c / P_ c / d c * 2 * pi c * (Gamma_ c + 2)
                           * (1 + curv * curv * Ru * Ru) |}).
  { intros [r a q k]. cbn [radius area per cond]. intros -> -> -> ->.
    f_equal. apply circular_cond; [exact Hpi | lra]. }
  destruct (Rge_dec (hu / Ru) 0.1) as [Hge|Hlt].
  - rewrite (deformed_section_arteriole c _ _ _ _ _ _ Hge).
    apply Hcirc; [apply arteriole_rest | reflexivity | reflexivity | reflexivity].
  - apply Rnot_ge_lt in Hlt.
    rewrite (deformed_section_venule_circular c Ru hu 0 0 Ei curv Hlt).
    + apply Hcirc;
        [apply venule_circular_rest | reflexivity | reflexivity | reflexivity].
    + pose proof (threshold_pos Ru hu Ei HR Hh HE Hnu). lra.
Qed.

End RegimeFacts.

Section RegimeProperties.

Import Compliance.
Local Open Scope R_scope.

(** X14.  With zero internal and external pressure the compliance model
    gives back the undeformed vessel, in the arteriole and in the venule
    regime alike: for a positive radius, thickness and Young modulus and a
    Poisson modulus of square below 1, the section is the circle of the
    undeformed radius [Ru], with area [pi Ru^2], perimeter [2 pi Ru] and
    conductance [U/(P d) 2 pi (Gamma+2) (1 + curv^2 Ru^2)]. *)
Theorem rest_state_is_undeformed :
  forall (c : constants) (Ru hu Ei curv : R),
    pi c <> 0 -> 0 < Ru -> 0 < hu -> 0 < Ei -> nu c * nu c < 1 ->
    deformed_section c Ru hu 0 0 Ei curv
    = {| radius := Ru;
         area := pi c * Ru * Ru;
         per := 2 * pi c * Ru;
         cond := U_ c / P_ c / d c * 2 * pi c * (Gamma_ c + 2)
                 * (1 + curv * curv * Ru * Ru) |}.
Proof.
  intros c Ru hu Ei curv Hpi HR Hh HE Hnu.
  apply rest_section; assumption.
Qed.

Lemma rest_state_is_undeformed_witness :
  deformed_section unit_constants 100 1 0 0 1 0
  = {| radius := 100;
       area := PI * 100 * 100;
       per := 2 * PI * 100;
       cond := 1 / 1 / 1 * 2 * PI * (2 + 2) * (1 + 0 * 0 * 100 * 100) |}.
Proof.
  apply (rest_state_is_undeformed unit_constants 100 1 1 0).
  - exact PI_neq0.
  - lra.
  - lra.
  - lra.
  - simpl. lra.
Defined.

(** X15.  A venule that remains circular (thickness to radius below 0.1,
    pressure difference at most the threshold) never shrinks by more than
    the fraction [ratio^2 / 4] of its radius, so its new radius stays above
    0.9975 of the undeformed one and the divisions by it in the conductance
    are safe; it is at most the undeformed radius when the external
    pressure is the larger one, and at least it otherwise. *)
Theorem circular_venule_radius_bounds :
  forall (c : constants) (Ru hu p_int p_ext Ei curv : R),
    0 < Ru -> 0 < hu -> 0 < Ei -> nu c * nu c < 1 ->
    hu / Ru < 0.1 ->
    p_ext - p_int <= threshold_of c Ru hu Ei ->
    let r := radius (deformed_section c Ru hu p_int p_ext Ei curv) in
    Ru * (1 - (hu / Ru) * (hu / Ru) / 4) <= r /\
    0.9975 * Ru < r /\
    (p_int <= p_ext -> r <= Ru) /\
    (p_ext <= p_int -> Ru <= r).
Proof.
  intros c Ru hu p_int p_ext Ei curv HR Hh HE Hnu Hr Hd r.
  unfold r. rewrite (deformed_section_venule_circular c _ _ _ _ _ _ Hr Hd).
  unfold venule_circular. cbn [radius].
  pose proof (contraction_at_threshold c Ru hu Ei HR Hh HE Hnu) as Hc.
  pose proof (ratio_pos Ru hu HR Hh) as Hpos.
  set (ratio := hu / Ru) in *.
  set (k := (1 - nu c * nu c) / ratio / Ei) in *.
  assert (Hk : 0 < k).
  { unfold k. apply Rdiv_lt_0_compat; [|exact HE].
    apply Rdiv_lt_0_compat; [lra | exact Hpos]. }
  assert (Hle : k * (p_ext - p_int) <= ratio * ratio / 4).
  { rewrite <- Hc. apply Rmult_le_compat_l; lra. }
  assert (Hsmall : ratio * ratio / 4 < 0.0025) by nra.
  split; [|split; [|split]].
  - apply Rmult_le_compat_l; lra.
  - assert (Ru * (1 - 0.0025) < Ru * (1 - k * (p_ext - p_int)))
      by (apply Rmult_lt_compat_l; lra).
    lra.
  - intros Hp.
    assert (0 <= k * (p_ext - p_int)) by (apply Rmult_le_pos; lra).
    assert (Ru * (1 - k * (p_ext - p_int)) <= Ru * 1)
      by (apply Rmult_le_compat_l; lra).
    lra.
  - intros Hp.
    assert (k * (p_ext - p_int) <= 0) by nra.
    assert (Ru * 1 <= Ru * (1 - k * (p_ext - p_int)))
      by (apply Rmult_le_compat_l; lra).
    lra.
Qed.

Lemma circular_venule_radius_bounds_witness :
  0.9975 * 100 < radius (deformed_section unit_constants 100 1 1 0 1 0).
Proof.
  apply (circular_venule_radius_bounds unit_constants 100 1 1 0 1 0).
  - lra.
  - lra.
  - lra.
  - simpl. lra.
  - lra.
  - unfold threshold_of. simpl. lra.
Defined.

(** X16.  In the buckled regime of a venule (thickness to radius below
    0.1, pressure difference above the threshold) the equivalent pressure
    [p_adim] is above 3, and the conductance is
    [15.95^2 / 69.56 * e^(0.65 * min(p_adim, 5))]: it depends on the
    equivalent pressure only, not on the radius nor on the curvature, grows
    with it up to 5 and is constant afterwards. *)
Theorem buckled_conductance_closed_form :
  forall (c : constants) (Ru hu p_int p_ext Ei curv : R),
    0 < Ru -> 0 < hu -> 0 < Ei -> nu c * nu c < 1 -> P_ c <> 0 ->
    hu / Ru < 0.1 ->
    p_ext - p_int > threshold_of c Ru hu Ei ->
    let p := p_adim_of c Ru hu p_int p_ext Ei in
    3 < p /\
    cond (deformed_section c Ru hu p_int p_ext Ei curv)
    = 15.95 * 15.95 / 69.56 * pow e (0.65 * Rmin p 5) /\
    15.95 * 15.95 / 69.56 * pow e (0.65 * 3)
    < cond (deformed_section c Ru hu p_int p_ext Ei curv)
    <= 15.95 * 15.95 / 69.56 * pow e (0.65 * 5).
Proof.
  intros c Ru hu p_int p_ext Ei curv HR Hh HE Hnu HP Hr Hd p.
  pose proof (p_adim_above_3 c Ru hu p_int p_ext Ei HR Hh HE Hnu HP Hd) as H3.
  fold p in H3.
  rewrite (deformed_section_buckled c _ _ _ _ _ _ Hr Hd). fold p.
  rewrite (buckled_cond_closed c Ru p) by lra.
  split; [exact H3|]. split; [reflexivity|].
  assert (Hmin : 3 < Rmin p 5 <= 5).
  { split; [apply Rmin_glb_lt; lra | apply Rmin_r]. }
  split.
  - apply Rmult_lt_compat_l; [lra|].
    unfold pow. apply Rpower_lt; [apply e_gt_1 | lra].
  - apply Rmult_le_compat_l; [lra|].
    destruct (Req_dec (Rmin p 5) 5) as [->|Hne]; [lra|].
    left. unfold pow. apply Rpower_lt; [apply e_gt_1 | lra].
Qed.

Lemma buckled_conductance_closed_form_witness :
  cond (deformed_section unit_constants 100 1 0 1 1 0)
  = 15.95 * 15.95 / 69.56
    * pow e (0.65 * Rmin (p_adim_of unit_constants 100 1 0 1 1) 5).
Proof.
  apply (buckled_conductance_closed_form unit_constants 100 1 0 1 1 0).
  - lra.
  - lra.
  - lra.
  - simpl. lra.
  - simpl. lra.
  - lra.
  - unfold threshold_of. simpl. lra.
Defined.

End RegimeProperties.

(* ================================================================== *)
(** * The blocks of [param3d1d::build] *)

Section ParameterFacts.

Import Compliance Parameters.
Local Open Scope R_scope.

Lemma update_at_middle {A : Type} (f : A -> A) (a : A) (t2 : list A) :
  forall t1 : list A,
    update_at f (List.length t1) (t1 ++ a :: t2) = Ok (t1 ++ f a :: t2).
Proof.
  induction t1 as [|x t1 IH]; simpl; [reflexivity|].
  rewrite IH. reflexivity.
Qed.

Lemma update_at_at {A : Type} (f : A -> A) (a : A) (t1 t2 : list A) (k : nat) :
  k = List.length t1 ->
  update_at f k (t1 ++ a :: t2) = Ok (t1 ++ f a :: t2).
Proof. intros ->. apply update_at_middle. Qed.

Lemma at_index_middle {A : Type} (a : A) (t1 t2 : list A) :
  at_index (t1 ++ a :: t2) (List.length t1) = Ok a.
Proof.
  unfold at_index. rewrite nth_error_app2 by lia.
  rewrite Nat.sub_diag. reflexivity.
Qed.

Lemma at_index_end {A : Type} (t1 : list A) :
  at_index t1 (List.length t1) = Undef.
Proof.
  unfold at_index.
  destruct (nth_error t1 (List.length t1)) eqn:E; [|reflexivity].
  assert (H : nth_error t1 (List.length t1) <> None) by congruence.
  apply nth_error_Some in H. lia.
Qed.

Lemma resize_length (v : list R) (n : nat) : List.length (resize v n) = n.
Proof.
  unfold resize. rewrite length_app, length_firstn, repeat_length. lia.
Qed.

(** The loop of the fallback thickness, from index [length r1] on. *)
Lemma thick_loop_value (r2 : list R) :
  forall r1 t1 t2 : list R,
    List.length t1 = List.length r1 ->
    thick_loop (r1 ++ r2) (seq (List.length r1) (List.length r2)) (t1 ++ t2)
    = if (List.length r2 <=? List.length t2)%nat
      then Ok (t1 ++ map (fun r => r * 0.2) r2 ++ skipn (List.length r2) t2)
      else Undef.
Proof.
  induction r2 as [|r r2 IH]; intros r1 t1 t2 Hlen.
  - reflexivity.
  - cbn [List.length seq thick_loop].
    rewrite at_index_middle. cbn [bind].
    destruct t2 as [|t t2].
    + rewrite app_nil_r.
      rewrite update_at_out_of_range by lia. reflexivity.
    + rewrite update_at_at by lia. cbn [bind].
      replace (r1 ++ r :: r2) with ((r1 ++ [r]) ++ r2)
        by (rewrite <- app_assoc; reflexivity).
      replace (t1 ++ r * 0.2 :: t2) with ((t1 ++ [r * 0.2]) ++ t2)
        by (rewrite <- app_assoc; reflexivity).
      replace (S (List.length r1)) with (List.length (r1 ++ [r]))
        by (rewrite length_app; simpl; lia).
      rewrite IH by (rewrite !length_app; simpl; lia).
      cbn [List.length]. 
      destruct (Nat.leb_spec (List.length r2) (List.length t2)) as [Hle|Hgt].
      * rewrite (proj2 (Nat.leb_le (S (List.length r2)) (S (List.length t2))))
          by lia.
        rewrite <- app_assoc. reflexivity.
      * rewrite (proj2 (Nat.leb_gt (S (List.length r2)) (S (List.length t2))))
          by lia.
        reflexivity.
Qed.

(** The loop of the areas and perimeters, from index [length r1] on. *)
Lemma section_loop_value (pi : R) (a2 : list R) :
  forall r1 r2 a1 q1 q2 : list R,
    List.length a1 = List.length r1 ->
    List.length q1 = List.length r1 ->
    List.length q2 = List.length a2 ->
    section_loop pi (r1 ++ r2) (seq (List.length r1) (List.length a2))
      (a1 ++ a2) (q1 ++ q2)
    = if (List.length a2 <=? List.length r2)%nat
      then Ok (a1 ++ map (fun r => pi * r * r) (firstn (List.length a2) r2),
               q1 ++ map (fun r => 2 * pi * r) (firstn (List.length a2) r2))
      else Undef.
Proof.
  induction a2 as [|a a2 IH]; intros r1 r2 a1 q1 q2 Ha Hq Hq2.
  - destruct q2; [|discriminate]. simpl. rewrite !app_nil_r. reflexivity.
  - destruct q2 as [|q q2]; [discriminate|].
    cbn [List.length seq section_loop].
    destruct r2 as [|r r2].
    + rewrite app_nil_r, at_index_end. reflexivity.
    + rewrite at_index_middle. cbn [bind].
      rewrite update_at_at by lia. cbn [bind].
      rewrite update_at_at by lia. cbn [bind].
      replace (r1 ++ r :: r2) with ((r1 ++ [r]) ++ r2)
        by (rewrite <- app_assoc; reflexivity).
      replace (a1 ++ pi * r * r :: a2) with ((a1 ++ [pi * r * r]) ++ a2)
        by (rewrite <- app_assoc; reflexivity).
      replace (q1 ++ 2 * pi * r :: q2) with ((q1 ++ [2 * pi * r]) ++ q2)
        by (rewrite <- app_assoc; reflexivity).
      replace (S (List.length r1)) with (List.length (r1 ++ [r]))
        by (rewrite length_app; simpl; lia).
      rewrite IH by (rewrite ?length_app; simpl in *; lia).
      cbn [List.length firstn map].
      destruct (Nat.leb_spec (List.length a2) (List.length r2)) as [Hle|Hgt].
      * rewrite (proj2 (Nat.leb_le (S (List.length a2)) (S (List.length r2))))
          by lia.
        rewrite <- !app_assoc. reflexivity.
      * rewrite (proj2 (Nat.leb_gt (S (List.length a2)) (S (List.length r2))))
          by lia.
        reflexivity.
Qed.

End ParameterFacts.

Section ParameterBlockFacts.

Import Compliance ComplianceLoop Parameters.
Local Open Scope R_scope.

(** The radius block on an imported radius, without a thickness file. *)
Lemma radius_block_import (pi RADIUS d : R) (dof_datav : nat) (Rf : list R)
    (import_thick : outcome (list R)) (g : vessel_geometry) :
  radius_block pi true false RADIUS d dof_datav (Ok Rf) false import_thick g
  = if (List.length Rf =? dof_datav)%nat
    then Ok {| store := {| R_ := Rf;
                           CSarea_ := map (fun r => pi * r * r) Rf;
                           CSper_ := map (fun r => 2 * pi * r) Rf |};
               thick_ := map (fun r => r * 0.2) Rf |}
    else Undef.
Proof.
  unfold radius_block. cbn [GMM_ASSERT1 negb bind].
  pose proof (thick_loop_value Rf [] [] (resize (thick_ g) dof_datav) eq_refl)
    as HT.
  cbn [app List.length] in HT. rewrite HT. clear HT.
  rewrite resize_length.
  destruct (Nat.leb_spec (List.length Rf) dof_datav) as [Hle|Hgt].
  - cbn [bind].
    pose proof (section_loop_value pi (resize (CSarea_ (store g)) dof_datav)
                  [] Rf [] [] (resize (CSper_ (store g)) dof_datav)
                  eq_refl eq_refl
                  (eq_trans (resize_length _ _)
                            (eq_sym (resize_length _ _)))) as HS.
    cbn [app List.length] in HS. rewrite !resize_length in HS.
    rewrite HS. clear HS.
    destruct (Nat.eqb_spec (List.length Rf) dof_datav) as [E|N].
    + rewrite (proj2 (Nat.leb_le dof_datav (List.length Rf))) by lia.
      cbn [bind fst snd].
      rewrite skipn_all2 by (rewrite resize_length; lia).
      rewrite app_nil_r, <- E, firstn_all. reflexivity.
    + rewrite (proj2 (Nat.leb_gt dof_datav (List.length Rf))) by lia.
      reflexivity.
  - destruct (Nat.eqb_spec (List.length Rf) dof_datav) as [E|N]; [lia|].
    reflexivity.
Qed.

Lemma fallback_ratio (r : R) : r <> 0 -> r * 0.2 / r = 0.2.
Proof. intros Hr. field. exact Hr. Qed.

(** With an empty thickness vector no visit is within bounds. *)
Lemma no_visit_fits (c : constants) (E : R) (IMPORT_E : bool)
    (E_branch : nat -> R) (Curv_ : list (list R))
    (v : nat * nat * nat) (visits : list (nat * nat * nat))
    (param : ParameterStore) (cond_vec Ru p_int p_ext : list R) :
  ~ visits_fit c E IMPORT_E E_branch Curv_ (v :: visits) param cond_vec
      Ru [] p_int p_ext.
Proof.
  unfold visits_fit, visit_fits, within. intros H.
  apply Forall_inv in H. destruct H as [H _].
  do 5 apply Forall_inv_tail in H. apply Forall_inv in H.
  simpl in H. lia.
Qed.

End ParameterBlockFacts.

Section ParameterProperties.

Import Compliance ComplianceLoop Parameters.
Local Open Scope R_scope.

(** X17.  The radius block of [build] with [IMPORT_RADIUS]: with
    dimensionless parameters it stops on its assertion; with an imported
    radius vector of the size of the vessel data and no thickness file it
    stores that vector, the thickness [0.2 R], the area [pi R^2] and the
    perimeter [2 pi R] of every degree of freedom, whatever the vectors
    held before; with an imported vector of another size a loop runs out
    of range.  With that thickness every degree of freedom of non-zero
    radius is an arteriole for the compliance model, at any pressure. *)
Theorem imported_radius_geometry :
  forall (pi RADIUS d : R) (dof_datav : nat) (Rf : list R)
         (import_thick : outcome (list R)) (g : vessel_geometry),
    (forall (import_R : outcome (list R)) (readable : bool),
       radius_block pi true true RADIUS d dof_datav import_R readable
         import_thick g = Abort msg_import_radius) /\
    (List.length Rf = dof_datav ->
     radius_block pi true false RADIUS d dof_datav (Ok Rf) false import_thick g
     = Ok {| store := {| R_ := Rf;
                         CSarea_ := map (fun r => pi * r * r) Rf;
                         CSper_ := map (fun r => 2 * pi * r) Rf |};
             thick_ := map (fun r => r * 0.2) Rf |}) /\
    (List.length Rf <> dof_datav ->
     radius_block pi true false RADIUS d dof_datav (Ok Rf) false import_thick g
     = Undef) /\
    (forall (c : constants) (r p_int p_ext Ei curv : R),
       r <> 0 ->
       deformed_section c r (r * 0.2) p_int p_ext Ei curv
       = arteriole c r (r * 0.2) p_int p_ext Ei curv).
Proof.
  intros pi RADIUS d dof_datav Rf import_thick g.
  split; [|split; [|split]].
  - intros import_R readable. reflexivity.
  - intros E. rewrite radius_block_import.
    rewrite (proj2 (Nat.eqb_eq _ _) E). reflexivity.
  - intros N. rewrite radius_block_import.
    rewrite (proj2 (Nat.eqb_neq _ _) N). reflexivity.
  - intros c r p_int p_ext Ei curv Hr.
    apply deformed_section_arteriole. rewrite fallback_ratio by exact Hr. lra.
Qed.

Lemma imported_radius_geometry_witness :
  radius_block PI true false 1 1 2 (Ok [3; 4]) false Undef fresh_geometry
  = Ok {| store := {| R_ := [3; 4];
                      CSarea_ := map (fun r => PI * r * r) [3; 4];
                      CSper_ := map (fun r => 2 * PI * r) [3; 4] |};
          thick_ := map (fun r => r * 0.2) [3; 4] |} /\
  radius_block PI true false 1 1 3 (Ok [3; 4]) false Undef fresh_geometry
  = Undef /\
  deformed_section unit_constants 3 (3 * 0.2) 0 1 1 0
  = arteriole unit_constants 3 (3 * 0.2) 0 1 1 0.
Proof.
  split; [|split].
  - apply (proj1 (proj2 (imported_radius_geometry PI 1 1 2 [3; 4] Undef
                           fresh_geometry))).
    reflexivity.
  - apply (proj1 (proj2 (proj2 (imported_radius_geometry PI 1 1 3 [3; 4] Undef
                                  fresh_geometry)))).
    simpl. lia.
  - apply (proj2 (proj2 (proj2 (imported_radius_geometry PI 1 1 2 [3; 4] Undef
                                  fresh_geometry)))).
    lra.
Defined.

(** X18.  Without [IMPORT_RADIUS] the radius block of [build] only fills
    the radius vector with the average radius: on a new [param3d1d] the
    thickness, the areas and the perimeters stay empty, and a call of
    [vessel_conductivity_vec] on them, as [solve_fixpoint] makes it with
    compliant vessels, runs out of range at its first visit. *)
Theorem constant_radius_has_no_sections :
  forall (pi : R) (NONDIM_PARAM : bool) (RADIUS d : R) (dof_datav : nat)
         (import_R : outcome (list R)) (readable : bool)
         (import_thick : outcome (list R)),
  exists g' : vessel_geometry,
    radius_block pi false NONDIM_PARAM RADIUS d dof_datav import_R readable
      import_thick fresh_geometry = Ok g' /\
    R_ (store g')
    = repeat (if NONDIM_PARAM then RADIUS else RADIUS / d) dof_datav /\
    thick_ g' = [] /\ CSarea_ (store g') = [] /\ CSper_ (store g') = [] /\
    forall (c : constants) (E : R) (IMPORT_E : bool) (E_branch : nat -> R)
           (Curv_ : list (list R)) (v : nat * nat * nat)
           (visits : list (nat * nat * nat)) (cond_vec p_int p_ext : list R),
      vessel_conductivity_vec c E IMPORT_E E_branch Curv_ (v :: visits)
        (store g') cond_vec (R_ (store g')) (thick_ g') p_int p_ext = Undef.
Proof.
  intros pi NONDIM_PARAM RADIUS d dof_datav import_R readable import_thick.
  eexists. split; [reflexivity|].
  cbn [store thick_ fresh_geometry R_ CSarea_ CSper_].
  repeat (split; [reflexivity|]).
  intros c E IMPORT_E E_branch Curv_ v visits cond_vec p_int p_ext.
  unfold vessel_conductivity_vec. apply loop_unfit. apply no_visit_fits.
Qed.

(** X19.  The rigid and the compliant coefficient of the vessel flow agree
    at rest.  For a degree of freedom of radius [r] whose area is
    [pi r^2], on a branch whose conductivity is the [kv_] entry that
    [build] computes for [r], and with the same [mu_v] in both functions,
    the coefficient [ciM] of [solve_fixpoint] without compliant vessels
    equals the one with compliant vessels when the conductance is that of
    [vessel_conductivity_vec] at zero internal and external pressure; and
    [Q_rvar] computed from the perimeter [2 pi r] is the [Q_] entry of
    [build]. *)
Theorem rigid_and_compliant_agree_at_rest :
  forall (c : constants) (mu_v mu_start Lp r hu Ei curv mui resistance_j : R),
    pi c <> 0 -> U_ c <> 0 -> P_ c <> 0 -> d c <> 0 -> Gamma_ c + 2 <> 0 ->
    mu_v <> 0 -> mu_start = mu_v ->
    0 < r -> 0 < hu -> 0 < Ei -> nu c * nu c < 1 ->
    ciM_entry false resistance_j (pi c * r * r) (kv_entry c mu_v r) curv r
      mu_start mui
    = ciM_entry true (cond (deformed_section c r hu 0 0 Ei curv))
        (area (deformed_section c r hu 0 0 Ei curv)) (kv_entry c mu_v r) curv
        (radius (deformed_section c r hu 0 0 Ei curv)) mu_start mui /\
    Q_rvar_entry c (2 * pi c * r) Lp = Q_entry c Lp r.
Proof.
  intros c mu_v mu_start Lp r hu Ei curv mui resistance_j
         Hpi HU HP Hd HG Hmu Emu Hr Hh HE Hnu.
  rewrite (rest_section c r hu Ei curv Hpi Hr Hh HE Hnu).
  cbn [radius area cond]. unfold ciM_entry, kv_entry, Q_rvar_entry, Q_entry.
  subst mu_start. split.
  - field. repeat split; try assumption; lra.
  - field. exact HU.
Qed.

Lemma rigid_and_compliant_agree_at_rest_witness :
  ciM_entry false 0 (PI * 100 * 100) (kv_entry unit_constants 1 100) 0 100 1 1
  = ciM_entry true (cond (deformed_section unit_constants 100 1 0 0 1 0))
      (area (deformed_section unit_constants 100 1 0 0 1 0))
      (kv_entry unit_constants 1 100) 0
      (radius (deformed_section unit_constants 100 1 0 0 1 0)) 1 1.
Proof.
  apply (rigid_and_compliant_agree_at_rest unit_constants 1 1 1 100 1 1 0 1 0).
  - exact PI_neq0.
  - simpl. lra.
  - simpl. lra.
  - simpl. lra.
  - simpl. lra.
  - lra.
  - reflexivity.
  - lra.
  - lra.
  - lra.
  - simpl. lra.
Defined.

End ParameterProperties.

Section ConductivityBlockProperties.

Import Compliance Parameters.
Local Open Scope R_scope.



End ConductivityBlockProperties.

(* ================================================================== *)
(** * The residual as a distance *)

Section ResidualFacts.

Import FixedPoint.
Local Open Scope R_scope.

Lemma sum_squares_shift (v : vector) :
  forall a : R,
    fold_left (fun acc x => acc + x * x) v a
    = a + fold_left (fun acc x => acc + x * x) v 0.
Proof.
  induction v as [|x v IH]; intros a; simpl; [ring|].
  rewrite (IH (a + x * x)), (IH (0 + x * x)). ring.
Qed.

Lemma sum_squares_nonneg (v : vector) :
  0 <= fold_left (fun acc x => acc + x * x) v 0.
Proof.
  induction v as [|x v IH]; simpl; [lra|].
  rewrite sum_squares_shift. pose proof (Rle_0_sqr x) as Hx.
  unfold Rsqr in Hx. lra.
Qed.

Lemma sum_squares_zero (v : vector) :
  fold_left (fun acc x => acc + x * x) v 0 = 0 <-> Forall (fun x => x = 0) v.
Proof.
  induction v as [|x v IH]; simpl.
  - split; [constructor | reflexivity].
  - rewrite sum_squares_shift.
    pose proof (sum_squares_nonneg v) as Hv.
    pose proof (Rle_0_sqr x) as Hx. unfold Rsqr in Hx.
    split.
    + intros E.
      assert (Hx0 : x * x = 0) by lra.
      assert (Hv0 : fold_left (fun acc x => acc + x * x) v 0 = 0) by lra.
      constructor; [|apply IH; exact Hv0].
      apply Rmult_integral in Hx0. tauto.
    + intros HF. inversion HF as [|? ? Hx0 Hv0]; subst.
      apply IH in Hv0. rewrite Hv0. ring.
Qed.

Lemma vect_norm2_nonneg (v : vector) : 0 <= vect_norm2 v.
Proof. unfold vect_norm2. apply sqrt_pos. Qed.

Lemma vect_norm2_zero (v : vector) :
  vect_norm2 v = 0 <-> Forall (fun x => x = 0) v.
Proof.
  unfold vect_norm2. rewrite <- sum_squares_zero. split.
  - intros E. apply sqrt_eq_0; [apply sum_squares_nonneg | exact E].
  - intros E. rewrite E. apply sqrt_0.
Qed.

Lemma norm_opposite (v : vector) : vect_norm2 (scale v (-1)) = vect_norm2 v.
Proof.
  unfold vect_norm2, scale. f_equal.
  generalize 0. induction v as [|y v IH]; intros a; [reflexivity|].
  cbn [map fold_left].
  replace (a + y * -1 * (y * -1)) with (a + y * y) by ring.
  apply IH.
Qed.

Lemma null_opposite (v : vector) :
  Forall (fun x => x = 0) (scale v (-1)) <-> Forall (fun x => x = 0) v.
Proof.
  unfold scale. rewrite Forall_map. split; intros HF;
    (eapply Forall_impl; [|exact HF]); simpl; intros x Hx; lra.
Qed.

Lemma null_difference :
  forall U_N U_O : vector,
    List.length U_N = List.length U_O ->
    Forall (fun x => x = 0)
      (map (fun yx => fst yx + snd yx) (combine U_N (scale U_O (-1))))
    <-> U_N = U_O.
Proof.
  induction U_N as [|x U_N IH]; intros [|y U_O] Hlen; simpl in Hlen;
    try discriminate.
  - simpl. split; [reflexivity | constructor].
  - cbn [scale map combine fst snd]. split.
    + intros HF. inversion HF as [|? ? Hx Hrest]; subst.
      f_equal; [lra|]. apply IH; [lia | exact Hrest].
    + intros E. inversion E; subst. constructor; [lra|].
      apply IH; [lia | reflexivity].
Qed.

End ResidualFacts.

Section ResidualProperties.

Import FixedPoint.
Local Open Scope R_scope.

(** X21.  [calcolo_Rk] is the relative distance of two hematocrit
    iterates.  When a vector has not the size of the hematocrit unknown
    the copy stops the program on the dimension check; for two vectors of
    that size whose old iterate is not null the result is the finite
    number [|U_N - U_O| / |U_O|], which is never negative and is zero
    exactly when the two iterates are equal. *)
Theorem hematocrit_residual_is_a_distance :
  forall (H : nat) (U_N U_O : vector),
    (List.length U_N <> H \/ List.length U_O <> H ->
     calcolo_Rk H U_N U_O = Abort msg_dimensions) /\
    (List.length U_N = H -> List.length U_O = H ->
     Exists (fun x => x <> 0) U_O ->
     exists x : R,
       calcolo_Rk H U_N U_O = Ok (Finite x) /\
       x = vect_norm2 (map (fun yx => fst yx + snd yx)
                         (combine U_N (scale U_O (-1))))
           / vect_norm2 U_O /\
       0 <= x /\
       (x = 0 <-> U_N = U_O)).
Proof.
  intros H U_N U_O. split.
  - intros Hbad. unfold calcolo_Rk, copy.
    destruct (Nat.eqb_spec (List.length U_O) H) as [EO|NO]; [|reflexivity].
    cbn [bind].
    destruct (Nat.eqb_spec (List.length U_N) H) as [EN|NN]; [|reflexivity].
    destruct Hbad; contradiction.
  - intros HN HO Hnz.
    pose proof (norm_opposite U_O) as Hsame.
    assert (Hpos : 0 < vect_norm2 U_O).
    { destruct (vect_norm2_nonneg U_O) as [Hlt|Heq]; [exact Hlt|].
      exfalso. symmetry in Heq. apply vect_norm2_zero in Heq.
      apply Exists_exists in Hnz. destruct Hnz as [x [Hin Hx]].
      rewrite Forall_forall in Heq. exact (Hx (Heq x Hin)). }
    eexists. split; [|split; [reflexivity|split]].
    + rewrite (calcolo_Rk_value H U_N U_O HN HO). rewrite Hsame.
      unfold fdiv. rewrite (Reqb_false _ 0) by lra. reflexivity.
    + apply Rmult_le_pos; [apply vect_norm2_nonneg|].
      left. apply Rinv_0_lt_compat. exact Hpos.
    + rewrite <- (null_difference U_N U_O) by congruence.
      rewrite <- vect_norm2_zero. split.
      * intros E. apply Rmult_integral in E. destruct E as [E|E]; [exact E|].
        exfalso. pose proof (Rinv_0_lt_compat _ Hpos). lra.
      * intros E. rewrite E. unfold Rdiv. ring.
Qed.

Lemma hematocrit_residual_is_a_distance_witness :
  calcolo_Rk 2 [1] [1; 2] = Abort msg_dimensions /\
  exists x : R,
    calcolo_Rk 2 [1; 2] [3; 4] = Ok (Finite x) /\
    x = vect_norm2 (map (fun yx => fst yx + snd yx)
                      (combine [1; 2] (scale [3; 4] (-1))))
        / vect_norm2 [3; 4] /\
    0 <= x /\
    (x = 0 <-> [1; 2] = [3; 4]).
Proof.
  split.
  - apply (proj1 (hematocrit_residual_is_a_distance 2 [1] [1; 2])).
    left. simpl. lia.
  - apply (proj2 (hematocrit_residual_is_a_distance 2 [1; 2] [3; 4])).
    + reflexivity.
    + reflexivity.
    + constructor. lra.
Defined.

End ResidualProperties.

(* ================================================================== *)
(** * The radius of an arteriole under pressure *)

Section ArterioleFacts.

Import Compliance.
Local Open Scope R_scope.

Variable c : constants.

(** The radius of an arteriole is affine in the two pressures. *)
Lemma arteriole_radius_affine (Ru hu p_int p_ext Ei curv : R) :
  0 < Ru -> 0 < hu -> Ei <> 0 ->
  radius (arteriole c Ru hu p_int p_ext Ei curv)
  = Ru * (1 + (p_int * ((1 - nu c) * Ru * Ru
                        + (1 + nu c) * ((Ru + hu) * (Ru + hu)))
               - 2 * p_ext * ((Ru + hu) * (Ru + hu)))
              * / (Ei * ((Ru + hu) * (Ru + hu) - Ru * Ru))).
Proof.
  intros HR Hh HE. unfold arteriole. cbn [radius].
  assert (Hden : (Ru + hu) * (Ru + hu) - Ru * Ru <> 0) by nra.
  field. repeat split; try assumption; lra.
Qed.

Lemma wall_factor_pos (Ru hu Ei : R) :
  0 < Ru -> 0 < hu -> 0 < Ei ->
  0 < / (Ei * ((Ru + hu) * (Ru + hu) - Ru * Ru)).
Proof.
  intros HR Hh HE. apply Rinv_0_lt_compat.
  apply Rmult_lt_0_compat; [exact HE | nra].
Qed.

Lemma inner_weight_pos (Ru hu : R) :
  0 < Ru -> 0 < hu -> -1 <= nu c <= 1 ->
  0 < (1 - nu c) * Ru * Ru + (1 + nu c) * ((Ru + hu) * (Ru + hu)).
Proof.
  intros HR Hh Hnu.
  assert (H1 : 0 < Ru * Ru) by nra.
  assert (H2 : Ru * Ru < (Ru + hu) * (Ru + hu)) by nra.
  assert (H3 : 0 <= (1 - nu c) * (Ru * Ru)) by (apply Rmult_le_pos; lra).
  assert (H4 : 0 <= (1 + nu c) * ((Ru + hu) * (Ru + hu)))
    by (apply Rmult_le_pos; lra).
  destruct (Rle_lt_dec (nu c) 0) as [Hneg|Hpos].
  - assert (Ru * Ru <= (1 - nu c) * (Ru * Ru)) by nra. lra.
  - assert ((Ru + hu) * (Ru + hu) <= (1 + nu c) * ((Ru + hu) * (Ru + hu)))
      by nra.
    lra.
Qed.

End ArterioleFacts.

Section ArterioleProperties.

Import Compliance.
Local Open Scope R_scope.

(** X23.  In the arteriole regime (thickness to radius at least 0.1) the
    new radius is an affine function of the two pressures: it decreases
    strictly when the external pressure grows and increases strictly when
    the internal pressure grows.  Nothing bounds it from below: at the
    external pressure [(Ei den + p_int w) / (2 S)], with
    [S = (Ru + hu)^2], [den = S - Ru^2] and
    [w = (1 - nu) Ru^2 + (1 + nu) S], the radius stored is zero, the value
    by which the conductance is then divided. *)
Theorem arteriole_radius_follows_pressures :
  forall (c : constants) (Ru hu p_int p_ext Ei curv : R),
    0 < Ru -> 0 < hu -> 0 < Ei -> -1 <= nu c <= 1 -> hu / Ru >= 0.1 ->
    let r := fun p_i p_e : R =>
               radius (deformed_section c Ru hu p_i p_e Ei curv) in
    let S := (Ru + hu) * (Ru + hu) in
    let den := S - Ru * Ru in
    let w := (1 - nu c) * Ru * Ru + (1 + nu c) * S in
    r p_int p_ext
    = Ru * (1 + (p_int * w - 2 * p_ext * S) * / (Ei * den)) /\
    (forall p_ext' : R, p_ext < p_ext' -> r p_int p_ext' < r p_int p_ext) /\
    (forall p_int' : R, p_int < p_int' -> r p_int p_ext < r p_int' p_ext) /\
    r p_int ((Ei * den + p_int * w) / (2 * S)) = 0.
Proof.
  intros c Ru hu p_int p_ext Ei curv HR Hh HE Hnu Hratio r S den w.
  assert (Hr : forall p_i p_e : R,
            r p_i p_e = Ru * (1 + (p_i * w - 2 * p_e * S) * / (Ei * den))).
  { intros p_i p_e. unfold r.
    rewrite (deformed_section_arteriole c _ _ _ _ _ _ Hratio).
    apply arteriole_radius_affine; lra. }
  pose proof (wall_factor_pos Ru hu Ei HR Hh HE) as HK.
  pose proof (inner_weight_pos c Ru hu HR Hh Hnu) as Hw.
  fold S in HK, Hw. fold den in HK. fold w in Hw.
  assert (HS : 0 < S) by (unfold S; nra).
  set (K := / (Ei * den)) in *.
  split; [apply Hr|]. split; [|split].
  - intros p_ext' Hlt. rewrite !Hr.
    apply Rmult_lt_compat_l; [exact HR|].
    apply Rplus_lt_compat_l. apply Rmult_lt_compat_r; [exact HK|].
    assert (2 * p_ext * S < 2 * p_ext' * S)
      by (apply Rmult_lt_compat_r; lra).
    lra.
  - intros p_int' Hlt. rewrite !Hr.
    apply Rmult_lt_compat_l; [exact HR|].
    apply Rplus_lt_compat_l. apply Rmult_lt_compat_r; [exact HK|].
    assert (p_int * w < p_int' * w) by (apply Rmult_lt_compat_r; lra).
    lra.
  - rewrite Hr. unfold K.
    assert (Hden : den <> 0) by (unfold den, S; nra).
    field. repeat split; lra.
Qed.

Lemma arteriole_radius_follows_pressures_witness :
  radius (deformed_section unit_constants 1 1 0 (3 / 8) 1 0) = 0.
Proof.
  pose proof (arteriole_radius_follows_pressures unit_constants 1 1 0 0 1 0
                ltac:(lra) ltac:(lra) ltac:(lra) ltac:(simpl; lra)
                ltac:(lra)) as H.
  cbv zeta in H. destruct H as [_ [_ [_ H]]].
  replace (3 / 8)
    with ((1 * ((1 + 1) * (1 + 1) - 1 * 1)
           + 0 * ((1 - nu unit_constants) * 1 * 1
                  + (1 + nu unit_constants) * ((1 + 1) * (1 + 1))))
          / (2 * ((1 + 1) * (1 + 1))))
    by (simpl; lra).
  exact H.
Defined.

End ArterioleProperties.

(* ================================================================== *)
(** * The turns of the fixed-point loop *)

Section LoopFacts.

Import ComplianceLoop FixedPoint LoopConditions.
Local Open Scope R_scope.

Variable matrix : Type.
Variable clean : matrix -> matrix.
Variable SuperLU_solve : matrix -> vector -> vector.
Variable underH : R.
Variable H : nat.
Variable store : Type.
Variable d : settings.
Variable w : wall.
Variable env : environment matrix store.

Local Abbreviation isolve := (iteration_solve clean SuperLU_solve underH).
Local Abbreviation body := (loop_body clean SuperLU_solve underH H d w env).
Local Abbreviation loop := (while clean SuperLU_solve underH H d w env).
Local Abbreviation run := (turns clean SuperLU_solve underH H d w env).
Local Abbreviation guard := (@loop_guard matrix store d).
Local Abbreviation entry := (entry_state clean SuperLU_solve H d env).
Local Abbreviation posed := (well_posed SuperLU_solve H d w env).
Local Abbreviation fits := (@sized matrix store H d).

Lemma copy_Ok (v v' : vector) (n : nat) :
  copy v n = Ok v' -> v' = v /\ List.length v = n.
Proof.
  unfold copy. destruct (Nat.eqb_spec (List.length v) n) as [E|E]; intros C;
    inversion C; subst. split; reflexivity.
Qed.

Lemma copy_runs (v : vector) (n : nat) : List.length v = n -> copy v n = Ok v.
Proof. intros <-. apply copy_same_length. Qed.

Lemma residual_test_spec (a : scalar_value) (x : R) (b : scalar_value) :
  residual_test d a x b = true <->
  fgt a (epsSol d) = true \/ Rabs x > epsCM d \/ fgt b (epsH d) = true.
Proof.
  unfold residual_test. rewrite !orb_true_iff. unfold Rgtb.
  destruct (Rgt_dec (Rabs x) (epsCM d)) as [G|G]; split; intros O.
  - tauto.
  - tauto.
  - destruct O as [[O|O]|O]; [tauto | discriminate | tauto].
  - destruct O as [O|[O|O]]; [tauto | contradiction | tauto].
Qed.

Lemma update_at_written {A : Type} (f : A -> A) :
  forall (v : list A) (i : nat) (v' : list A),
    update_at f i v = Ok v' ->
    exists a : A, nth_error v i = Some a /\ nth_error v' i = Some (f a).
Proof.
  induction v as [|a v IH]; intros i v' E; simpl in E; [discriminate|].
  destruct i as [|i].
  - inversion E; subst. exists a. split; reflexivity.
  - apply bind_Ok in E. destruct E as [t [Et E]]. inversion E; subst.
    simpl. eapply IH. exact Et.
Qed.

(** What a turn that returns has done. *)
Lemma loop_body_Ok (st st' : fp_state matrix store) :
  body st = Ok st' ->
  iteration st' = (iteration st + 1)%Z /\
  RK st' = residual_test d (resSol st') (resCM st') (resH st') /\
  cout st' = cout st /\
  r_und st' = r_und st /\
  UM st' = U_old st' /\
  UM_HT st' = H_old st' /\
  (exists (m m' : store) (p_int p_ext : vector),
     pressures env (members st) (UM st) = Ok (m, p_int, p_ext) /\
     deform d w st p_int p_ext = Ok (param st', resistance_rvar st') /\
     fluid_solve env m (param st') (resistance_rvar st') (H_old st) (U_old st)
     = Ok (m', U_old st')) /\
  (exists (m : store) (AM : matrix) (FM : vector) (A : matrix),
     assembly env m (param st') (UM st') (UM_HT st) = Ok (AM, FM) /\
     isolve AM (H_old st) FM = Ok (H_old st', A)) /\
  calcolo_Rk_3d1d env (U_old st') (U_old st) = Ok (resSol st') /\
  calcolo_Rk H (H_old st') (H_old st) = Ok (resH st') /\
  (exists (m m' m'' : store) (TFR : R) (auxCM : vector),
     flow_rates env m (param st') (U_old st') = Ok (m', TFR) /\
     mass_balance env m'' (U_old st') = Ok auxCM /\
     resCM st' = if negb (Reqb TFR 0) then accumulate auxCM / TFR else 0) /\
  nth_error (RES_SOL st') (Z.to_nat (iteration st)) = Some (fabs (resSol st')) /\
  nth_error (RES_CM st') (Z.to_nat (iteration st))
  = Some (Finite (Rabs (resCM st'))) /\
  nth_error (RES_H st') (Z.to_nat (iteration st)) = Some (fabs (resH st')).
Proof.
  unfold loop_body. intros E.
  apply bind_Ok in E. destruct E as [[[m1 p_int] p_ext] [Epr E]].
  apply bind_Ok in E. destruct E as [[param' resistance'] [Edef E]].
  apply bind_Ok in E. destruct E as [[m2 U_new] [Efl E]].
  apply bind_Ok in E. destruct E as [UM' [EUM E]].
  apply copy_Ok in EUM. destruct EUM as [-> LUM].
  apply bind_Ok in E. destruct E as [[AM FM] [Eas E]].
  apply bind_Ok in E. destruct E as [[H_new A] [Esol E]].
  apply bind_Ok in E. destruct E as [[m3 TFR] [Efr E]].
  apply bind_Ok in E. destruct E as [m4 [Esave E]].
  apply bind_Ok in E. destruct E as [rS [ErS E]].
  apply bind_Ok in E. destruct E as [rH [ErH E]].
  apply bind_Ok in E. destruct E as [auxCM [Eaux E]].
  apply bind_Ok in E. destruct E as [U_old' [EUo E]].
  apply copy_Ok in EUo. destruct EUo as [-> LUo].
  apply bind_Ok in E. destruct E as [H_old' [EHo E]].
  apply copy_Ok in EHo. destruct EHo as [-> LHo].
  apply bind_Ok in E. destruct E as [UM_HT' [EHT E]].
  apply copy_Ok in EHT. destruct EHT as [-> LHT].
  replace (iteration st + 1 - 1)%Z with (iteration st) in E by lia.
  apply bind_Ok in E. destruct E as [RS [ERS E]].
  apply bind_Ok in E. destruct E as [RC [ERC E]].
  apply bind_Ok in E. destruct E as [RH [ERH E]].
  apply bind_Ok in E. destruct E as [m5 [Eexp E]].
  inversion E; subst; clear E. cbn.
  destruct (update_at_written _ _ _ _ ERS) as [? [_ WS]].
  destruct (update_at_written _ _ _ _ ERC) as [? [_ WC]].
  destruct (update_at_written _ _ _ _ ERH) as [? [_ WH]].
  repeat (split; [reflexivity|]).
  split; [exists m1, m2, p_int, p_ext; repeat split; assumption|].
  split; [exists m2, AM, FM, A; split; assumption|].
  split; [assumption|]. split; [assumption|].
  split; [exists m2, m3, m4, TFR, auxCM; repeat split; assumption|].
  repeat split; assumption.
Qed.

(** The turns of a loop that returns: the guard held before each of them
    and, unless the fuel ran out, fails after the last. *)
Lemma while_turns :
  forall (fuel : nat) (st st_end : fp_state matrix store),
    loop fuel st = Ok st_end ->
    exists n : nat,
      (n <= fuel)%nat /\
      run n st = Ok st_end /\
      (forall k : nat, (k < n)%nat ->
         exists s, run k st = Ok s /\ guard s = true) /\
      ((n < fuel)%nat -> guard st_end = false).
Proof.
  induction fuel as [|fuel IH]; intros st st_end E.
  - simpl in E. inversion E; subst. exists 0%nat.
    split; [lia|]. split; [reflexivity|]. split; intros; lia.
  - simpl in E. destruct (guard st) eqn:G.
    + apply bind_Ok in E. destruct E as [st1 [E1 E]].
      destruct (IH _ _ E) as [n [Hn [Hrun [Hbefore Hafter]]]].
      exists (S n). split; [lia|].
      split; [simpl; rewrite E1; exact Hrun|]. split.
      * intros [|k] Hk.
        -- exists st. split; [reflexivity | exact G].
        -- simpl. rewrite E1. apply Hbefore. lia.
      * intros Hlt. apply Hafter. lia.
    + inversion E; subst. exists 0%nat.
      split; [lia|]. split; [reflexivity|]. split; [intros; lia|].
      intros _. exact G.
Qed.

Lemma turns_count :
  forall (n : nat) (st st' : fp_state matrix store),
    run n st = Ok st' ->
    iteration st' = (iteration st + Z.of_nat n)%Z /\ cout st' = cout st.
Proof.
  induction n as [|n IH]; intros st st' E.
  - simpl in E. inversion E; subst. split; [lia | reflexivity].
  - simpl in E. apply bind_Ok in E. destruct E as [st1 [E1 E]].
    destruct (loop_body_Ok _ _ E1) as [Hit [_ [Hc _]]].
    destruct (IH _ _ E) as [Hit' Hc']. split; [lia | congruence].
Qed.

Lemma entry_state_Ok (members0 : store) (param0 : Compliance.ParameterStore)
    (UM0 : vector) (st : fp_state matrix store) :
  entry members0 param0 UM0 = Ok st ->
  (0 <= max_iteration d)%Z /\
  iteration st = 0%Z /\ RK st = true /\ cout st = [] /\
  UM st = UM0 /\ U_old st = UM0 /\ param st = param0 /\
  exists (m : store) (AM : matrix) (FM : vector),
    assembly env m param0 UM0 (scale (repeat 1 H) (H_start d)) = Ok (AM, FM) /\
    H_old st = SuperLU_solve (clean AM) FM.
Proof.
  unfold entry_state. destruct (Z.ltb_spec (max_iteration d) 0) as [L|L];
    [discriminate|].
  intros E.
  apply bind_Ok in E. destruct E as [m [_ E]].
  apply bind_Ok in E. destruct E as [U_old0 [EU E]].
  apply copy_Ok in EU. destruct EU as [-> _].
  apply bind_Ok in E. destruct E as [[AM FM] [Eas E]].
  apply bind_Ok in E. destruct E as [H_old0 [EH E]].
  apply copy_Ok in EH. destruct EH as [-> _].
  inversion E; subst. cbn.
  split; [exact L|]. repeat (split; [reflexivity|]).
  exists m, AM, FM. split; [exact Eas | reflexivity].
Qed.

Lemma exit_state_Ok (st final : fp_state matrix store) :
  exit_state env st = Ok final ->
  UM final = U_old st /\
  cout final = (if RK st then cout st ++ [msg_not_converged] else cout st) /\
  iteration final = iteration st /\ RK final = RK st /\
  U_old final = U_old st /\ H_old final = H_old st.
Proof.
  unfold exit_state. intros E.
  apply bind_Ok in E. destruct E as [UM' [EU E]].
  apply copy_Ok in EU. destruct EU as [-> _].
  apply bind_Ok in E. destruct E as [m [_ E]].
  inversion E; subst. cbn. repeat split; reflexivity.
Qed.

(** ** The steps return when the problem is well posed *)

Lemma export_Ht_runs (UM_HT : vector) :
  (forall (i : nat) (m : store), exists m', open_Ht env i m = Ok m') ->
  (forall (i : nat) (b : vector) (m : store),
     exists m', write_Ht env i b m = Ok m') ->
  forall (nb_dof : list nat) (i start : nat) (prev : option nat) (m : store),
    (start + match prev with Some p => p | None => 0 end + list_sum nb_dof
     <= List.length UM_HT)%nat ->
    exists m', export_Ht env UM_HT i start prev nb_dof m = Ok m'.
Proof.
  intros Ho Hw. induction nb_dof as [|n rest IH]; intros i start prev m Hfit.
  - eexists. reflexivity.
  - cbn [export_Ht]. destruct (Ho i m) as [m0 E0]. rewrite E0. cbn [bind].
    unfold Layout.sub_vector.
    set (start' := match prev with Some p => (start + p)%nat | None => start end).
    assert (Hs : (start' + n + list_sum rest <= List.length UM_HT)%nat).
    { subst start'. simpl in Hfit. destruct prev; lia. }
    destruct (Nat.leb_spec (start' + n) (List.length UM_HT)) as [L|L]; [|lia].
    cbn [bind].
    destruct (Hw i (firstn n (skipn start' UM_HT)) m0) as [m1 E1].
    rewrite E1. cbn [bind]. apply IH. exact Hs.
Qed.

Lemma export_vtk_runs (UM_HT : vector) (m : store) :
  (VTK_EXPORT d = true -> export_fits H d env) ->
  List.length UM_HT = H ->
  exists m', export_vtk d env UM_HT m = Ok m'.
Proof.
  intros Hfit Hlen. unfold export_vtk.
  destruct (VTK_EXPORT d); [|eexists; reflexivity].
  destruct (Hfit eq_refl) as [Hne [Hsum [Ho [Hw Hmu]]]].
  rewrite (at_index_total (nb_dof_Hi d) _ 0%nat)
    by (destruct (nb_dof_Hi d); [congruence | simpl; lia]).
  cbn [bind].
  destruct (export_Ht_runs UM_HT Ho Hw (nb_dof_Hi d) 0 0 None m) as [m1 E1];
    [simpl; lia|].
  rewrite E1. cbn [bind]. apply Hmu.
Qed.

Lemma save_solution_runs (st : fp_state matrix store) (UM' : vector) (m : store) :
  posed -> List.length (UM_HT st) = H ->
  exists m', save_solution d env st UM' m = Ok m'.
Proof.
  intros Hp Hlen. unfold save_solution.
  destruct (RK st && (iteration st <? max_iteration d)%Z && print_res d) eqn:E;
    [|eexists; reflexivity].
  apply andb_true_iff in E. destruct E as [_ E].
  destruct (saving_ready Hp E) as [Hne [Hexp Hvtk]].
  rewrite (proj2 (Z.eqb_neq _ _) Hne).
  destruct (Z.rem (iteration st) (iteration_save d) =? 0)%Z;
    [|eexists; reflexivity].
  destruct (Hexp m UM') as [m1 E1]. rewrite E1. cbn [bind].
  apply export_vtk_runs; assumption.
Qed.

Lemma deform_runs (st : fp_state matrix store) (p_int p_ext : vector) :
  posed ->
  (COMPLIANT_VESSELS d = true ->
   geometry_sized d (param st) (r_und st) (resistance_rvar st)) ->
  List.length p_int = n_coefv d -> List.length p_ext = n_coefv d ->
  exists (param' : Compliance.ParameterStore) (resistance' : vector),
    deform d w st p_int p_ext = Ok (param', resistance') /\
    (COMPLIANT_VESSELS d = true ->
     geometry_sized d param' (r_und st) resistance').
Proof.
  intros Hp Hg Li Le. unfold deform.
  destruct (COMPLIANT_VESSELS d) eqn:C.
  - destruct (Hg eq_refl) as [LR [LA [LP [Lr Lc]]]].
    destruct (wall_ready Hp C) as [Lt Hall].
    unfold Compliance.vessel_conductivity_vec.
    destruct (loop_runs (scales w) (Young w) (Young_imported w) (Young_branch w)
                (curvatures w) (r_und st) (thickness w) p_int p_ext (dofs w)
                (param st) (resistance_rvar st)) as [[param' resistance'] E].
    { unfold visits_fit. eapply Forall_impl; [|exact Hall].
      intros v [Hv Hc]. split; [|intros _; exact Hc].
      unfold within. repeat constructor; lia. }
    exists param', resistance'. split; [exact E|]. intros _.
    destruct (loop_result _ _ _ _ _ _ _ _ _ _ _ _ _ _ E)
      as [[HR _] [[HA _] [[HP _] [HC _]]]].
    unfold geometry_sized. repeat split; congruence.
  - exists (param st), (resistance_rvar st). split; [reflexivity|].
    intros C'. discriminate C'.
Qed.

(** A turn taken below the maximum returns, and keeps the sizes. *)
Lemma loop_body_runs (st : fp_state matrix store) :
  posed -> fits st -> (iteration st < max_iteration d)%Z ->
  exists st' : fp_state matrix store, body st = Ok st' /\ fits st'.
Proof.
  intros Hp [LUM [LUo [LHT [LHo [Hit [LS [LC [LH Hg]]]]]]]] Hlt.
  unfold loop_body.
  destruct (pressures_return Hp (members st) (UM st))
    as [m1 [p_int [p_ext [Epr [Li Le]]]]].
  rewrite Epr. cbn [bind].
  destruct (deform_runs st p_int p_ext Hp Hg Li Le)
    as [param' [resistance' [Edef Hg']]].
  rewrite Edef. cbn [bind].
  destruct (fluid_returns Hp m1 param' resistance' (H_old st) (U_old st) LUo)
    as [m2 [U_new [Efl LUn]]].
  rewrite Efl. cbn [bind].
  rewrite (copy_runs U_new) by congruence. cbn [bind].
  destruct (assembly_returns Hp m2 param' U_new (UM_HT st)) as [AM [FM Eas]].
  rewrite Eas. cbn [bind].
  rewrite iteration_solve_value by (rewrite (solve_size Hp); exact LHo).
  cbn [bind].
  set (H_new := relaxed underH (SuperLU_solve (clean AM) FM) (H_old st)).
  assert (LHn : List.length H_new = H).
  { subst H_new. rewrite relaxed_length by (rewrite (solve_size Hp); exact LHo).
    apply (solve_size Hp). }
  destruct (flow_rates_return Hp m2 param' U_new) as [m3 [TFR Efr]].
  rewrite Efr. cbn [bind].
  destruct (save_solution_runs st U_new m3 Hp LHT) as [m4 Esave].
  rewrite Esave. cbn [bind].
  destruct (residual_returns Hp U_new (U_old st)) as [rS ErS].
  rewrite ErS. cbn [bind].
  rewrite (calcolo_Rk_value _ _ _ LHn LHo). cbn [bind].
  destruct (balance_returns Hp m4 U_new) as [auxCM Eaux].
  rewrite Eaux. cbn [bind].
  rewrite (copy_runs U_new) by congruence. cbn [bind].
  rewrite (copy_runs H_new) by congruence. cbn [bind].
  rewrite (copy_runs H_new) by congruence. cbn [bind].
  replace (iteration st + 1 - 1)%Z with (iteration st) by lia.
  assert (Hk : (Z.to_nat (iteration st) < Z.to_nat (max_iteration d))%nat) by lia.
  destruct (update_at_total (fun _ => fabs rS) (RES_SOL st) _
              ltac:(rewrite LS; exact Hk)) as [RS ERS].
  rewrite ERS. cbn [bind].
  match goal with
  | |- context [update_at ?f _ (RES_CM st)] =>
      destruct (update_at_total f (RES_CM st) _ ltac:(rewrite LC; exact Hk))
        as [RC ERC]
  end.
  rewrite ERC. cbn [bind].
  match goal with
  | |- context [update_at ?f _ (RES_H st)] =>
      destruct (update_at_total f (RES_H st) _ ltac:(rewrite LH; exact Hk))
        as [RH ERH]
  end.
  rewrite ERH. cbn [bind].
  destruct (fields_return Hp m4 param') as [m5 Eexp].
  rewrite Eexp. cbn [bind].
  eexists. split; [reflexivity|].
  unfold sized. cbn.
  apply update_at_length in ERS, ERC, ERH.
  repeat split; try congruence; try lia.
  all: apply Hg'; assumption.
Qed.

(** With as much fuel as turns are left, the loop returns. *)
Lemma while_returns :
  posed ->
  forall (fuel : nat) (st : fp_state matrix store),
    fits st ->
    (Z.to_nat (max_iteration d - iteration st) <= fuel)%nat ->
    exists st' : fp_state matrix store, loop fuel st = Ok st' /\ fits st'.
Proof.
  intros Hp. induction fuel as [|fuel IH]; intros st Hs Hfuel.
  - exists st. split; [reflexivity | exact Hs].
  - simpl. destruct (guard st) eqn:G; [|exists st; split; [reflexivity | exact Hs]].
    unfold loop_guard in G. apply andb_true_iff in G. destruct G as [_ G].
    apply Z.ltb_lt in G.
    destruct (loop_body_runs st Hp Hs G) as [st1 [E1 Hs1]].
    rewrite E1. cbn [bind]. apply IH; [exact Hs1|].
    destruct (loop_body_Ok _ _ E1) as [Hit _]. lia.
Qed.

Lemma entry_state_runs (members0 : store) (param0 : Compliance.ParameterStore)
    (UM0 : vector) :
  posed -> (0 <= max_iteration d)%Z -> List.length UM0 = tot d ->
  (COMPLIANT_VESSELS d = true ->
   geometry_sized d param0 (Compliance.R_ param0) (repeat 0 (n_coefv d))) ->
  exists st : fp_state matrix store,
    entry members0 param0 UM0 = Ok st /\ fits st.
Proof.
  intros Hp Hmax LU Hg. unfold entry_state.
  destruct (Z.ltb_spec (max_iteration d) 0) as [L|L]; [lia|].
  destruct (exchange_returns Hp members0 param0) as [m E1].
  rewrite E1. cbn [bind].
  rewrite (copy_runs UM0) by exact LU. cbn [bind].
  destruct (assembly_returns Hp m param0 UM0
              (scale (repeat 1 H) (H_start d))) as [AM [FM Eas]].
  rewrite Eas. cbn [bind].
  rewrite copy_runs by apply (solve_size Hp). cbn [bind].
  eexists. split; [reflexivity|].
  unfold sized. cbn. rewrite !repeat_length, (solve_size Hp).
  repeat split; try assumption; try reflexivity; try lia.
  all: apply Hg; assumption.
Qed.

Lemma exit_state_runs (st : fp_state matrix store) :
  posed -> fits st -> exists final, exit_state env st = Ok final.
Proof.
  intros Hp [LUM [LUo _]]. unfold exit_state.
  rewrite copy_runs by congruence. cbn [bind].
  destruct (fields_return Hp (members st) (param st)) as [m E].
  rewrite E. cbn [bind]. eexists. reflexivity.
Qed.

End LoopFacts.

(** ** The small problem *)

Section SmallProblemFacts.

Import ComplianceLoop FixedPoint LoopConditions SmallProblem.
Local Open Scope R_scope.

Lemma calcolo_Rk_single (a b : R) :
  a = b -> b <> 0 -> calcolo_Rk 1 [a] [b] = Ok (Finite 0).
Proof.
  intros -> Hb. rewrite (calcolo_Rk_value 1 [b] [b] eq_refl eq_refl).
  unfold vect_norm2, scale. simpl.
  replace (0 + (b + b * -1) * (b + b * -1)) with 0 by ring.
  rewrite sqrt_0. unfold fdiv. rewrite Reqb_false.
  - do 2 f_equal. unfold Rdiv. ring.
  - intros Hs. apply sqrt_eq_0 in Hs; nra.
Qed.

Lemma small_well_posed (Max_it : Z) :
  well_posed solver 1 (settings_of Max_it) vessel_wall steps.
Proof.
  constructor; cbn.
  - reflexivity.
  - intros m p. eexists. reflexivity.
  - intros m u. do 3 eexists. repeat split; reflexivity.
  - intros _. split; [reflexivity|]. repeat constructor.
    exists [0]. split; [reflexivity | simpl; lia].
  - intros m p r h u Lu. do 2 eexists. split; [reflexivity|].
    rewrite length_map. exact Lu.
  - intros. do 2 eexists. reflexivity.
  - intros. do 2 eexists. reflexivity.
  - intros _. split; [discriminate|]. split; [intros; eexists; reflexivity|].
    intros _. split; [discriminate|]. split; [simpl; lia|].
    split; [|split]; intros; eexists; reflexivity.
  - intros. eexists. reflexivity.
  - intros. eexists. reflexivity.
  - intros. eexists. reflexivity.
Qed.

Lemma start_sized : sized 1 (settings_of 5) start.
Proof.
  unfold sized, geometry_sized. cbn. repeat split; try reflexivity; lia.
Qed.

(** A turn of the small problem. *)
Lemma small_turn (Max_it : Z) (st : fp_state R nat) (u h : R) :
  sized 1 (settings_of Max_it) st -> (iteration st < Max_it)%Z ->
  U_old st = [u] -> H_old st = [h] -> h = 1 ->
  exists (st' : fp_state R nat) (h' : R),
    turn Max_it st = Ok st' /\
    sized 1 (settings_of Max_it) st' /\
    iteration st' = (iteration st + 1)%Z /\
    U_old st' = [(u + 2) / 2] /\ H_old st' = [h'] /\ h' = 1 /\
    RK st' = Rgtb (Rabs ((u + 2) / 2 - u)) 0.3 /\
    cout st' = cout st.
Proof.
  intros Hs Hlt HU HH Hh. unfold turn.
  destruct (loop_body_runs R (fun a => a) solver (1 / 2) 1%nat nat
              (settings_of Max_it) vessel_wall steps st
              (small_well_posed Max_it) Hs Hlt) as [st' [E Hs']].
  destruct (loop_body_Ok R (fun a => a) solver (1 / 2) 1%nat nat
              (settings_of Max_it) vessel_wall steps st st' E)
    as [Hit [HRK [Hc [_ [_ [_ [Hfl [Has [HrS [HrH [Hcm _]]]]]]]]]]].
  destruct Hfl as [m [m' [p_int [p_ext [_ [_ Hfl]]]]]].
  cbn in Hfl. rewrite HU in Hfl. cbn in Hfl. inversion Hfl as [[Hm HU']].
  destruct Has as [m0 [AM [FM [A [Eas Esol]]]]].
  cbn in Eas. inversion Eas; subst AM FM.
  rewrite HH in Esol.
  rewrite iteration_solve_value in Esol by reflexivity.
  unfold relaxed, solver in Esol. cbn in Esol. inversion Esol as [[HH' HA]].
  cbn in HrS. rewrite <- HU', HU in HrS. cbn in HrS.
  inversion HrS as [HS].
  rewrite <- HH', HH in HrH.
  rewrite calcolo_Rk_single in HrH by lra. inversion HrH as [HrH'].
  destruct Hcm as [m1 [m2 [m3 [TFR [auxCM [Efr [Eaux Hcm]]]]]]].
  cbn in Efr, Eaux. inversion Efr; subst TFR. inversion Eaux; subst auxCM.
  rewrite Reqb_false in Hcm by lra. unfold accumulate in Hcm. cbn in Hcm.
  exists st'. eexists.
  split; [exact E|]. split; [exact Hs'|]. split; [exact Hit|].
  split; [symmetry; exact HU'|]. split; [symmetry; exact HH'|].
  split; [lra|]. split; [|exact Hc].
  rewrite HRK, <- HS, <- HrH', Hcm. unfold residual_test. cbn.
  replace ((0 + 0) / 1) with 0 by lra. rewrite Rabs_R0.
  rewrite (Rgtb_false 0 0.1) by lra. rewrite !orb_false_r. reflexivity.
Qed.

Lemma small_entry (Max_it : Z) (st0 : fp_state R nat) :
  entry_state (fun a => a) solver 1 (settings_of Max_it) steps 0%nat geometry [1]
  = Ok st0 ->
  sized 1 (settings_of Max_it) st0 /\
  iteration st0 = 0%Z /\ RK st0 = true /\
  U_old st0 = [1] /\ exists h : R, H_old st0 = [h] /\ h = 1.
Proof.
  intros E.
  destruct (entry_state_Ok R (fun a => a) solver 1%nat nat (settings_of Max_it)
              steps _ _ _ _ E)
    as [Hmax [Hit [HRK [_ [_ [HU [_ [m [AM [FM [Eas HH]]]]]]]]]]].
  destruct (entry_state_runs R (fun a => a) solver 1%nat nat
              (settings_of Max_it) vessel_wall steps 0%nat geometry [1]
              (small_well_posed Max_it) Hmax eq_refl) as [st [E' Hs]].
  { intros _. unfold geometry_sized. cbn. repeat split; reflexivity. }
  rewrite E in E'. inversion E'; subst st.
  split; [exact Hs|]. split; [exact Hit|]. split; [exact HRK|].
  split; [exact HU|].
  cbn in Eas. inversion Eas; subst AM FM. unfold solver in HH. cbn in HH.
  eexists. split; [exact HH | lra].
Qed.

(** The first two turns of the small problem. *)
Lemma small_first_turns (Max_it : Z) (st0 : fp_state R nat) :
  entry_state (fun a => a) solver 1 (settings_of Max_it) steps 0%nat geometry [1]
  = Ok st0 ->
  (1 <= Max_it)%Z ->
  exists s1 : fp_state R nat,
    turns (fun a => a) solver (1 / 2) 1 (settings_of Max_it) vessel_wall steps
      1 st0 = Ok s1 /\
    iteration s1 = 1%Z /\ RK s1 = true /\ U_old s1 = [(1 + 2) / 2] /\
    ((2 <= Max_it)%Z ->
     exists s2 : fp_state R nat,
       turns (fun a => a) solver (1 / 2) 1 (settings_of Max_it) vessel_wall
         steps 2 st0 = Ok s2 /\
       iteration s2 = 2%Z /\ RK s2 = false /\
       U_old s2 = [((1 + 2) / 2 + 2) / 2]).
Proof.
  intros E Hmax.
  destruct (small_entry Max_it st0 E) as [Hs [Hit [_ [HU [h [HH Hh]]]]]].
  destruct (small_turn Max_it st0 1 h Hs ltac:(lia) HU HH Hh)
    as [s1 [h1 [E1 [Hs1 [Hit1 [HU1 [HH1 [Hh1 [HRK1 _]]]]]]]]].
  unfold turn in E1.
  exists s1. split; [simpl; rewrite E1; reflexivity|].
  split; [lia|]. split.
  { rewrite HRK1. replace ((1 + 2) / 2 - 1) with (1 / 2) by lra.
    rewrite Rabs_pos_eq by lra. apply Rgtb_true. lra. }
  split; [exact HU1|]. intros Hmax2.
  destruct (small_turn Max_it s1 _ h1 Hs1 ltac:(lia) HU1 HH1 Hh1)
    as [s2 [h2 [E2 [_ [Hit2 [HU2 [_ [_ [HRK2 _]]]]]]]]].
  unfold turn in E2.
  exists s2. split; [simpl; rewrite E1; simpl; rewrite E2; reflexivity|].
  split; [lia|]. split; [|exact HU2].
  rewrite HRK2. replace (((1 + 2) / 2 + 2) / 2 - (1 + 2) / 2) with (1 / 4) by lra.
  rewrite Rabs_pos_eq by lra. apply Rgtb_false. lra.
Qed.

(** With a maximum of five turns the small problem takes two turns and
    has converged. *)
Lemma small_converges (st0 st_end : fp_state R nat) (n : nat) :
  entry_state (fun a => a) solver 1 (settings_of 5) steps 0%nat geometry [1]
  = Ok st0 ->
  turns (fun a => a) solver (1 / 2) 1 (settings_of 5) vessel_wall steps n st0
  = Ok st_end ->
  (forall k : nat, (k < n)%nat ->
     exists s,
       turns (fun a => a) solver (1 / 2) 1 (settings_of 5) vessel_wall steps
         k st0 = Ok s /\
       loop_guard (settings_of 5) s = true) ->
  loop_guard (settings_of 5) st_end = false ->
  n = 2%nat /\ RK st_end = false /\ U_old st_end = [((1 + 2) / 2 + 2) / 2].
Proof.
  intros E Hrun Hbefore Hafter.
  destruct (small_entry 5 st0 E) as [_ [Hit0 [HRK0 _]]].
  destruct (small_first_turns 5 st0 E ltac:(lia))
    as [s1 [E1 [Hit1 [HRK1 [_ H2]]]]].
  destruct (H2 ltac:(lia)) as [s2 [E2 [Hit2 [HRK2 HU2]]]].
  destruct n as [|[|[|n]]].
  - simpl in Hrun. inversion Hrun; subst st_end.
    unfold loop_guard in Hafter. rewrite HRK0, Hit0 in Hafter. discriminate.
  - rewrite E1 in Hrun. inversion Hrun; subst st_end.
    unfold loop_guard in Hafter. rewrite HRK1, Hit1 in Hafter. discriminate.
  - rewrite E2 in Hrun. inversion Hrun; subst st_end. auto.
  - destruct (Hbefore 2%nat ltac:(lia)) as [s [Es G]].
    rewrite E2 in Es. inversion Es; subst s.
    unfold loop_guard in G. rewrite HRK2 in G. discriminate.
Qed.

(** With a maximum of one turn it stops after the first, not converged. *)
Lemma small_stops (st0 st_end : fp_state R nat) (n : nat) :
  entry_state (fun a => a) solver 1 (settings_of 1) steps 0%nat geometry [1]
  = Ok st0 ->
  turns (fun a => a) solver (1 / 2) 1 (settings_of 1) vessel_wall steps n st0
  = Ok st_end ->
  (forall k : nat, (k < n)%nat ->
     exists s,
       turns (fun a => a) solver (1 / 2) 1 (settings_of 1) vessel_wall steps
         k st0 = Ok s /\
       loop_guard (settings_of 1) s = true) ->
  loop_guard (settings_of 1) st_end = false ->
  n = 1%nat /\ RK st_end = true /\ U_old st_end = [(1 + 2) / 2].
Proof.
  intros E Hrun Hbefore Hafter.
  destruct (small_entry 1 st0 E) as [_ [Hit0 [HRK0 _]]].
  destruct (small_first_turns 1 st0 E ltac:(lia))
    as [s1 [E1 [Hit1 [HRK1 [HU1 _]]]]].
  destruct n as [|[|n]].
  - simpl in Hrun. inversion Hrun; subst st_end.
    unfold loop_guard in Hafter. rewrite HRK0, Hit0 in Hafter. discriminate.
  - rewrite E1 in Hrun. inversion Hrun; subst st_end. auto.
  - destruct (Hbefore 1%nat ltac:(lia)) as [s [Es G]].
    rewrite E1 in Es. inversion Es; subst s.
    unfold loop_guard in G. rewrite HRK1, Hit1 in G. discriminate.
Qed.

End SmallProblemFacts.

Section RelaxationClaim.

Import FixedPoint LoopConditions.
Local Open Scope R_scope.

(** C7.  The relaxed solve returns [alpha * solved + (1 - alpha) * U_old],
    where [solved] is the solution of the linear system given by the
    solver; with [alpha = 1] it returns [solved] itself; and the old
    iterate of the caller is left as it was: after the call the loop
    computes the hematocrit residual against the very [H_old] it passed.
    This holds of every turn of the loop that returns, and a turn taken
    below the maximum on a well-posed problem does return. *)
Theorem iteration_solve_relaxation :
  (forall (matrix : Type) (clean : matrix -> matrix)
          (SuperLU_solve : matrix -> vector -> vector) (alpha : R)
          (AM : matrix) (U_old F : vector),
     List.length U_old = List.length (SuperLU_solve (clean AM) F) ->
     iteration_solve clean SuperLU_solve alpha AM U_old F
     = Ok (relaxed alpha (SuperLU_solve (clean AM) F) U_old, clean AM) /\
     (alpha = 1 ->
      iteration_solve clean SuperLU_solve alpha AM U_old F
      = Ok (SuperLU_solve (clean AM) F, clean AM))) /\
  (forall (matrix : Type) (clean : matrix -> matrix)
          (SuperLU_solve : matrix -> vector -> vector) (alpha : R) (H : nat)
          (store : Type) (d : settings) (w : wall)
          (env : environment matrix store) (st : fp_state matrix store),
     well_posed SuperLU_solve H d w env ->
     sized H d st ->
     (iteration st < max_iteration d)%Z ->
     exists (st' : fp_state matrix store) (m : store) (AM : matrix)
            (FM H_new : vector) (A : matrix),
       loop_body clean SuperLU_solve alpha H d w env st = Ok st' /\
       assembly env m (param st') (UM st') (UM_HT st) = Ok (AM, FM) /\
       iteration_solve clean SuperLU_solve alpha AM (H_old st) FM
       = Ok (H_new, A) /\
       H_new = relaxed alpha (SuperLU_solve (clean AM) FM) (H_old st) /\
       H_old st' = H_new /\
       calcolo_Rk H H_new (H_old st) = Ok (resH st')) /\
  (forall (matrix : Type) (clean : matrix -> matrix)
          (SuperLU_solve : matrix -> vector -> vector) (alpha : R) (H : nat)
          (store : Type) (d : settings) (w : wall)
          (env : environment matrix store) (st st' : fp_state matrix store),
     loop_body clean SuperLU_solve alpha H d w env st = Ok st' ->
     exists (m : store) (AM : matrix) (FM H_new : vector) (A : matrix),
       assembly env m (param st') (UM st') (UM_HT st) = Ok (AM, FM) /\
       iteration_solve clean SuperLU_solve alpha AM (H_old st) FM
       = Ok (H_new, A) /\
       H_old st' = H_new /\
       calcolo_Rk H H_new (H_old st) = Ok (resH st')).
Proof.
  split; [|split].
  - intros matrix clean SuperLU_solve alpha AM U_old F Hlen. split.
    + apply iteration_solve_value. exact Hlen.
    + apply iteration_solve_no_relaxation.
  - intros matrix clean SuperLU_solve alpha H store d w env st Hp Hs Hlt.
    destruct (loop_body_runs matrix clean SuperLU_solve alpha H store d w env
                st Hp Hs Hlt) as [st' [E _]].
    destruct (loop_body_Ok matrix clean SuperLU_solve alpha H store d w env
                st st' E)
      as [_ [_ [_ [_ [_ [_ [_ [[m [AM [FM [A [Eas Esol]]]]] [_ [ER _]]]]]]]]]].
    exists st', m, AM, FM, (H_old st'), A.
    split; [exact E|]. split; [exact Eas|]. split; [exact Esol|].
    split; [|split; [reflexivity | exact ER]].
    destruct Hs as [_ [_ [_ [LHo _]]]].
    rewrite iteration_solve_value in Esol
      by (rewrite (solve_size Hp); exact LHo).
    inversion Esol. reflexivity.
  - intros matrix clean SuperLU_solve alpha H store d w env st st' E.
    destruct (loop_body_Ok matrix clean SuperLU_solve alpha H store d w env
                st st' E)
      as [_ [_ [_ [_ [_ [_ [_ [[m [AM [FM [A [Eas Esol]]]]] [_ [ER _]]]]]]]]]].
    exists m, AM, FM, (H_old st'), A.
    split; [exact Eas|]. split; [exact Esol|]. split; [reflexivity | exact ER].
Qed.

Lemma iteration_solve_relaxation_witness :
  iteration_solve (fun a : unit => a) (fun _ F => F) (1 / 2) tt [1] [3]
  = Ok (relaxed (1 / 2) [3] [1], tt) /\
  exists (st' : fp_state R nat) (H_new : vector),
    SmallProblem.turn 5 SmallProblem.start = Ok st' /\
    H_new = relaxed (1 / 2) (SmallProblem.solver 1 [1]) [1] /\
    H_old st' = H_new /\
    calcolo_Rk 1 H_new [1] = Ok (resH st').
Proof.
  split.
  - apply (proj1 iteration_solve_relaxation unit (fun a => a) (fun _ F => F)
             (1 / 2) tt [1] [3]).
    reflexivity.
  - destruct (proj1 (proj2 iteration_solve_relaxation) R (fun a => a)
                SmallProblem.solver (1 / 2) 1%nat nat
                (SmallProblem.settings_of 5) SmallProblem.vessel_wall
                SmallProblem.steps SmallProblem.start
                (small_well_posed 5) start_sized ltac:(simpl; lia))
      as [st' [m [AM [FM [H_new [A [E [Eas [_ [HN [HH ER]]]]]]]]]]].
    exists st', H_new. split; [exact E|].
    simpl in Eas. inversion Eas; subst AM FM.
    split; [exact HN|]. split; [exact HH | exact ER].
Defined.

End RelaxationClaim.

Section LoopControlClaim.

Import FixedPoint LoopConditions.
Local Open Scope R_scope.

(** C5.  After a turn of the loop, with the three residuals it has
    computed, another turn is taken exactly when (solution residual >
    epsSol, or |mass residual| > epsCM, or hematocrit residual > epsH) and
    the count of iterations is below the maximum.  A call of
    [solve_fixpoint] that returns has taken its turns one after the
    other, each under that condition, and has stopped at the first state
    where it fails; it returns [true] with the last iterate [U_old] copied
    into [UM]; when it stops with a residual still above its threshold the
    maximum has been reached and the message of non-convergence is
    written, and otherwise no message.  On a well-posed problem every
    turn taken under the condition returns, and so does the call. *)
Theorem fixed_point_loop_control :
  forall (matrix : Type) (clean : matrix -> matrix)
         (SuperLU_solve : matrix -> vector -> vector) (underH : R) (H : nat)
         (store : Type) (d : settings) (w : wall)
         (env : environment matrix store),
    (forall st st' : fp_state matrix store,
       loop_body clean SuperLU_solve underH H d w env st = Ok st' ->
       iteration st' = (iteration st + 1)%Z /\
       calcolo_Rk_3d1d env (U_old st') (U_old st) = Ok (resSol st') /\
       calcolo_Rk H (H_old st') (H_old st) = Ok (resH st') /\
       (exists (m m' m'' : store) (TFR : R) (auxCM : vector),
          flow_rates env m (param st') (U_old st') = Ok (m', TFR) /\
          mass_balance env m'' (U_old st') = Ok auxCM /\
          resCM st' = if negb (Reqb TFR 0) then accumulate auxCM / TFR else 0) /\
       (loop_guard d st' = true <->
        (fgt (resSol st') (epsSol d) = true \/ Rabs (resCM st') > epsCM d \/
         fgt (resH st') (epsH d) = true) /\
        (iteration st' < max_iteration d)%Z)) /\
    (forall (members0 : store) (param0 : Compliance.ParameterStore)
            (UM0 : vector) (result : bool * fp_state matrix store),
       solve_fixpoint clean SuperLU_solve underH H d w env members0 param0 UM0
       = Ok result ->
       exists (st0 st_end final : fp_state matrix store) (n : nat),
         entry_state clean SuperLU_solve H d env members0 param0 UM0 = Ok st0 /\
         U_old st0 = UM0 /\
         turns clean SuperLU_solve underH H d w env n st0 = Ok st_end /\
         (forall k : nat, (k < n)%nat ->
            exists s : fp_state matrix store,
              turns clean SuperLU_solve underH H d w env k st0 = Ok s /\
              loop_guard d s = true) /\
         loop_guard d st_end = false /\
         iteration st_end = Z.of_nat n /\
         exit_state env st_end = Ok final /\
         result = (true, final) /\
         UM final = U_old st_end /\
         (RK st_end = true ->
          iteration st_end = max_iteration d /\
          cout final = [msg_not_converged]) /\
         (RK st_end = false -> cout final = [])) /\
    (well_posed SuperLU_solve H d w env ->
     (forall st : fp_state matrix store,
        sized H d st -> loop_guard d st = true ->
        exists st' : fp_state matrix store,
          loop_body clean SuperLU_solve underH H d w env st = Ok st' /\
          sized H d st') /\
     (forall (members0 : store) (param0 : Compliance.ParameterStore)
             (UM0 : vector),
        (0 <= max_iteration d)%Z ->
        List.length UM0 = tot d ->
        (COMPLIANT_VESSELS d = true ->
         geometry_sized d param0 (Compliance.R_ param0) (repeat 0 (n_coefv d))) ->
        exists final : fp_state matrix store,
          solve_fixpoint clean SuperLU_solve underH H d w env
            members0 param0 UM0 = Ok (true, final))).
Proof.
  intros matrix clean SuperLU_solve underH H store d w env.
  split; [|split].
  - intros st st' E.
    destruct (loop_body_Ok matrix clean SuperLU_solve underH H store d w env
                st st' E)
      as [Hit [HRK [_ [_ [_ [_ [_ [_ [HrS [HrH [Hcm _]]]]]]]]]]].
    split; [exact Hit|]. split; [exact HrS|]. split; [exact HrH|].
    split; [exact Hcm|].
    unfold loop_guard. rewrite andb_true_iff, HRK, residual_test_spec, Z.ltb_lt.
    reflexivity.
  - intros members0 param0 UM0 result E. unfold solve_fixpoint in E.
    apply bind_Ok in E. destruct E as [st0 [E0 E]].
    apply bind_Ok in E. destruct E as [st_end [Ew E]].
    apply bind_Ok in E. destruct E as [final [Ee E]].
    inversion E; subst result; clear E.
    destruct (entry_state_Ok matrix clean SuperLU_solve H store d env
                _ _ _ _ E0) as [Hmax [Hit0 [_ [Hc0 [_ [HU0 _]]]]]].
    destruct (while_turns matrix clean SuperLU_solve underH H store d w env
                _ _ _ Ew) as [n [Hn [Hrun [Hbefore Hafter]]]].
    destruct (turns_count matrix clean SuperLU_solve underH H store d w env
                _ _ _ Hrun) as [Hit Hc].
    destruct (exit_state_Ok matrix store env _ _ Ee) as [HUM [Hcout _]].
    assert (Hitn : iteration st_end = Z.of_nat n) by lia.
    assert (G : loop_guard d st_end = false).
    { destruct (Nat.lt_ge_cases n (Z.to_nat (max_iteration d))) as [L|L];
        [exact (Hafter L)|].
      unfold loop_guard. apply andb_false_iff. right. apply Z.ltb_ge. lia. }
    exists st0, st_end, final, n.
    split; [exact E0|]. split; [exact HU0|]. split; [exact Hrun|].
    split; [exact Hbefore|]. split; [exact G|]. split; [exact Hitn|].
    split; [exact Ee|]. split; [reflexivity|]. split; [exact HUM|].
    rewrite Hcout, Hc, Hc0. split; intros HRK; rewrite HRK; [|reflexivity].
    split; [|reflexivity].
    unfold loop_guard in G. rewrite HRK in G. simpl in G.
    apply Z.ltb_ge in G. lia.
  - intros Hp. split.
    + intros st Hs G. unfold loop_guard in G. apply andb_true_iff in G.
      destruct G as [_ G]. apply Z.ltb_lt in G.
      exact (loop_body_runs matrix clean SuperLU_solve underH H store d w env
               st Hp Hs G).
    + intros members0 param0 UM0 Hmax LU Hg.
      destruct (entry_state_runs matrix clean SuperLU_solve H store d w env
                  members0 param0 UM0 Hp Hmax LU Hg) as [st0 [E0 Hs0]].
      destruct (entry_state_Ok matrix clean SuperLU_solve H store d env
                  _ _ _ _ E0) as [_ [Hit0 _]].
      destruct (while_returns matrix clean SuperLU_solve underH H store d w env
                  Hp (Z.to_nat (max_iteration d)) st0 Hs0
                  ltac:(rewrite Hit0; lia)) as [st_end [Ew Hs_end]].
      destruct (exit_state_runs matrix SuperLU_solve H store d w env
                  st_end Hp Hs_end) as [final Ee].
      exists final. unfold solve_fixpoint. rewrite E0. cbn [bind].
      rewrite Ew. cbn [bind]. rewrite Ee. reflexivity.
Qed.

Lemma fixed_point_loop_control_witness :
  (exists final : fp_state R nat,
     SmallProblem.solve 5 = Ok (true, final) /\
     iteration final = 2%Z /\ RK final = false /\
     UM final = [((1 + 2) / 2 + 2) / 2] /\ cout final = []) /\
  (exists final : fp_state R nat,
     SmallProblem.solve 1 = Ok (true, final) /\
     iteration final = 1%Z /\ RK final = true /\
     UM final = [(1 + 2) / 2] /\ cout final = [msg_not_converged]).
Proof.
  split.
  - destruct (proj2 (proj2 (proj2 (fixed_point_loop_control R (fun a => a)
                SmallProblem.solver (1 / 2) 1%nat nat
                (SmallProblem.settings_of 5) SmallProblem.vessel_wall
                SmallProblem.steps)) (small_well_posed 5))
                0%nat SmallProblem.geometry [1]
                ltac:(simpl; lia) eq_refl
                ltac:(intros _; repeat split; reflexivity))
      as [final E].
    destruct (proj1 (proj2 (fixed_point_loop_control R (fun a => a)
                SmallProblem.solver (1 / 2) 1%nat nat
                (SmallProblem.settings_of 5) SmallProblem.vessel_wall
                SmallProblem.steps)) _ _ _ _ E)
      as [st0 [st_end [final' [n [E0 [_ [Hrun [Hbefore [G [Hit [Ee
            [Hres [HUM [_ Hquiet]]]]]]]]]]]]]].
    inversion Hres; subst final'.
    destruct (small_converges st0 st_end n E0 Hrun Hbefore G)
      as [Hn [HRK HU]].
    destruct (exit_state_Ok R nat SmallProblem.steps _ _ Ee)
      as [_ [_ [Hitf [HRKf _]]]].
    exists final. split; [exact E|].
    split; [rewrite Hitf, Hit, Hn; reflexivity|].
    split; [rewrite HRKf; exact HRK|].
    split; [rewrite HUM; exact HU | exact (Hquiet HRK)].
  - destruct (proj2 (proj2 (proj2 (fixed_point_loop_control R (fun a => a)
                SmallProblem.solver (1 / 2) 1%nat nat
                (SmallProblem.settings_of 1) SmallProblem.vessel_wall
                SmallProblem.steps)) (small_well_posed 1))
                0%nat SmallProblem.geometry [1]
                ltac:(simpl; lia) eq_refl
                ltac:(intros _; repeat split; reflexivity))
      as [final E].
    destruct (proj1 (proj2 (fixed_point_loop_control R (fun a => a)
                SmallProblem.solver (1 / 2) 1%nat nat
                (SmallProblem.settings_of 1) SmallProblem.vessel_wall
                SmallProblem.steps)) _ _ _ _ E)
      as [st0 [st_end [final' [n [E0 [_ [Hrun [Hbefore [G [Hit [Ee
            [Hres [HUM [Hloud _]]]]]]]]]]]]]].
    inversion Hres; subst final'.
    destruct (small_stops st0 st_end n E0 Hrun Hbefore G) as [Hn [HRK HU]].
    destruct (exit_state_Ok R nat SmallProblem.steps _ _ Ee)
      as [_ [_ [Hitf [HRKf _]]]].
    exists final. split; [exact E|].
    split; [rewrite Hitf, Hit, Hn; reflexivity|].
    split; [rewrite HRKf; exact HRK|].
    split; [rewrite HUM; exact HU | exact (proj2 (Hloud HRK))].
Defined.

End LoopControlClaim.
